(** * Tendance: aggregation, ranking projection and SVG share card

    A shallow embedding of the two TypeScript modules of the Tendance
    feature and the properties proved about them:

    - [db-interface/app/tendance/page.tsx]: filtering and aggregation of
      the granular exam records ([filteredData]), grouping by
      sub-discipline ([groupedBySubDisc], [buildSvgDataForModule]),
      the module list ([modules]), the years of the header, the
      selection handlers and the export handler ([handleExportFinal]);
    - [db-interface/lib/tendance-svg-export.ts]: [esc], [truncateText]
      and [generateTendanceSVG].

    Conventions of the embedding.
    - A JavaScript string is the list of its UTF-16 code units
      ([Js.str]); [length], [slice] and the regular expressions of [esc]
      all work on code units.
    - The numbers of the data model are integers ([Z]); the two places
      where the code divides (the layout cap and the bar percentage) are
      computed over exact rationals ([Q]). An integer is printed in
      decimal, as JavaScript prints the integers it represents exactly.
    - [Array.prototype.sort] is a stable sort driven by the sign of the
      comparator ([Js.sortBy]).
    - A [Map] or [Set] is its sequence of entries in insertion order; a
      plain object used as a dictionary also sees the members inherited
      from [Object.prototype], and lists its integer-like keys first.
    - [String.prototype.localeCompare] and [toLowerCase] belong to the
      host: they are parameters of the definitions that call them. *)

From Stdlib Require Import List ZArith NArith QArith Qround Qminmax Lia Bool.
From Stdlib Require Import Ascii String DecimalString.
From Stdlib Require Import Sorting.Sorted Sorting.Permutation.
Import ListNotations.

Local Open Scope Z_scope.

(** ** JavaScript values used by both modules *)

Module Js.

(** UTF-16 code units. *)
Definition str : Type := list N.

(** An ASCII literal as a JavaScript string. *)
Definition lit (s : string) : str :=
  map N_of_ascii (list_ascii_of_string s).

(** A template fragment: [~] stands for the quotation mark U+0022. *)
Definition tpl (s : string) : str :=
  map (fun u => if N.eqb u 126 then 34%N else u) (lit s).

Fixpoint str_eqb (a b : str) : bool :=
  match a, b with
  | [], [] => true
  | x :: a', y :: b' => N.eqb x y && str_eqb a' b'
  | _, _ => false
  end.

(** [s.length] *)
Definition len {A : Type} (l : list A) : Z := Z.of_nat (List.length l).

(** [arr.includes(x)] *)
Definition includes {A : Type} (eqb : A -> A -> bool) (l : list A) (x : A) : bool :=
  existsb (eqb x) l.

(** [arr.indexOf(x)], [-1] when absent. *)
Fixpoint indexOfFrom {A : Type} (eqb : A -> A -> bool) (i : Z) (l : list A) (x : A) : Z :=
  match l with
  | [] => -1
  | y :: r => if eqb x y then i else indexOfFrom eqb (i + 1) r x
  end.

Definition indexOf {A : Type} (eqb : A -> A -> bool) (l : list A) (x : A) : Z :=
  indexOfFrom eqb 0 l x.

(** [arr.slice(start, end)] for integer arguments: a negative index
    counts from the end, and both are clamped to the array. *)
Definition sliceIndex (n i : Z) : Z :=
  if i <? 0 then Z.max (n + i) 0 else Z.min i n.

Definition slice {A : Type} (l : list A) (start stop : Z) : list A :=
  let n := len l in
  let k := sliceIndex n start in
  let final := sliceIndex n stop in
  firstn (Z.to_nat (Z.max (final - k) 0)) (skipn (Z.to_nat k) l).

(** [arr.sort(cmp)]: stable; [cmp a b <= 0] leaves [a] before [b]. *)
Fixpoint insertBy {A : Type} (cmp : A -> A -> Z) (x : A) (l : list A) : list A :=
  match l with
  | [] => [x]
  | y :: r => if cmp x y <=? 0 then x :: l else y :: insertBy cmp x r
  end.

Definition sortBy {A : Type} (cmp : A -> A -> Z) (l : list A) : list A :=
  fold_right (insertBy cmp) [] l.

(** [s.replace(/c/g, by)] for a one-character pattern. *)
Definition replaceAll (c : N) (by_ : str) (s : str) : str :=
  flat_map (fun u => if N.eqb u c then by_ else [u]) s.

(** [`${n}`] for an integer [n]. *)
Definition ofZ (n : Z) : str :=
  lit (NilEmpty.string_of_int (Z.to_int n)).

(** A [Map] keyed by strings, entries in insertion order. *)
Definition smap (V : Type) : Type := list (str * V).

Fixpoint mapGet {V : Type} (k : str) (mp : smap V) : option V :=
  match mp with
  | [] => None
  | (k', v) :: r => if str_eqb k k' then Some v else mapGet k r
  end.

Definition mapHas {V : Type} (k : str) (mp : smap V) : bool :=
  match mapGet k mp with Some _ => true | None => false end.

Fixpoint mapSet {V : Type} (k : str) (v : V) (mp : smap V) : smap V :=
  match mp with
  | [] => [(k, v)]
  | (k', v') :: r =>
      if str_eqb k k' then (k', v) :: r else (k', v') :: mapSet k v r
  end.

(** [set.add(x)] on a [Set] of numbers, elements in insertion order. *)
Definition setAdd (x : Z) (s : list Z) : list Z :=
  if existsb (Z.eqb x) s then s else s ++ [x].

(** The names every plain object inherits from [Object.prototype]. *)
Definition objectPrototypeNames : list str :=
  map lit
    [ "constructor"; "hasOwnProperty"; "isPrototypeOf";
      "propertyIsEnumerable"; "toLocaleString"; "toString"; "valueOf";
      "__proto__"; "__defineGetter__"; "__defineSetter__";
      "__lookupGetter__"; "__lookupSetter__" ]%string.

Definition inherited (k : str) : bool := includes str_eqb objectPrototypeNames k.

(** What [`${v}`] prints for the inherited member named [k]: the object
    [Object.prototype] itself under [__proto__], a native function
    otherwise. *)
Definition inheritedText (k : str) : str :=
  if str_eqb k (lit "__proto__") then lit "[object Object]"
  else lit "function " ++ (if str_eqb k (lit "constructor") then lit "Object" else k)
       ++ lit "() { [native code] }".

(** A key is an array index when it is the canonical decimal spelling
    of an integer below [2^32 - 1]. *)
Definition digitOf (u : N) : option N :=
  if (48 <=? u)%N && (u <=? 57)%N then Some (u - 48)%N else None.

Fixpoint digitsValue (acc : N) (s : str) : option N :=
  match s with
  | [] => Some acc
  | u :: r =>
      match digitOf u with
      | Some d => digitsValue (acc * 10 + d)%N r
      | None => None
      end
  end.

Definition arrayIndex (s : str) : option N :=
  match s with
  | [] => None
  | u :: r =>
      if N.eqb u 48 && negb (Nat.eqb (List.length r) 0) then None
      else match digitsValue 0 s with
           | Some n => if (n <=? 4294967294)%N then Some n else None
           | None => None
           end
  end.

(** [Object.entries(o)] of an object whose own properties were created
    in the order of [o]: array indices first, ascending, then the other
    keys in creation order. *)
Definition isIndexKey {V : Type} (p : str * V) : bool :=
  match arrayIndex (fst p) with Some _ => true | None => false end.

Definition indexCmp {V : Type} (p q : str * V) : Z :=
  match arrayIndex (fst p), arrayIndex (fst q) with
  | Some i, Some j => Z.of_N i - Z.of_N j
  | _, _ => 0
  end.

Definition objectEntries {V : Type} (o : smap V) : list (str * V) :=
  sortBy indexCmp (filter isIndexKey o)
  ++ filter (fun p => negb (isIndexKey p)) o.

End Js.

(** ** [lib/tendance-svg-export.ts] *)

Module SvgExport.

Import Js.

Record SvgCourseEntry : Type := {
  cours_topic : str;
  question_count : Z
}.

Record SvgSubDiscGroup : Type := {
  sub_discipline : str;
  entries : list SvgCourseEntry
}.

Record SvgExportOptions : Type := {
  moduleName : str;
  totalQuestions : Z;
  examYearsRange : str;
  totalExamYears : Z;
  subDiscGroups : list SvgSubDiscGroup
}.

(** *** Colors *)

Definition SUB_DISC_ACCENT : smap str :=
  [ (lit "Anatomie", lit "#f43f5e");
    (lit "Histologie", lit "#a855f7");
    (lit "Physiologie", lit "#3b82f6");
    (lit "Biochimie", lit "#10b981");
    (lit "Biophysique", lit "#f59e0b") ].

Definition SUB_DISC_ICONS : smap str :=
  [ (lit "Anatomie", [55358; 57024]%N);      (* U+1FAC0 *)
    (lit "Histologie", [55357; 56620]%N);    (* U+1F52C *)
    (lit "Physiologie", [9889]%N);           (* U+26A1 *)
    (lit "Biochimie", [55358; 56810]%N);     (* U+1F9EA *)
    (lit "Biophysique", [55357; 56528]%N) ]. (* U+1F4D0 *)

Definition BRAND_COLOR : str := lit "#09b2ac".
Definition MAX_COURSES : Z := 5.

(** [table[k] || fallback] printed in a template: an own entry when it
    is a non-empty string, else the member inherited under that name
    (an object or a function, hence truthy), else the fallback. *)
Definition lookupOr (table : smap str) (k : str) (fallback : str) : str :=
  match mapGet k table with
  | Some v => if str_eqb v [] then fallback else v
  | None => if inherited k then inheritedText k else fallback
  end.

(** *** Helpers *)

(** Escape text for safe XML embedding. *)
Definition esc (text : str) : str :=
  replaceAll 39 (lit "&apos;")
    (replaceAll 34 (lit "&quot;")
      (replaceAll 62 (lit "&gt;")
        (replaceAll 60 (lit "&lt;")
          (replaceAll 38 (lit "&amp;") text)))).

(** U+2026, the horizontal ellipsis. *)
Definition ellipsis : N := 8230.

(** Truncate text to fit approx width. *)
Definition truncateText (text : str) (maxChars : Z) : str :=
  if len text <=? maxChars then text
  else slice text 0 (maxChars - 1) ++ [ellipsis].

(** *** Template literals

    A template literal is the sequence of its fragments. [T] carries
    text that is emitted as it stands (the literal parts, numbers,
    colours and icons); [E s] is the interpolation [${esc(s)}]. *)

Inductive chunk : Type :=
  | T (s : str)
  | E (s : str).

Definition emit (ch : chunk) : str :=
  match ch with
  | T s => s
  | E s => esc s
  end.

(** [parts.join(<empty string>)] of the emitted fragments. *)
Definition join (parts : list chunk) : str := flat_map emit parts.

(** A line of a template: the line break, its indentation, its text. *)
Definition ln (indent : nat) (s : string) : str :=
  (10%N :: repeat 32%N indent) ++ tpl s.

Definition fontFamily : str :=
  tpl " font-family=~'Manrope','Inter','Segoe UI',sans-serif~".

(** *** Layout constants of [generateTendanceSVG] *)

Definition W : Z := 1080.
Definition H : Z := 1080.
Definition PAD : Z := 48.

Definition footerReserve : Z := 60.
Definition groupHeaderH : Z := 32.
Definition courseRowH : Z := 36.
Definition groupGap : Z := 20.

(** The cursor [y] after the header ([y += 44], [y += 60]) and after
    the divider ([y += 28]). *)
Definition yHeader : Z := PAD + 44.
Definition yDivider : Z := yHeader + 60.
Definition yBody : Z := yDivider + 28.

Definition availableHeight : Z := H - yBody - footerReserve.

Definition contentW : Z := W - PAD * 2.

(** How many courses to show per group. *)
Definition numGroups (subDiscGroups : list SvgSubDiscGroup) : Z := len subDiscGroups.

Definition spaceForCourses (subDiscGroups : list SvgSubDiscGroup) : Z :=
  let totalGroupHeaders := numGroups subDiscGroups * groupHeaderH in
  let totalGaps := Z.max 0 (numGroups subDiscGroups - 1) * groupGap in
  availableHeight - totalGroupHeaders - totalGaps.

Definition totalCourseSlots (subDiscGroups : list SvgSubDiscGroup) : Z :=
  fold_left (fun sum g => sum + Z.min (len (entries g)) MAX_COURSES) subDiscGroups 0.

Definition dynamicMaxCourses (subDiscGroups : list SvgSubDiscGroup) : Z :=
  if 0 <? totalCourseSlots subDiscGroups
  then Z.max 2
         (Qfloor (inject_Z (spaceForCourses subDiscGroups) / inject_Z courseRowH
                  / inject_Z (numGroups subDiscGroups)))
  else MAX_COURSES.

Definition effectiveMax (subDiscGroups : list SvgSubDiscGroup) : Z :=
  Z.min MAX_COURSES (dynamicMaxCourses subDiscGroups).

(** *** The body of the card *)

(** [group.entries.slice(0, effectiveMax)] *)
Definition displayEntries (cap : Z) (group : SvgSubDiscGroup) : list SvgCourseEntry :=
  slice (entries group) 0 cap.

(** [displayEntries[0]?.question_count || 1] *)
Definition maxQ (shown : list SvgCourseEntry) : Z :=
  match shown with
  | [] => 1
  | e :: _ => if question_count e =? 0 then 1 else question_count e
  end.

(** [Math.max(8, (entry.question_count / maxQ) * 100)] *)
Definition barPct (top : Z) (entry : SvgCourseEntry) : Q :=
  Qmax 8 (inject_Z (question_count entry) / inject_Z top * 100).

(** [Math.round(x)]: the nearest integer, halves upwards. *)
Definition round (x : Q) : Z := Qfloor (x + (1 # 2)).

Definition barW (top : Z) (entry : SvgCourseEntry) : Z :=
  round (inject_Z (contentW - 80) * (barPct top entry / 100)).

(** The running cursor and the parts pushed so far. *)
Record body : Type := {
  y : Z;
  bodyParts : list (list chunk)
}.

Definition push (part : list chunk) (st : body) : body :=
  {| y := y st; bodyParts := bodyParts st ++ [part] |}.

Definition advance (dy : Z) (st : body) : body :=
  {| y := y st + dy; bodyParts := bodyParts st |}.

(** [arr.forEach((x, i) => ...)] threading the state the callback
    mutates. *)
Fixpoint forEachFrom {A S : Type} (f : S -> A -> Z -> S) (i : Z) (l : list A) (st : S) : S :=
  match l with
  | [] => st
  | x :: r => forEachFrom f (i + 1) r (f st x i)
  end.

Definition forEach {A S : Type} (f : S -> A -> Z -> S) (l : list A) (st : S) : S :=
  forEachFrom f 0 l st.

(** The callback of [displayEntries.forEach]. *)
Definition renderRow (accent : str) (gi top : Z) (st : body)
    (entry : SvgCourseEntry) (idx : Z) : body :=
  let w := barW top entry in
  let rowX := PAD + 32 in
  let barAreaW := contentW - 80 in
  let truncated := truncateText (cours_topic entry) 50 in
  (* Rank number *)
  let st := push
    [ T (ln 8 "<text x=~" ++ ofZ (PAD + 24) ++ tpl "~ y=~" ++ ofZ (y st + 20)
         ++ tpl "~" ++ fontFamily
         ++ tpl " font-size=~13~ font-weight=~700~ fill=~rgba(255,255,255,0.4)~ text-anchor=~end~>"
         ++ ofZ (idx + 1) ++ tpl ".</text>" ++ ln 6 "") ] st in
  (* Bar background *)
  let st := push
    [ T (ln 8 "<rect x=~" ++ ofZ rowX ++ tpl "~ y=~" ++ ofZ (y st + 2)
         ++ tpl "~ width=~" ++ ofZ barAreaW
         ++ tpl "~ height=~28~ rx=~6~ fill=~rgba(255,255,255,0.05)~/>" ++ ln 6 "") ] st in
  (* Colored bar fill *)
  let st := push
    [ T (ln 8 "<rect x=~" ++ ofZ rowX ++ tpl "~ y=~" ++ ofZ (y st + 2)
         ++ tpl "~ width=~" ++ ofZ w
         ++ tpl "~ height=~28~ rx=~6~ fill=~url(#bar-grad-" ++ ofZ gi ++ tpl ")~/>"
         ++ ln 6 "") ] st in
  (* Course name text *)
  let st := push
    [ T (ln 8 "<text x=~" ++ ofZ (rowX + 12) ++ tpl "~ y=~" ++ ofZ (y st + 21)
         ++ tpl "~" ++ fontFamily
         ++ tpl " font-size=~13~ font-weight=~600~ fill=~#ffffff~>");
      E truncated;
      T (tpl "</text>" ++ ln 6 "") ] st in
  (* Question count *)
  let st := push
    [ T (ln 8 "<text x=~" ++ ofZ (W - PAD) ++ tpl "~ y=~" ++ ofZ (y st + 21)
         ++ tpl "~" ++ fontFamily
         ++ tpl " font-size=~14~ font-weight=~700~ fill=~" ++ accent
         ++ tpl "~ text-anchor=~end~>" ++ ofZ (question_count entry)
         ++ tpl "Q</text>" ++ ln 6 "") ] st in
  advance courseRowH st.

(** The callback of [subDiscGroups.forEach]; [cap] is [effectiveMax]
    and [n] is [subDiscGroups.length]. *)
Definition renderGroup (cap n : Z) (st : body) (group : SvgSubDiscGroup) (gi : Z) : body :=
  let accent := lookupOr SUB_DISC_ACCENT (sub_discipline group) BRAND_COLOR in
  let icon := lookupOr SUB_DISC_ICONS (sub_discipline group) [55357; 56534]%N in
  let shown := displayEntries cap group in
  let top := maxQ shown in
  (* Group header *)
  let st := push
    [ T (ln 6 "<text x=~" ++ ofZ PAD ++ tpl "~ y=~" ++ ofZ (y st + 20)
         ++ tpl "~ font-size=~22~>" ++ icon ++ tpl "</text>"
         ++ ln 6 "<text x=~" ++ ofZ (PAD + 34) ++ tpl "~ y=~" ++ ofZ (y st + 20)
         ++ tpl "~" ++ fontFamily
         ++ tpl " font-size=~16~ font-weight=~700~ fill=~" ++ accent
         ++ tpl "~ letter-spacing=~0.5~>");
      E (sub_discipline group);
      T (tpl "</text>"
         ++ ln 6 "<text x=~" ++ ofZ (PAD + 34 + len (sub_discipline group) * 10 + 12)
         ++ tpl "~ y=~" ++ ofZ (y st + 20) ++ tpl "~" ++ fontFamily
         ++ tpl " font-size=~12~ font-weight=~500~ fill=~rgba(255,255,255,0.35)~>"
         ++ [8212%N] ++ tpl " Top " ++ ofZ (len shown) ++ tpl "</text>" ++ ln 4 "") ] st in
  let st := advance groupHeaderH st in
  (* Course rows *)
  let st := forEach (renderRow accent gi top) shown st in
  (* Gap between groups *)
  if gi <? n - 1 then advance groupGap st else st.

Definition renderBody (subDiscGroups : list SvgSubDiscGroup) : body :=
  forEach (renderGroup (effectiveMax subDiscGroups) (numGroups subDiscGroups))
    subDiscGroups {| y := yBody; bodyParts := [] |}.

(** *** The rest of the document *)

(** The callback of [subDiscGroups.map] inside [defs]. *)
Definition barGradient (g : SvgSubDiscGroup) (i : Z) : str :=
  let accent := lookupOr SUB_DISC_ACCENT (sub_discipline g) BRAND_COLOR in
  ln 6 "<linearGradient id=~bar-grad-" ++ ofZ i
  ++ tpl "~ x1=~0%~ y1=~0%~ x2=~100%~ y2=~0%~>"
  ++ ln 8 "<stop offset=~0%~ stop-color=~" ++ accent ++ tpl "~ stop-opacity=~0.4~/>"
  ++ ln 8 "<stop offset=~100%~ stop-color=~" ++ accent ++ tpl "~ stop-opacity=~0.13~/>"
  ++ ln 6 "</linearGradient>".

Fixpoint mapIdxFrom {A B : Type} (f : A -> Z -> B) (i : Z) (l : list A) : list B :=
  match l with
  | [] => []
  | x :: r => f x i :: mapIdxFrom f (i + 1) r
  end.

Definition defs (subDiscGroups : list SvgSubDiscGroup) : list chunk :=
  [ T (ln 4 "<defs>"
       ++ ln 6 "<linearGradient id=~bg-grad~ x1=~0%~ y1=~0%~ x2=~100%~ y2=~100%~>"
       ++ ln 8 "<stop offset=~0%~ stop-color=~#1a1a2e~/>"
       ++ ln 8 "<stop offset=~50%~ stop-color=~#16213e~/>"
       ++ ln 8 "<stop offset=~100%~ stop-color=~#0f3460~/>"
       ++ ln 6 "</linearGradient>"
       ++ ln 6 "<radialGradient id=~glow-tr~ cx=~85%~ cy=~15%~ r=~40%~>"
       ++ ln 8 "<stop offset=~0%~ stop-color=~" ++ BRAND_COLOR ++ tpl "~ stop-opacity=~0.15~/>"
       ++ ln 8 "<stop offset=~100%~ stop-color=~" ++ BRAND_COLOR ++ tpl "~ stop-opacity=~0~/>"
       ++ ln 6 "</radialGradient>"
       ++ ln 6 "<radialGradient id=~glow-bl~ cx=~15%~ cy=~85%~ r=~30%~>"
       ++ ln 8 "<stop offset=~0%~ stop-color=~#9941ff~ stop-opacity=~0.1~/>"
       ++ ln 8 "<stop offset=~100%~ stop-color=~#9941ff~ stop-opacity=~0~/>"
       ++ ln 6 "</radialGradient>"
       ++ ln 6 "<linearGradient id=~divider-grad~ x1=~0%~ y1=~0%~ x2=~100%~ y2=~0%~>"
       ++ ln 8 "<stop offset=~0%~ stop-color=~" ++ BRAND_COLOR ++ tpl "~/>"
       ++ ln 8 "<stop offset=~60%~ stop-color=~#9941ff~ stop-opacity=~0.5~/>"
       ++ ln 8 "<stop offset=~100%~ stop-color=~#9941ff~ stop-opacity=~0~/>"
       ++ ln 6 "</linearGradient>"
       ++ ln 6 ""
       ++ List.concat (mapIdxFrom barGradient 0 subDiscGroups)
       ++ ln 4 "</defs>") ].

Definition bgElements : list chunk :=
  [ T (ln 4 "<rect width=~" ++ ofZ W ++ tpl "~ height=~" ++ ofZ H ++ tpl "~ fill=~url(#bg-grad)~/>"
       ++ ln 4 "<rect width=~" ++ ofZ W ++ tpl "~ height=~" ++ ofZ H ++ tpl "~ fill=~url(#glow-tr)~/>"
       ++ ln 4 "<rect width=~" ++ ofZ W ++ tpl "~ height=~" ++ ofZ H ++ tpl "~ fill=~url(#glow-bl)~/>") ].

Definition headerParts (opts : SvgExportOptions) : list (list chunk) :=
  let y := PAD in
  (* Brand badge *)
  let badge :=
    [ T (ln 4 "<rect x=~" ++ ofZ PAD ++ tpl "~ y=~" ++ ofZ y
         ++ tpl "~ width=~100~ height=~32~ rx=~8~ fill=~" ++ BRAND_COLOR ++ tpl "~/>"
         ++ ln 4 "<text x=~" ++ ofZ (PAD + 50) ++ tpl "~ y=~" ++ ofZ (y + 21)
         ++ tpl "~" ++ fontFamily
         ++ tpl " font-size=~18~ font-weight=~800~ fill=~#262626~ text-anchor=~middle~>FMC App</text>"
         ++ ln 2 "") ] in
  (* Tendance des Cours label *)
  let label :=
    [ T (ln 4 "<text x=~" ++ ofZ (PAD + 116) ++ tpl "~ y=~" ++ ofZ (y + 21)
         ++ tpl "~" ++ fontFamily
         ++ tpl " font-size=~14~ font-weight=~500~ fill=~rgba(255,255,255,0.5)~>Tendance des Cours</text>"
         ++ ln 2 "") ] in
  let y := yHeader in
  (* Module name *)
  let name :=
    [ T (ln 4 "<text x=~" ++ ofZ PAD ++ tpl "~ y=~" ++ ofZ (y + 30)
         ++ tpl "~" ++ fontFamily
         ++ tpl " font-size=~36~ font-weight=~800~ fill=~#ffffff~>");
      E (moduleName opts);
      T (tpl "</text>" ++ ln 2 "") ] in
  (* Stats badge (right-aligned) *)
  let statsX := W - PAD in
  let stats :=
    [ T (ln 4 "<rect x=~" ++ ofZ (statsX - 160) ++ tpl "~ y=~" ++ ofZ (y - 12)
         ++ tpl "~ width=~160~ height=~36~ rx=~10~ fill=~rgba(9,178,172,0.15)~ stroke=~rgba(9,178,172,0.3)~ stroke-width=~1~/>"
         ++ ln 4 "<text x=~" ++ ofZ (statsX - 80) ++ tpl "~ y=~" ++ ofZ (y + 12)
         ++ tpl "~" ++ fontFamily
         ++ tpl " font-size=~14~ font-weight=~600~ fill=~" ++ BRAND_COLOR
         ++ tpl "~ text-anchor=~middle~>" ++ ofZ (totalQuestions opts)
         ++ tpl " Questions</text>" ++ ln 2 "") ] in
  (* Promos label *)
  let promos :=
    [ T (ln 4 "<text x=~" ++ ofZ statsX ++ tpl "~ y=~" ++ ofZ (y + 40)
         ++ tpl "~" ++ fontFamily
         ++ tpl " font-size=~13~ font-weight=~500~ fill=~rgba(255,255,255,0.5)~ text-anchor=~end~>"
         ++ ofZ (totalExamYears opts) ++ tpl " promos " ++ [183%N] ++ tpl " ");
      E (examYearsRange opts);
      T (tpl "</text>" ++ ln 2 "") ] in
  [badge; label; name; stats; promos].

Definition divider : list chunk :=
  [ T (ln 4 "<rect x=~" ++ ofZ PAD ++ tpl "~ y=~" ++ ofZ yDivider
       ++ tpl "~ width=~" ++ ofZ (W - PAD * 2)
       ++ tpl "~ height=~2~ rx=~1~ fill=~url(#divider-grad)~/>" ++ ln 2 "") ].

Definition footer (opts : SvgExportOptions) : list chunk :=
  let footerY := H - PAD in
  [ T (ln 4 "<line x1=~" ++ ofZ PAD ++ tpl "~ y1=~" ++ ofZ (footerY - 24)
       ++ tpl "~ x2=~" ++ ofZ (W - PAD) ++ tpl "~ y2=~" ++ ofZ (footerY - 24)
       ++ tpl "~ stroke=~rgba(255,255,255,0.1)~ stroke-width=~1~/>"
       ++ ln 4 "<text x=~" ++ ofZ PAD ++ tpl "~ y=~" ++ ofZ footerY
       ++ tpl "~" ++ fontFamily
       ++ tpl " font-size=~12~ font-weight=~500~ fill=~rgba(255,255,255,0.35)~>Classement bas"
       ++ [233%N] ++ tpl " sur " ++ ofZ (totalExamYears opts) ++ tpl " promos (");
    E (examYearsRange opts);
    T (tpl ")</text>"
       ++ ln 4 "<text x=~" ++ ofZ (W - PAD - 90) ++ tpl "~ y=~" ++ ofZ footerY
       ++ tpl "~" ++ fontFamily
       ++ tpl " font-size=~12~ font-weight=~500~ fill=~rgba(255,255,255,0.35)~>G"
       ++ [233%N] ++ tpl "n" ++ [233%N] ++ tpl "r" ++ [233%N] ++ tpl " par</text>"
       ++ ln 4 "<rect x=~" ++ ofZ (W - PAD - 80) ++ tpl "~ y=~" ++ ofZ (footerY - 14)
       ++ tpl "~ width=~80~ height=~22~ rx=~6~ fill=~" ++ BRAND_COLOR ++ tpl "~/>"
       ++ ln 4 "<text x=~" ++ ofZ (W - PAD - 40) ++ tpl "~ y=~" ++ ofZ footerY
       ++ tpl "~" ++ fontFamily
       ++ tpl " font-size=~12~ font-weight=~800~ fill=~#262626~ text-anchor=~middle~>FMC App</text>"
       ++ ln 2 "") ].

(** The fragments of the assembled document, in order. *)
Definition svgChunks (opts : SvgExportOptions) : list chunk :=
  [ T (tpl "<?xml version=~1.0~ encoding=~UTF-8~ standalone=~no~?>"
       ++ ln 0 "<svg xmlns=~http://www.w3.org/2000/svg~ viewBox=~0 0 "
       ++ ofZ W ++ tpl " " ++ ofZ H ++ tpl "~ width=~" ++ ofZ W
       ++ tpl "~ height=~" ++ ofZ H ++ tpl "~>" ++ ln 2 "") ]
  ++ defs (subDiscGroups opts) ++ [ T (ln 2 "") ]
  ++ bgElements ++ [ T (ln 2 "") ]
  ++ List.concat (headerParts opts) ++ [ T (ln 2 "") ]
  ++ divider ++ [ T (ln 2 "") ]
  ++ List.concat (bodyParts (renderBody (subDiscGroups opts))) ++ [ T (ln 2 "") ]
  ++ footer opts ++ [ T (ln 0 "</svg>") ].

Definition generateTendanceSVG (opts : SvgExportOptions) : str :=
  join (svgChunks opts).

End SvgExport.

(** ** [app/tendance/page.tsx] *)

Module Page.

Import Js.

Record GranularEntry : Type := {
  m : str;    (* module *)
  sd : str;   (* sub-discipline *)
  c : str;    (* course *)
  ey : Z;     (* exam year *)
  et : str;   (* exam type *)
  cnt : Z     (* question count *)
}.

Record CoursEntry : Type := {
  module_name : str;
  sub_discipline : str;
  cours_topic : str;
  question_count : Z;
  years_appeared : Z;
  exam_years_list : list Z
}.

(** The value type of [aggMap]. *)
Module Agg.
Record item : Type := {
  m : str;
  sd : str;
  c : str;
  years : list Z;
  count : Z
}.
End Agg.

(** The callback of [rawEntries.filter]. *)
Definition keeps (selectedExamTypes : list str) (selectedPromos : list Z)
    (e : GranularEntry) : bool :=
  let matchType :=
    (len selectedExamTypes =? 0) || includes str_eqb selectedExamTypes (et e) in
  let matchPromo :=
    (len selectedPromos =? 0) || includes Z.eqb selectedPromos (ey e) in
  matchType && matchPromo.

(** [`${e.m}|||${e.sd}|||${e.c}`] *)
Definition keyOf (e : GranularEntry) : str :=
  m e ++ lit "|||" ++ sd e ++ lit "|||" ++ c e.

(** The body of [for (const e of filtered)]. The item fetched by
    [aggMap.get(key)] is the object stored in the map, so its two
    updates are updates of the map entry. *)
Definition aggStep (aggMap : smap Agg.item) (e : GranularEntry) : smap Agg.item :=
  let key := keyOf e in
  let aggMap :=
    if negb (mapHas key aggMap)
    then mapSet key
           {| Agg.m := m e; Agg.sd := sd e; Agg.c := c e;
              Agg.years := []; Agg.count := 0 |} aggMap
    else aggMap in
  match mapGet key aggMap with
  | Some item =>
      mapSet key
        {| Agg.m := Agg.m item; Agg.sd := Agg.sd item; Agg.c := Agg.c item;
           Agg.years := setAdd (ey e) (Agg.years item);
           Agg.count := Agg.count item + cnt e |} aggMap
  | None => aggMap
  end.

Definition buildAggMap (filtered : list GranularEntry) : smap Agg.item :=
  fold_left aggStep filtered [].

(** The callback of [.map] in step 3. *)
Definition toCoursEntry (v : Agg.item) : CoursEntry :=
  {| module_name := Agg.m v;
     sub_discipline := Agg.sd v;
     cours_topic := Agg.c v;
     question_count := Agg.count v;
     years_appeared := len (Agg.years v);
     exam_years_list := sortBy (fun a b => a - b) (Agg.years v) |}.

Section WithLocaleCompare.

(** [a.localeCompare(b)] *)
Variable localeCompare : str -> str -> Z.

(** The comparator of the final [.sort]: module, then sub-discipline,
    then count descending. *)
Definition cmpCours (a b : CoursEntry) : Z :=
  if negb (str_eqb (module_name a) (module_name b))
  then localeCompare (module_name a) (module_name b)
  else if negb (str_eqb (sub_discipline a) (sub_discipline b))
  then localeCompare (sub_discipline a) (sub_discipline b)
  else question_count b - question_count a.

(** [Array.from(aggMap.values()).map(...)], before the sort: the
    entries in the order their keys entered the map. *)
Definition aggregated (rawEntries : list GranularEntry)
    (selectedExamTypes : list str) (selectedPromos : list Z) : list CoursEntry :=
  let filtered := filter (keeps selectedExamTypes selectedPromos) rawEntries in
  map toCoursEntry (map snd (buildAggMap filtered)).

Definition filteredData (rawEntries : list GranularEntry)
    (selectedExamTypes : list str) (selectedPromos : list Z) : list CoursEntry :=
  if len rawEntries =? 0 then []
  else sortBy cmpCours (aggregated rawEntries selectedExamTypes selectedPromos).

(** The object [groups] of [groupedBySubDisc] and
    [buildSvgDataForModule]: its own properties in creation order. The
    statement [if (!groups[k]) groups[k] = []; groups[k].push(d)] reads
    [groups[k]] through the prototype chain: under an inherited name it
    finds a truthy member without [push], and the call raises a
    [TypeError] ([None]). *)
Definition groupPush (groups : smap (list CoursEntry)) (d : CoursEntry)
    : option (smap (list CoursEntry)) :=
  let k := sub_discipline d in
  match mapGet k groups with
  | Some arr => Some (mapSet k (arr ++ [d]) groups)
  | None => if inherited k then None else Some (mapSet k [d] groups)
  end.

Fixpoint groupAll (groups : smap (list CoursEntry)) (l : list CoursEntry)
    : option (smap (list CoursEntry)) :=
  match l with
  | [] => Some groups
  | d :: r =>
      match groupPush groups d with
      | Some groups' => groupAll groups' r
      | None => None
      end
  end.

Definition order : list str :=
  map lit [ "Anatomie"; "Histologie"; "Physiologie"; "Biochimie"; "Biophysique" ]%string.

(** The comparator of [Object.entries(groups).sort], on the keys. *)
Definition cmpSubDisc (a b : str) : Z :=
  let ia := indexOf str_eqb order a in
  let ib := indexOf str_eqb order b in
  if (ia =? -1) && (ib =? -1) then localeCompare a b
  else if ia =? -1 then 1
  else if ib =? -1 then -1
  else ia - ib.

Definition sortGroups (groups : smap (list CoursEntry)) : list (str * list CoursEntry) :=
  sortBy (fun p q => cmpSubDisc (fst p) (fst q)) (objectEntries groups).

Definition filteredByModule (data : list CoursEntry) (selectedModule : str) : list CoursEntry :=
  filter (fun d => str_eqb (module_name d) selectedModule) data.

Definition groupedBySubDisc (data : list CoursEntry) (selectedModule : str)
    : option (list (str * list CoursEntry)) :=
  match groupAll [] (filteredByModule data selectedModule) with
  | Some groups => Some (sortGroups groups)
  | None => None
  end.

(** The [Set] of all exam years of the filtered data. *)
Definition allYears (data : list CoursEntry) : list Z :=
  fold_left (fun years d => fold_left (fun ys y => setAdd y ys) (exam_years_list d) years)
    data [].

Definition totalExamYears (data : list CoursEntry) : Z := len (allYears data).

Definition examYearsRange (data : list CoursEntry) : str :=
  let sorted := sortBy (fun a b => a - b) (allYears data) in
  match sorted with
  | [] => []
  | first :: _ => ofZ first ++ [8211%N] ++ ofZ (last sorted first)
  end.

(** [allowedSubDiscs] is the optional parameter. *)
Definition buildSvgDataForModule (data : list CoursEntry) (modName : str)
    (allowedSubDiscs : option (list str)) : option SvgExport.SvgExportOptions :=
  let modEntries := filter (fun d => str_eqb (module_name d) modName) data in
  let modEntries :=
    match allowedSubDiscs with
    | Some allowed =>
        if 0 <? len allowed
        then filter (fun d => includes str_eqb allowed (sub_discipline d)) modEntries
        else modEntries
    | None => modEntries
    end in
  let totalQ := fold_left (fun sum e => sum + question_count e) modEntries 0 in
  match groupAll [] modEntries with
  | Some groups =>
      Some {| SvgExport.moduleName := modName;
              SvgExport.totalQuestions := totalQ;
              SvgExport.examYearsRange := examYearsRange data;
              SvgExport.totalExamYears := totalExamYears data;
              SvgExport.subDiscGroups :=
                map (fun p =>
                       {| SvgExport.sub_discipline := fst p;
                          SvgExport.entries :=
                            map (fun e =>
                                   {| SvgExport.cours_topic := cours_topic e;
                                      SvgExport.question_count := question_count e |})
                                (snd p) |})
                    (sortGroups groups) |}
  | None => None
  end.

End WithLocaleCompare.

End Page.

(** ** Notions used in the statements *)

Import Js.

(** The sum of a list of integers. *)
Definition sumZ (l : list Z) : Z := fold_right Z.add 0 l.

(** The distinct elements of a list of keys, each at the place of its
    first occurrence. *)
Fixpoint firstOccs (ks : list str) : list str :=
  match ks with
  | [] => []
  | k :: r => k :: filter (fun k' => negb (str_eqb k' k)) (firstOccs r)
  end.

(** The distinct years of a list, in order of first appearance: the
    content of a [Set] after adding them one by one. *)
Definition yearSet (ys : list Z) : list Z :=
  fold_left (fun s y => setAdd y s) ys [].

(** The records of a stream that carry the composite key [k]. *)
Definition hasKey (k : str) (e : Page.GranularEntry) : bool :=
  str_eqb (Page.keyOf e) k.

(** The records of a stream whose (module, sub-discipline, course)
    triple is the one of the aggregated entry [d]. *)
Definition hasTriple (d : Page.CoursEntry) (e : Page.GranularEntry) : bool :=
  str_eqb (Page.m e) (Page.module_name d)
  && str_eqb (Page.sd e) (Page.sub_discipline d)
  && str_eqb (Page.c e) (Page.cours_topic d).

(** The item the aggregation loop holds under key [k] once it has
    consumed the stream [l]: the names of the first record with that
    key, the years and the counts of all of them. *)
Definition itemOf (k : str) (l : list Page.GranularEntry) : Page.Agg.item :=
  let rs := filter (hasKey k) l in
  {| Page.Agg.m := match rs with r :: _ => Page.m r | [] => [] end;
     Page.Agg.sd := match rs with r :: _ => Page.sd r | [] => [] end;
     Page.Agg.c := match rs with r :: _ => Page.c r | [] => [] end;
     Page.Agg.years := yearSet (map Page.ey rs);
     Page.Agg.count := sumZ (map Page.cnt rs) |}.

(** The order the final sort of [filteredData] is meant to produce:
    module ascending, then sub-discipline ascending, then count
    descending; names are compared by [localeCompare]. *)
Definition coursLe (localeCompare : str -> str -> Z) (a b : Page.CoursEntry) : Prop :=
  localeCompare (Page.module_name a) (Page.module_name b) < 0
  \/ (Page.module_name a = Page.module_name b
      /\ (localeCompare (Page.sub_discipline a) (Page.sub_discipline b) < 0
          \/ (Page.sub_discipline a = Page.sub_discipline b
              /\ Page.question_count b <= Page.question_count a))).

(** The order of the sub-discipline blocks: a listed name before a
    later listed name, a listed name before any unlisted one, and two
    unlisted names as [localeCompare] orders them. *)
Definition subBefore (localeCompare : str -> str -> Z) (a b : str) : Prop :=
  let ia := indexOf str_eqb Page.order a in
  let ib := indexOf str_eqb Page.order b in
  (ia <> -1 /\ ib <> -1 /\ ia < ib)
  \/ (ia <> -1 /\ ib = -1)
  \/ (ia = -1 /\ ib = -1 /\ localeCompare a b <= 0).

(** The entries that tie with [a] in the final sort: same module, same
    sub-discipline, same count. *)
Definition sameRank (a d : Page.CoursEntry) : bool :=
  str_eqb (Page.module_name d) (Page.module_name a)
  && str_eqb (Page.sub_discipline d) (Page.sub_discipline a)
  && (Page.question_count d =? Page.question_count a).

(** The entries of sub-discipline [k]. *)
Definition hasSub (k : str) (d : Page.CoursEntry) : bool :=
  str_eqb (Page.sub_discipline d) k.

(** What is assumed of the host's [localeCompare]: its sign is a total
    preorder of the strings. *)
Record Collation (localeCompare : str -> str -> Z) : Prop := {
  collation_sym : forall a b, localeCompare a b < 0 <-> 0 < localeCompare b a;
  collation_trans :
    forall a b c, localeCompare a b <= 0 -> localeCompare b c <= 0 ->
                  localeCompare a c <= 0
}.

(** A collation is strict when it tells any two different strings
    apart. This is what makes the comparator of [filteredData]
    consistent, hence the result of its sort determined. *)
Definition strictCollation (localeCompare : str -> str -> Z) : Prop :=
  forall a b, localeCompare a b = 0 -> a = b.

(** A collation to run the definitions with: strings compared code
    unit by code unit. *)
Fixpoint ordinalCompare (a b : str) : Z :=
  match a, b with
  | [], [] => 0
  | [], _ :: _ => -1
  | _ :: _, [] => 1
  | x :: a', y :: b' =>
      if (x <? y)%N then -1 else if (y <? x)%N then 1 else ordinalCompare a' b'
  end.

(** Two records of different triples whose composite keys coincide:
    the separator of the key occurs inside a name. *)
Definition collidingA : Page.GranularEntry :=
  {| Page.m := lit "Cardio|||Anatomie"; Page.sd := lit "Coeur";
     Page.c := lit "Valves"; Page.ey := 2021; Page.et := lit "EMD1";
     Page.cnt := 1 |}.

Definition collidingB : Page.GranularEntry :=
  {| Page.m := lit "Cardio"; Page.sd := lit "Anatomie|||Coeur";
     Page.c := lit "Valves"; Page.ey := 2022; Page.et := lit "EMD1";
     Page.cnt := 2 |}.

(** *** Escaped text *)

(** The entity of a reserved character; any other character stands
    for itself. *)
Definition escChar (u : N) : str :=
  if N.eqb u 38 then lit "&amp;"
  else if N.eqb u 60 then lit "&lt;"
  else if N.eqb u 62 then lit "&gt;"
  else if N.eqb u 34 then lit "&quot;"
  else if N.eqb u 39 then lit "&apos;"
  else [u].

(** The five reserved characters: ampersand, angle brackets, quotation
    mark and apostrophe. *)
Definition reserved (u : N) : bool :=
  N.eqb u 38 || N.eqb u 60 || N.eqb u 62 || N.eqb u 34 || N.eqb u 39.

Definition startsWith (p s : str) : bool :=
  str_eqb p (firstn (List.length p) s).

(** The entity whose name starts [s], after an ampersand: the character
    it denotes and the number of code units to skip. *)
Definition entityAt (s : str) : option (N * nat) :=
  if startsWith (lit "amp;") s then Some (38%N, 4%nat)
  else if startsWith (lit "lt;") s then Some (60%N, 3%nat)
  else if startsWith (lit "gt;") s then Some (62%N, 3%nat)
  else if startsWith (lit "quot;") s then Some (34%N, 5%nat)
  else if startsWith (lit "apos;") s then Some (39%N, 5%nat)
  else None.

(** Reading a piece of document text the way an XML reader does, be it
    element content or a quoted attribute value: an ampersand must
    start one of the five entities, which is replaced by its character;
    a bare angle bracket, quotation mark or apostrophe is refused
    ([None]). [skip] code units of an entity name remain to be passed
    over. *)
Fixpoint decodeFrom (skip : nat) (s : str) : option str :=
  match s with
  | [] => Some []
  | u :: r =>
      match skip with
      | S k => decodeFrom k r
      | O =>
          if N.eqb u 38 then
            match entityAt r with
            | Some (ch, k) => option_map (cons ch) (decodeFrom k r)
            | None => None
            end
          else if reserved u then None
          else option_map (cons u) (decodeFrom 0 r)
      end
  end.

Definition decode (s : str) : option str := decodeFrom 0 s.

(** The arguments of the [esc] interpolations of a template, in order. *)
Definition escaped (parts : list SvgExport.chunk) : list str :=
  flat_map (fun ch => match ch with
                      | SvgExport.E s => [s]
                      | SvgExport.T _ => []
                      end) parts.

(** The label of a course row. *)
Definition rowLabel (e : SvgExport.SvgCourseEntry) : str :=
  SvgExport.truncateText (SvgExport.cours_topic e) 50.

(** The texts a block contributes: its name, then the labels of the
    rows shown under cap [cap]. *)
Definition blockTexts (cap : Z) (g : SvgExport.SvgSubDiscGroup) : list str :=
  SvgExport.sub_discipline g :: map rowLabel (SvgExport.displayEntries cap g).

(** The height a block takes: its header and the rows shown. *)
Definition blockHeight (cap : Z) (g : SvgExport.SvgSubDiscGroup) : Z :=
  SvgExport.groupHeaderH
  + SvgExport.courseRowH * len (SvgExport.displayEntries cap g).

(** The template fragments of a document, in order. *)
Definition template (parts : list SvgExport.chunk) : list str :=
  flat_map (fun ch => match ch with
                      | SvgExport.T s => [s]
                      | SvgExport.E _ => []
                      end) parts.

(** What the template fragments take from a block: the colour and the
    icon found under its name, the length of the name, and the counts
    of its entries. *)
Definition blockView (g : SvgExport.SvgSubDiscGroup) : str * str * Z * list Z :=
  (SvgExport.lookupOr SvgExport.SUB_DISC_ACCENT (SvgExport.sub_discipline g)
     SvgExport.BRAND_COLOR,
   SvgExport.lookupOr SvgExport.SUB_DISC_ICONS (SvgExport.sub_discipline g)
     [55357; 56534]%N,
   len (SvgExport.sub_discipline g),
   map SvgExport.question_count (SvgExport.entries g)).

Definition optionsView (opts : SvgExport.SvgExportOptions)
    : Z * Z * list (str * str * Z * list Z) :=
  (SvgExport.totalQuestions opts, SvgExport.totalExamYears opts,
   map blockView (SvgExport.subDiscGroups opts)).

(** Two states of the body with the same cursor and the same template
    fragments. *)
Definition sameTemplate (st1 st2 : SvgExport.body) : Prop :=
  SvgExport.y st1 = SvgExport.y st2
  /\ template (List.concat (SvgExport.bodyParts st1))
     = template (List.concat (SvgExport.bodyParts st2)).

(** *** The layout as the specification words it *)

Definition nonEmpty (g : SvgExport.SvgSubDiscGroup) : bool :=
  negb (len (SvgExport.entries g) =? 0).

(** [numBlocks] is the count of non-empty blocks. *)
Definition specNumBlocks (groups : list SvgExport.SvgSubDiscGroup) : Z :=
  len (filter nonEmpty groups).

Definition specSpaceForRows (groups : list SvgExport.SvgSubDiscGroup) : Z :=
  SvgExport.availableHeight - specNumBlocks groups * SvgExport.groupHeaderH
  - Z.max 0 (specNumBlocks groups - 1) * SvgExport.groupGap.

(** [floor(spaceForRows / R / numBlocks)] clamped to [Kmin, K], and
    [Kmin] when there is no space. *)
Definition specCap (groups : list SvgExport.SvgSubDiscGroup) : Z :=
  if specSpaceForRows groups <=? 0 then 2
  else
    Z.max 2
      (Z.min 5
         (Qfloor (inject_Z (specSpaceForRows groups) / inject_Z SvgExport.courseRowH
                  / inject_Z (specNumBlocks groups)))).

(** *** Sample inputs *)

Definition heart : SvgExport.SvgCourseEntry :=
  {| SvgExport.cours_topic := lit "Heart"; SvgExport.question_count := 5 |}.

Definition lung : SvgExport.SvgCourseEntry :=
  {| SvgExport.cours_topic := lit "Lung"; SvgExport.question_count := 2 |}.

(** A block with entries and a block without. *)
Definition anatomie : SvgExport.SvgSubDiscGroup :=
  {| SvgExport.sub_discipline := lit "Anatomie";
     SvgExport.entries := [heart; lung] |}.

Definition emptyBlock : SvgExport.SvgSubDiscGroup :=
  {| SvgExport.sub_discipline := lit "Histologie"; SvgExport.entries := [] |}.

(** Records of one module: three topics of Anatomie with counts 10, 10
    and 5, met in the order A, B, C, among topics of other
    sub-disciplines. *)
Definition record (sub topic : string) (year count : Z) : Page.GranularEntry :=
  {| Page.m := lit "Cardio"; Page.sd := lit sub; Page.c := lit topic;
     Page.ey := year; Page.et := lit "EMD1"; Page.cnt := count |}.

Definition sampleRecords : list Page.GranularEntry :=
  [ record "Semiologie" "D" 2022 3;
    record "Anatomie" "A" 2021 10;
    record "Histologie" "E" 2020 7;
    record "Anatomie" "B" 2021 10;
    record "Embryologie" "F" 2020 1;
    record "Anatomie" "C" 2022 5 ].

Definition topic (sub name : string) (count : Z) (year : Z) : Page.CoursEntry :=
  {| Page.module_name := lit "Cardio"; Page.sub_discipline := lit sub;
     Page.cours_topic := lit name; Page.question_count := count;
     Page.years_appeared := 1; Page.exam_years_list := [year] |}.

(** A topic whose forty-ninth character is an ampersand. *)
Definition ampersandTopic : str := repeat 97%N 48 ++ lit "&bcd".

(** ** [app/tendance/page.tsx]: derived view data, selections, export *)

Module PageState.

Import Js.

Record ModuleInfo : Type := {
  module_name : str;
  sub_disciplines : list str;
  total_questions : Z
}.

(** The value type of [moduleMap]. *)
Module Info.
Record item : Type := {
  subs : list str;
  totalQ : Z
}.
End Info.

(** [set.add(x)] on a [Set] of strings, elements in insertion order. *)
Definition setAddStr (x : str) (s : list str) : list str :=
  if existsb (str_eqb x) s then s else s ++ [x].

(** The body of [for (const d of filteredData)] in [modules]. *)
Definition moduleStep (moduleMap : smap Info.item) (d : Page.CoursEntry)
    : smap Info.item :=
  let name := Page.module_name d in
  let moduleMap :=
    if negb (mapHas name moduleMap)
    then mapSet name {| Info.subs := []; Info.totalQ := 0 |} moduleMap
    else moduleMap in
  match mapGet name moduleMap with
  | Some entry =>
      mapSet name
        {| Info.subs := setAddStr (Page.sub_discipline d) (Info.subs entry);
           Info.totalQ := Info.totalQ entry + Page.question_count d |} moduleMap
  | None => moduleMap
  end.

(** [Array.from(moduleMap.entries()).map(...)], before the sort. The
    [.sort()] of the sub-disciplines has no comparator: strings are
    compared code unit by code unit. *)
Definition moduleInfos (filteredData : list Page.CoursEntry) : list ModuleInfo :=
  map (fun p =>
         {| module_name := fst p;
            sub_disciplines := sortBy ordinalCompare (Info.subs (snd p));
            total_questions := Info.totalQ (snd p) |})
      (fold_left moduleStep filteredData []).

Definition modules (filteredData : list Page.CoursEntry) : list ModuleInfo :=
  sortBy (fun a b => total_questions b - total_questions a)
    (moduleInfos filteredData).

(** The effect that keeps [selectedModule] valid: the value of
    [selectedModule] once the effect has run. *)
Definition selectedModuleEffect (modules : list ModuleInfo) (selectedModule : str)
    : str :=
  if (0 <? len modules)
     && negb (existsb (fun m => str_eqb (module_name m) selectedModule) modules)
  then match modules with
       | first :: _ => module_name first
       | [] => selectedModule
       end
  else if (len modules =? 0) && negb (str_eqb selectedModule [])
  then []
  else selectedModule.

(** *** Helpers for the filter UI: the new selection *)

Definition toggleType (type : str) (prev : list str) : list str :=
  if includes str_eqb prev type
  then filter (fun t => negb (str_eqb t type)) prev
  else prev ++ [type].

Definition togglePromo (promo : Z) (prev : list Z) : list Z :=
  if includes Z.eqb prev promo
  then filter (fun p => negb (Z.eqb p promo)) prev
  else prev ++ [promo].

Definition selectEMDOnly (availableExamTypes : list str) : list str :=
  filter (fun t => startsWith (lit "EMD") t) availableExamTypes.

Definition selectRattrapageOnly (availableExamTypes : list str) : list str :=
  filter (fun t => str_eqb t (lit "Rattrapage")) availableExamTypes.

Definition selectAllTypes (availableExamTypes : list str) : list str :=
  availableExamTypes.

Definition selectAllPromos (availablePromos : list Z) : list Z := availablePromos.

Definition deselectAllPromos : list Z := [].

(** *** The export dropdown *)

(** [mod?.sub_disciplines ?? []] for the module found under a name. *)
Definition subDiscsOf (modules : list ModuleInfo) (modName : str) : list str :=
  match find (fun m => str_eqb (module_name m) modName) modules with
  | Some mod_ => sub_disciplines mod_
  | None => []
  end.

Definition exportModuleSubDiscs (modules : list ModuleInfo)
    (exportSelectedModule : str) : list str :=
  if str_eqb exportSelectedModule [] then []
  else subDiscsOf modules exportSelectedModule.

(** The new values of [exportSelectedModule] and
    [exportSelectedSubDiscs]. *)
Definition handleSelectExportModule (modules : list ModuleInfo) (modName : str)
    : str * list str :=
  (modName, subDiscsOf modules modName).

Definition toggleExportSubDisc (sd : str) (prev : list str) : list str :=
  if includes str_eqb prev sd
  then filter (fun s => negb (str_eqb s sd)) prev
  else prev ++ [sd].

(** The class [\s] of regular expressions. *)
Definition isWhiteSpace (u : N) : bool :=
  ((9 <=? u) && (u <=? 13))%N
  || N.eqb u 32 || N.eqb u 160 || N.eqb u 5760
  || ((8192 <=? u) && (u <=? 8202))%N
  || N.eqb u 8232 || N.eqb u 8233 || N.eqb u 8239 || N.eqb u 8287
  || N.eqb u 12288 || N.eqb u 65279.

(** [s.replace(/\s+/g, by)]: every maximal run of white space becomes
    one [by]; [inRun] tells that the previous code unit was white
    space. *)
Fixpoint replaceSpaceRuns (by_ : str) (inRun : bool) (s : str) : str :=
  match s with
  | [] => []
  | u :: r =>
      if isWhiteSpace u
      then (if inRun then [] else by_) ++ replaceSpaceRuns by_ true r
      else u :: replaceSpaceRuns by_ false r
  end.

(** What [handleExportFinal] does: nothing when its guard returns, a
    download of the document under a file name, or the caught failure
    of the construction of the data. *)
Inductive outcome : Type :=
  | Ignored
  | Failed
  | Downloaded (svg filename : str).

Section Host.

Variable localeCompare : str -> str -> Z.

(** [s.toLowerCase()] *)
Variable toLowerCase : str -> str.

Definition exportFilename (exportSelectedModule : str) : str :=
  lit "tendance-"
  ++ toLowerCase (replaceSpaceRuns (lit "-") false exportSelectedModule)
  ++ lit ".svg".

Definition handleExportFinal (filteredData : list Page.CoursEntry)
    (exporting : bool) (exportSelectedModule : str)
    (exportSelectedSubDiscs : list str) : outcome :=
  if exporting || str_eqb exportSelectedModule []
     || (len exportSelectedSubDiscs =? 0)
  then Ignored
  else
    match Page.buildSvgDataForModule localeCompare filteredData
            exportSelectedModule (Some exportSelectedSubDiscs) with
    | Some data =>
        Downloaded (SvgExport.generateTendanceSVG data)
          (exportFilename exportSelectedModule)
    | None => Failed
    end.

End Host.

(** *** The bars of the page *)

(** [entries[0]?.question_count || 1] *)
Definition safeBase (entries : list Page.CoursEntry) : Z :=
  match entries with
  | [] => 1
  | e :: _ => if Page.question_count e =? 0 then 1 else Page.question_count e
  end.

(** [Math.max(8, (entry.question_count / safeBase) * 100)] *)
Definition barWidth (entries : list Page.CoursEntry) (entry : Page.CoursEntry) : Q :=
  Qmax 8 (inject_Z (Page.question_count entry) / inject_Z (safeBase entries) * 100).

End PageState.

(** *** Notions used in the further statements *)

(** The (module, sub-discipline, course) triple of an entry. *)
Definition tripleOf (d : Page.CoursEntry) : str * str * str :=
  (Page.module_name d, Page.sub_discipline d, Page.cours_topic d).

(** The entries of module [k]. *)
Definition hasModule (k : str) (d : Page.CoursEntry) : bool :=
  str_eqb (Page.module_name d) k.

(** Strictly ascending lists of integers and of strings. *)
Definition ascendingZ (l : list Z) : Prop := StronglySorted Z.lt l.

Definition ascendingStr (l : list str) : Prop :=
  StronglySorted (fun a b => ordinalCompare a b < 0) l.

(** The text of an entry as the card takes it. *)
Definition toSvgEntry (e : Page.CoursEntry) : SvgExport.SvgCourseEntry :=
  {| SvgExport.cours_topic := Page.cours_topic e;
     SvgExport.question_count := Page.question_count e |}.

(** The composite key under which the aggregation holds an entry. *)
Definition entryKey (d : Page.CoursEntry) : str :=
  Page.module_name d ++ lit "|||" ++ Page.sub_discipline d ++ lit "|||"
  ++ Page.cours_topic d.

(** The strings of a list in order of first appearance, as the [Set] of
    a module's sub-disciplines collects them. *)
Definition strSet (ys : list str) : list str :=
  fold_left (fun s y => PageState.setAddStr y s) ys [].

(** The value the module map holds for a module name after the entries of
    [l] have been folded in. *)
Definition infoOf (k : str) (l : list Page.CoursEntry) : PageState.Info.item :=
  let es := filter (hasModule k) l in
  {| PageState.Info.subs := strSet (map Page.sub_discipline es);
     PageState.Info.totalQ := sumZ (map Page.question_count es) |}.

(** [entries.reduce((sum, e) => sum + e.question_count, 0)], the total
    shown in the header of a block of the page. *)
Definition totalSubQ (entries : list Page.CoursEntry) : Z :=
  fold_left (fun sum e => sum + Page.question_count e) entries 0.

(** Whether the optional selection of the export lets a sub-discipline
    through: an absent or empty selection lets everything through. *)
Definition permits (allowedSubDiscs : option (list str)) (k : str) : bool :=
  match allowedSubDiscs with
  | Some allowed => if 0 <? len allowed then includes str_eqb allowed k else true
  | None => true
  end.

(** A block of the page as the export passes it to the card. *)
Definition toSvgGroup (p : str * list Page.CoursEntry) : SvgExport.SvgSubDiscGroup :=
  {| SvgExport.sub_discipline := fst p;
     SvgExport.entries := map toSvgEntry (snd p) |}.

(** ** JavaScript values: basic facts *)

Lemma str_eqb_eq (a b : str) : str_eqb a b = true <-> a = b.
Proof.
  revert b; induction a as [|x a IH]; intros [|y b]; simpl; split;
    try congruence; try reflexivity.
  - intros H. apply andb_true_iff in H as [Hx Hr].
    apply N.eqb_eq in Hx. apply IH in Hr. congruence.
  - intros H. injection H as -> ->.
    rewrite N.eqb_refl. simpl. now apply IH.
Qed.

Lemma str_eqb_refl (a : str) : str_eqb a a = true.
Proof. now apply str_eqb_eq. Qed.

Lemma str_eqb_neq (a b : str) : str_eqb a b = false <-> a <> b.
Proof.
  split.
  - intros H E. apply str_eqb_eq in E. congruence.
  - intros H. destruct (str_eqb a b) eqn:E; [|reflexivity].
    apply str_eqb_eq in E. contradiction.
Qed.

Lemma str_eqb_sym (a b : str) : str_eqb a b = str_eqb b a.
Proof.
  destruct (str_eqb a b) eqn:E.
  - apply str_eqb_eq in E. subst. symmetry. apply str_eqb_refl.
  - symmetry. apply str_eqb_neq. apply str_eqb_neq in E. congruence.
Qed.

Lemma str_eq_dec (a b : str) : {a = b} + {a <> b}.
Proof.
  destruct (str_eqb a b) eqn:E.
  - left. now apply str_eqb_eq.
  - right. now apply str_eqb_neq.
Qed.

(** *** The stable sort *)

Section SortFacts.

Context {A : Type} (cmp : A -> A -> Z).

Lemma insertBy_perm (x : A) (l : list A) : Permutation (insertBy cmp x l) (x :: l).
Proof.
  induction l as [|y r IH]; simpl.
  - apply Permutation_refl.
  - destruct (cmp x y <=? 0).
    + apply Permutation_refl.
    + eapply Permutation_trans; [apply perm_skip, IH | apply perm_swap].
Qed.

Lemma sortBy_perm (l : list A) : Permutation (sortBy cmp l) l.
Proof.
  induction l as [|x r IH]; simpl.
  - constructor.
  - eapply Permutation_trans; [apply insertBy_perm | now apply perm_skip].
Qed.

Lemma sortBy_In (l : list A) (x : A) : In x (sortBy cmp l) <-> In x l.
Proof.
  split; apply Permutation_in; [|apply Permutation_sym]; apply sortBy_perm.
Qed.

(** Stability: a class of elements that the comparator never puts in
    the wrong order keeps its sequence. *)
Lemma insertBy_filter (p : A -> bool) (x : A) (l : list A) :
  (p x = true -> forall y, In y l -> p y = true -> cmp x y <= 0) ->
  filter p (insertBy cmp x l) = filter p (x :: l).
Proof.
  induction l as [|y r IH]; intros Hx; simpl; [reflexivity|].
  destruct (cmp x y <=? 0) eqn:E; simpl; [reflexivity|].
  rewrite IH by (intros Hp z Hz; apply Hx; [exact Hp | now right]).
  simpl. destruct (p x) eqn:Px, (p y) eqn:Py; try reflexivity.
  exfalso. apply Z.leb_gt in E.
  specialize (Hx eq_refl y (or_introl eq_refl) Py). lia.
Qed.

Lemma sortBy_stable (p : A -> bool) (l : list A) :
  (forall x y, p x = true -> p y = true -> cmp x y <= 0) ->
  filter p (sortBy cmp l) = filter p l.
Proof.
  intros Hp. induction l as [|x r IH]; simpl; [reflexivity|].
  rewrite insertBy_filter by (intros Px y _ Py; now apply Hp).
  simpl. now rewrite IH.
Qed.

(** Sortedness, for a comparator that is total and transitive. *)
Hypothesis cmp_total : forall a b, 0 < cmp a b -> cmp b a <= 0.
Hypothesis cmp_trans : forall a b c, cmp a b <= 0 -> cmp b c <= 0 -> cmp a c <= 0.

Lemma insertBy_sorted (x : A) (l : list A) :
  StronglySorted (fun a b => cmp a b <= 0) l ->
  StronglySorted (fun a b => cmp a b <= 0) (insertBy cmp x l).
Proof.
  induction 1 as [|y r Hs IH Hy]; simpl.
  - repeat constructor.
  - destruct (cmp x y <=? 0) eqn:E.
    + apply Z.leb_le in E. constructor; [now constructor|].
      constructor; [exact E|].
      rewrite Forall_forall in *. intros z Hz. eapply cmp_trans; eauto.
    + apply Z.leb_gt in E. constructor; [exact IH|].
      rewrite Forall_forall in *. intros z Hz.
      apply (Permutation_in _ (insertBy_perm x r)) in Hz.
      destruct Hz as [<- | Hz]; [now apply cmp_total | now apply Hy].
Qed.

Lemma sortBy_sorted (l : list A) :
  StronglySorted (fun a b => cmp a b <= 0) (sortBy cmp l).
Proof.
  induction l as [|x r IH]; simpl; [constructor | now apply insertBy_sorted].
Qed.

End SortFacts.

(** *** Maps in insertion order *)

Section MapFacts.

Context {V : Type}.

Lemma mapGet_mapSet_same (k : str) (v : V) (mp : smap V) :
  mapGet k (mapSet k v mp) = Some v.
Proof.
  induction mp as [|[k' v'] r IH]; simpl.
  - now rewrite str_eqb_refl.
  - destruct (str_eqb k k') eqn:E; simpl; rewrite E; [reflexivity | exact IH].
Qed.

Lemma mapGet_mapSet_other (k k' : str) (v : V) (mp : smap V) :
  k <> k' -> mapGet k' (mapSet k v mp) = mapGet k' mp.
Proof.
  intros Hk. induction mp as [|[k0 v0] r IH]; simpl.
  - assert (str_eqb k' k = false) as -> by (apply str_eqb_neq; congruence).
    reflexivity.
  - destruct (str_eqb k k0) eqn:E; simpl.
    + apply str_eqb_eq in E. subst k0.
      assert (str_eqb k' k = false) as -> by (apply str_eqb_neq; congruence).
      reflexivity.
    + now rewrite IH.
Qed.

Lemma mapGet_In (k : str) (v : V) (mp : smap V) :
  mapGet k mp = Some v -> In (k, v) mp.
Proof.
  induction mp as [|[k' v'] r IH]; simpl; [discriminate|].
  destruct (str_eqb k k') eqn:E.
  - apply str_eqb_eq in E. intros [= ->]. left. congruence.
  - intros H. right. now apply IH.
Qed.

Lemma mapGet_None (k : str) (mp : smap V) :
  mapGet k mp = None <-> ~ In k (map fst mp).
Proof.
  induction mp as [|[k' v'] r IH]; simpl.
  - tauto.
  - destruct (str_eqb k k') eqn:E.
    + apply str_eqb_eq in E. subst. split; [discriminate | tauto].
    + apply str_eqb_neq in E. rewrite IH. split.
      * intros H [H1 | H1]; [congruence | contradiction].
      * tauto.
Qed.

Lemma In_mapGet (k : str) (v : V) (mp : smap V) :
  NoDup (map fst mp) -> In (k, v) mp -> mapGet k mp = Some v.
Proof.
  induction mp as [|[k' v'] r IH]; simpl; [tauto|].
  intros Hnd [H | H].
  - injection H as -> ->. now rewrite str_eqb_refl.
  - inversion Hnd as [|? ? Hnot Hnd']; subst.
    destruct (str_eqb k k') eqn:E.
    + apply str_eqb_eq in E. subst. exfalso. apply Hnot.
      change k' with (fst (k', v)). now apply in_map.
    + now apply IH.
Qed.

Lemma mapSet_keys (k : str) (v : V) (mp : smap V) :
  map fst (mapSet k v mp)
  = if mapHas k mp then map fst mp else map fst mp ++ [k].
Proof.
  unfold mapHas. induction mp as [|[k' v'] r IH]; simpl; [reflexivity|].
  destruct (str_eqb k k') eqn:E; simpl; [reflexivity|].
  rewrite IH. now destruct (mapGet k r).
Qed.

Lemma mapSet_keys_NoDup (k : str) (v : V) (mp : smap V) :
  NoDup (map fst mp) -> NoDup (map fst (mapSet k v mp)).
Proof.
  intros Hnd. rewrite mapSet_keys. unfold mapHas.
  destruct (mapGet k mp) eqn:E; [exact Hnd|].
  apply mapGet_None in E.
  apply (Permutation_NoDup (l := k :: map fst mp)).
  - apply Permutation_cons_append.
  - now constructor.
Qed.

(** A map given by its keys and a function of the key. *)
Lemma mapGet_tabulate_in (f : str -> V) (ks : list str) (k : str) :
  In k ks -> mapGet k (map (fun k' => (k', f k')) ks) = Some (f k).
Proof.
  induction ks as [|k0 r IH]; simpl; [tauto|].
  intros H. destruct (str_eqb k k0) eqn:E.
  - apply str_eqb_eq in E. now subst.
  - apply str_eqb_neq in E. destruct H as [H | H]; [congruence | now apply IH].
Qed.

Lemma mapGet_tabulate_out (f : str -> V) (ks : list str) (k : str) :
  ~ In k ks -> mapGet k (map (fun k' => (k', f k')) ks) = None.
Proof.
  intros H. apply mapGet_None. now rewrite map_map, map_id.
Qed.

Lemma mapSet_tabulate_in (f : str -> V) (ks : list str) (k : str) (v : V) :
  NoDup ks -> In k ks ->
  mapSet k v (map (fun k' => (k', f k')) ks)
  = map (fun k' => (k', if str_eqb k' k then v else f k')) ks.
Proof.
  induction ks as [|k0 r IH]; simpl; [tauto|].
  intros Hnd H. inversion Hnd as [|? ? Hnot Hnd']; subst.
  destruct (str_eqb k k0) eqn:E.
  - apply str_eqb_eq in E. subst k0. rewrite str_eqb_refl. f_equal.
    apply map_ext_in. intros k' Hk'.
    assert (str_eqb k' k = false) as -> by (apply str_eqb_neq; congruence).
    reflexivity.
  - rewrite str_eqb_sym, E. f_equal. apply IH; [exact Hnd'|].
    apply str_eqb_neq in E. destruct H; [congruence | assumption].
Qed.

Lemma mapSet_tabulate_out (f : str -> V) (ks : list str) (k : str) (v : V) :
  ~ In k ks ->
  mapSet k v (map (fun k' => (k', f k')) ks)
  = map (fun k' => (k', f k')) ks ++ [(k, v)].
Proof.
  induction ks as [|k0 r IH]; simpl; [reflexivity|].
  intros H. destruct (str_eqb k k0) eqn:E.
  - apply str_eqb_eq in E. subst. tauto.
  - f_equal. apply IH. tauto.
Qed.

Lemma mapSet_snoc_same (mp : smap V) (k : str) (v v' : V) :
  ~ In k (map fst mp) -> mapSet k v' (mp ++ [(k, v)]) = mp ++ [(k, v')].
Proof.
  induction mp as [|[k0 v0] r IH]; simpl.
  - now rewrite str_eqb_refl.
  - intros H. destruct (str_eqb k k0) eqn:E.
    + apply str_eqb_eq in E. subst. tauto.
    + f_equal. apply IH. tauto.
Qed.

Lemma mapGet_snoc_same (mp : smap V) (k : str) (v : V) :
  ~ In k (map fst mp) -> mapGet k (mp ++ [(k, v)]) = Some v.
Proof.
  induction mp as [|[k0 v0] r IH]; simpl.
  - now rewrite str_eqb_refl.
  - intros H. destruct (str_eqb k k0) eqn:E.
    + apply str_eqb_eq in E. subst. tauto.
    + apply IH. tauto.
Qed.

End MapFacts.

(** *** First occurrences *)

Lemma firstOccs_In (ks : list str) (k : str) : In k (firstOccs ks) <-> In k ks.
Proof.
  induction ks as [|k0 r IH]; simpl; [tauto|].
  rewrite filter_In, IH, negb_true_iff, str_eqb_neq.
  destruct (str_eq_dec k0 k); [tauto|]. split; [tauto|].
  intros [H | H]; [tauto|]. right. split; [assumption | congruence].
Qed.

Lemma firstOccs_NoDup (ks : list str) : NoDup (firstOccs ks).
Proof.
  induction ks as [|k0 r IH]; simpl; constructor.
  - rewrite filter_In, negb_true_iff, str_eqb_neq. tauto.
  - now apply NoDup_filter.
Qed.

Lemma firstOccs_snoc (ks : list str) (k : str) :
  firstOccs (ks ++ [k])
  = if existsb (str_eqb k) ks then firstOccs ks else firstOccs ks ++ [k].
Proof.
  induction ks as [|k0 r IH]; simpl; [reflexivity|].
  rewrite IH. destruct (str_eqb k k0) eqn:E; simpl.
  - apply str_eqb_eq in E. subst k0.
    destruct (existsb (str_eqb k) r); [reflexivity|].
    rewrite filter_app. simpl. rewrite str_eqb_refl. simpl.
    now rewrite app_nil_r.
  - destruct (existsb (str_eqb k) r); [reflexivity|].
    rewrite filter_app. simpl. rewrite E. reflexivity.
Qed.

Lemma existsb_str_In (ks : list str) (k : str) :
  existsb (str_eqb k) ks = true <-> In k ks.
Proof.
  rewrite existsb_exists. split.
  - intros [x [Hx E]]. apply str_eqb_eq in E. now subst.
  - intros H. exists k. split; [assumption | apply str_eqb_refl].
Qed.

(** *** The aggregation loop computes [itemOf] for each key *)

Lemma sumZ_app (l1 l2 : list Z) : sumZ (l1 ++ l2) = sumZ l1 + sumZ l2.
Proof. induction l1; simpl; lia. Qed.

Lemma sumZ_perm (l1 l2 : list Z) : Permutation l1 l2 -> sumZ l1 = sumZ l2.
Proof. induction 1; simpl; lia. Qed.

Lemma hasKey_filter_nil (k : str) (l : list Page.GranularEntry) :
  ~ In k (map Page.keyOf l) -> filter (hasKey k) l = [].
Proof.
  induction l as [|e r IH]; simpl; [reflexivity|].
  intros H. unfold hasKey at 1.
  assert (str_eqb (Page.keyOf e) k = false) as -> by (apply str_eqb_neq; tauto).
  apply IH. tauto.
Qed.

Lemma hasKey_filter_cons (k : str) (l : list Page.GranularEntry) :
  In k (map Page.keyOf l) -> exists e r, filter (hasKey k) l = e :: r.
Proof.
  induction l as [|e r IH]; simpl; [tauto|].
  intros H. unfold hasKey at 1. destruct (str_eqb (Page.keyOf e) k) eqn:E.
  - eauto.
  - apply str_eqb_neq in E. apply IH. tauto.
Qed.

Lemma hasKey_filter_snoc_other (k : str) (l : list Page.GranularEntry)
    (e : Page.GranularEntry) :
  Page.keyOf e <> k -> filter (hasKey k) (l ++ [e]) = filter (hasKey k) l.
Proof.
  intros H. rewrite filter_app. simpl.
  assert (hasKey k e = false) as -> by (unfold hasKey; now apply str_eqb_neq).
  apply app_nil_r.
Qed.

Lemma hasKey_filter_snoc_same (l : list Page.GranularEntry) (e : Page.GranularEntry) :
  filter (hasKey (Page.keyOf e)) (l ++ [e]) = filter (hasKey (Page.keyOf e)) l ++ [e].
Proof.
  rewrite filter_app. simpl.
  assert (hasKey (Page.keyOf e) e = true) as -> by (unfold hasKey; apply str_eqb_refl).
  reflexivity.
Qed.

Lemma itemOf_snoc_other (k : str) (l : list Page.GranularEntry) (e : Page.GranularEntry) :
  Page.keyOf e <> k -> itemOf k (l ++ [e]) = itemOf k l.
Proof.
  intros H. unfold itemOf. now rewrite hasKey_filter_snoc_other.
Qed.

Lemma itemOf_snoc_seen (l : list Page.GranularEntry) (e : Page.GranularEntry) :
  In (Page.keyOf e) (map Page.keyOf l) ->
  itemOf (Page.keyOf e) (l ++ [e])
  = let item := itemOf (Page.keyOf e) l in
    {| Page.Agg.m := Page.Agg.m item;
       Page.Agg.sd := Page.Agg.sd item;
       Page.Agg.c := Page.Agg.c item;
       Page.Agg.years := setAdd (Page.ey e) (Page.Agg.years item);
       Page.Agg.count := Page.Agg.count item + Page.cnt e |}.
Proof.
  intros Hin. destruct (hasKey_filter_cons _ l Hin) as [e0 [r0 Hf]].
  unfold itemOf. rewrite hasKey_filter_snoc_same, Hf. simpl.
  rewrite !map_app. simpl. f_equal.
  - unfold yearSet. simpl. rewrite fold_left_app. reflexivity.
  - rewrite sumZ_app. simpl. lia.
Qed.

Lemma itemOf_snoc_fresh (l : list Page.GranularEntry) (e : Page.GranularEntry) :
  ~ In (Page.keyOf e) (map Page.keyOf l) ->
  itemOf (Page.keyOf e) (l ++ [e])
  = {| Page.Agg.m := Page.m e;
       Page.Agg.sd := Page.sd e;
       Page.Agg.c := Page.c e;
       Page.Agg.years := setAdd (Page.ey e) [];
       Page.Agg.count := 0 + Page.cnt e |}.
Proof.
  intros Hnot. unfold itemOf.
  rewrite hasKey_filter_snoc_same, (hasKey_filter_nil _ l Hnot). simpl.
  f_equal. lia.
Qed.

Theorem buildAggMap_spec (l : list Page.GranularEntry) :
  Page.buildAggMap l
  = map (fun k => (k, itemOf k l)) (firstOccs (map Page.keyOf l)).
Proof.
  induction l as [|e l IH] using rev_ind; [reflexivity|].
  unfold Page.buildAggMap in *. rewrite fold_left_app. simpl. rewrite IH.
  rewrite map_app. simpl. rewrite firstOccs_snoc.
  set (ks := firstOccs (map Page.keyOf l)).
  unfold Page.aggStep, mapHas.
  destruct (existsb (str_eqb (Page.keyOf e)) (map Page.keyOf l)) eqn:Hin.
  - apply existsb_str_In in Hin.
    assert (Hks : In (Page.keyOf e) ks) by now apply firstOccs_In.
    rewrite (mapGet_tabulate_in _ _ _ Hks). simpl.
    rewrite (mapGet_tabulate_in _ _ _ Hks).
    rewrite mapSet_tabulate_in by (try apply firstOccs_NoDup; assumption).
    apply map_ext_in. intros k' _. f_equal.
    destruct (str_eqb k' (Page.keyOf e)) eqn:E.
    + apply str_eqb_eq in E. subst k'. now rewrite itemOf_snoc_seen.
    + symmetry. apply itemOf_snoc_other. apply str_eqb_neq in E. congruence.
  - assert (Hnot : ~ In (Page.keyOf e) (map Page.keyOf l)).
    { intros H. apply existsb_str_In in H. congruence. }
    assert (Hks : ~ In (Page.keyOf e) ks) by (unfold ks; now rewrite firstOccs_In).
    rewrite (mapGet_tabulate_out _ _ _ Hks). simpl.
    rewrite mapSet_tabulate_out by assumption.
    assert (Hfst : ~ In (Page.keyOf e)
                     (map fst (map (fun k' => (k', itemOf k' l)) ks))).
    { now rewrite map_map, map_id. }
    rewrite mapGet_snoc_same by assumption.
    rewrite mapSet_snoc_same by assumption.
    rewrite map_app. simpl. f_equal.
    + apply map_ext_in. intros k' Hk'. f_equal. symmetry.
      apply itemOf_snoc_other. intros E. subst k'. contradiction.
    + now rewrite itemOf_snoc_fresh.
Qed.

(** *** Conservation of the counts *)

Lemma mapSet_weight {V : Type} (w : V -> Z) (k : str) (v : V) (mp : smap V) :
  sumZ (map (fun p => w (snd p)) (mapSet k v mp))
  = sumZ (map (fun p => w (snd p)) mp) + w v
    - match mapGet k mp with Some v0 => w v0 | None => 0 end.
Proof.
  induction mp as [|[k0 v0] r IH]; simpl; [lia|].
  destruct (str_eqb k k0); simpl; [lia|]. rewrite IH. lia.
Qed.

Lemma aggStep_count (mp : smap Page.Agg.item) (e : Page.GranularEntry) :
  sumZ (map (fun p => Page.Agg.count (snd p)) (Page.aggStep mp e))
  = sumZ (map (fun p => Page.Agg.count (snd p)) mp) + Page.cnt e.
Proof.
  unfold Page.aggStep, mapHas.
  destruct (mapGet (Page.keyOf e) mp) as [item|] eqn:E; simpl.
  - rewrite E, mapSet_weight, E. simpl. lia.
  - rewrite mapGet_mapSet_same, !mapSet_weight, mapGet_mapSet_same, E. simpl. lia.
Qed.

Lemma fold_aggStep_count (l : list Page.GranularEntry) (mp : smap Page.Agg.item) :
  sumZ (map (fun p => Page.Agg.count (snd p)) (fold_left Page.aggStep l mp))
  = sumZ (map (fun p => Page.Agg.count (snd p)) mp) + sumZ (map Page.cnt l).
Proof.
  revert mp. induction l as [|e r IH]; intros mp; simpl; [lia|].
  rewrite IH, aggStep_count. lia.
Qed.

Lemma aggregated_count (raw : list Page.GranularEntry) (types : list str) (promos : list Z) :
  sumZ (map Page.question_count (Page.aggregated raw types promos))
  = sumZ (map Page.cnt (filter (Page.keeps types promos) raw)).
Proof.
  unfold Page.aggregated, Page.buildAggMap.
  rewrite !map_map. simpl.
  rewrite (fold_aggStep_count _ []). simpl. reflexivity.
Qed.

Lemma keeps_iff (types : list str) (promos : list Z) (e : Page.GranularEntry) :
  Page.keeps types promos e = true
  <-> (types = [] \/ In (Page.et e) types) /\ (promos = [] \/ In (Page.ey e) promos).
Proof.
  unfold Page.keeps, includes, len.
  rewrite andb_true_iff, !orb_true_iff, !Z.eqb_eq, existsb_str_In.
  assert (Hy : existsb (Z.eqb (Page.ey e)) promos = true <-> In (Page.ey e) promos).
  { rewrite existsb_exists. split.
    - intros [y [Hy E]]. apply Z.eqb_eq in E. now subst.
    - intros H. exists (Page.ey e). split; [assumption | apply Z.eqb_refl]. }
  rewrite Hy.
  assert (Hn : forall (A : Type) (l : list A), Z.of_nat (List.length l) = 0 <-> l = []).
  { intros A [|x l]; simpl; split; intros H; try reflexivity; try discriminate; lia. }
  rewrite !Hn. tauto.
Qed.

(** C1. Conservation: whatever the records and the selection, the
    question counts of the aggregated entries add up to the counts of
    the records kept by the filter; a record is kept exactly when the
    selected exam types are empty or contain its type, and the selected
    years are empty or contain its year. *)
Theorem conservation_of_counts :
  forall (localeCompare : str -> str -> Z)
         (rawEntries : list Page.GranularEntry)
         (selectedExamTypes : list str) (selectedPromos : list Z),
    sumZ (map Page.question_count
            (Page.filteredData localeCompare rawEntries selectedExamTypes selectedPromos))
    = sumZ (map Page.cnt
              (filter (Page.keeps selectedExamTypes selectedPromos) rawEntries))
    /\ (forall e,
          Page.keeps selectedExamTypes selectedPromos e = true
          <-> (selectedExamTypes = [] \/ In (Page.et e) selectedExamTypes)
              /\ (selectedPromos = [] \/ In (Page.ey e) selectedPromos)).
Proof.
  intros lc raw types promos. split; [|apply keeps_iff].
  unfold Page.filteredData. destruct raw as [|e r]; [reflexivity|].
  assert ((len (e :: r) =? 0) = false) as -> by (apply Z.eqb_neq; unfold len; simpl; lia).
  rewrite <- aggregated_count.
  apply sumZ_perm, Permutation_map, sortBy_perm.
Qed.

(** *** What each aggregated entry holds *)

Lemma aggregated_spec (raw : list Page.GranularEntry) (types : list str) (promos : list Z) :
  Page.aggregated raw types promos
  = let filtered := filter (Page.keeps types promos) raw in
    map (fun k => Page.toCoursEntry (itemOf k filtered))
      (firstOccs (map Page.keyOf filtered)).
Proof.
  unfold Page.aggregated. rewrite buildAggMap_spec, !map_map. reflexivity.
Qed.

Lemma filteredData_In (lc : str -> str -> Z) (raw : list Page.GranularEntry)
    (types : list str) (promos : list Z) (d : Page.CoursEntry) :
  In d (Page.filteredData lc raw types promos)
  <-> In d (Page.aggregated raw types promos).
Proof.
  unfold Page.filteredData. destruct raw as [|e r].
  - simpl. tauto.
  - assert ((len (e :: r) =? 0) = false) as ->
      by (apply Z.eqb_neq; unfold len; simpl; lia).
    apply sortBy_In.
Qed.

Lemma setAdd_In (x y : Z) (s : list Z) : In y (setAdd x s) <-> y = x \/ In y s.
Proof.
  unfold setAdd. destruct (existsb (Z.eqb x) s) eqn:E.
  - apply existsb_exists in E as [z [Hz Ez]]. apply Z.eqb_eq in Ez. subst z.
    split; [tauto | intros [-> | H]; assumption].
  - rewrite in_app_iff. simpl. intuition congruence.
Qed.

Lemma setAdd_NoDup (x : Z) (s : list Z) : NoDup s -> NoDup (setAdd x s).
Proof.
  intros Hs. unfold setAdd. destruct (existsb (Z.eqb x) s) eqn:E; [exact Hs|].
  apply (Permutation_NoDup (l := x :: s)); [apply Permutation_cons_append|].
  constructor; [|exact Hs]. intros Hin.
  assert (existsb (Z.eqb x) s = true); [|congruence].
  apply existsb_exists. exists x. split; [assumption | apply Z.eqb_refl].
Qed.

Lemma yearSet_In (ys : list Z) (y : Z) : In y (yearSet ys) <-> In y ys.
Proof.
  unfold yearSet. induction ys as [|x r IH] using rev_ind; [simpl; tauto|].
  rewrite fold_left_app. simpl. rewrite setAdd_In, IH, in_app_iff. simpl.
  intuition congruence.
Qed.

Lemma yearSet_NoDup (ys : list Z) : NoDup (yearSet ys).
Proof.
  unfold yearSet. induction ys as [|x r IH] using rev_ind; [constructor|].
  rewrite fold_left_app. simpl. now apply setAdd_NoDup.
Qed.

(** Every entry of the output stands for one composite key of the kept
    records: it carries the names of the first record with that key,
    the sum of the counts and the sorted distinct years of all records
    with that key. *)
Theorem aggregation_per_key :
  forall (lc : str -> str -> Z) (raw : list Page.GranularEntry)
         (types : list str) (promos : list Z) (d : Page.CoursEntry),
    let filtered := filter (Page.keeps types promos) raw in
    In d (Page.filteredData lc raw types promos) ->
    exists (k : str) (first : Page.GranularEntry) (rest : list Page.GranularEntry),
      filter (hasKey k) filtered = first :: rest
      /\ Page.module_name d = Page.m first
      /\ Page.sub_discipline d = Page.sd first
      /\ Page.cours_topic d = Page.c first
      /\ Page.question_count d = sumZ (map Page.cnt (first :: rest))
      /\ Page.exam_years_list d
         = sortBy (fun a b => a - b) (yearSet (map Page.ey (first :: rest)))
      /\ Page.years_appeared d = len (yearSet (map Page.ey (first :: rest))).
Proof.
  intros lc raw types promos d filtered Hd.
  apply filteredData_In in Hd. rewrite aggregated_spec in Hd.
  fold filtered in Hd. simpl in Hd.
  apply in_map_iff in Hd as [k [<- Hk]].
  rewrite firstOccs_In in Hk.
  destruct (hasKey_filter_cons k filtered Hk) as [first [rest Hf]].
  exists k, first, rest. unfold itemOf. rewrite Hf. simpl. tauto.
Qed.

Lemma hasKey_triple (k : str) (r1 r2 : Page.GranularEntry) :
  Page.m r1 = Page.m r2 -> Page.sd r1 = Page.sd r2 -> Page.c r1 = Page.c r2 ->
  hasKey k r1 = hasKey k r2.
Proof. unfold hasKey, Page.keyOf. now intros -> -> ->. Qed.

(** When the composite key determines the triple among the kept
    records, the entry of a triple sums exactly the records of that
    triple and lists exactly their years. *)
Theorem aggregation_per_triple :
  forall (lc : str -> str -> Z) (raw : list Page.GranularEntry)
         (types : list str) (promos : list Z) (d : Page.CoursEntry),
    let filtered := filter (Page.keeps types promos) raw in
    (forall r1 r2, In r1 filtered -> In r2 filtered ->
       Page.keyOf r1 = Page.keyOf r2 ->
       Page.m r1 = Page.m r2 /\ Page.sd r1 = Page.sd r2 /\ Page.c r1 = Page.c r2) ->
    In d (Page.filteredData lc raw types promos) ->
    Page.question_count d = sumZ (map Page.cnt (filter (hasTriple d) filtered))
    /\ (forall y, In y (Page.exam_years_list d)
                  <-> In y (map Page.ey (filter (hasTriple d) filtered)))
    /\ NoDup (Page.exam_years_list d).
Proof.
  intros lc raw types promos d filtered Hinj Hd.
  destruct (aggregation_per_key lc raw types promos d Hd)
    as [k [first [rest [Hf [Hm [Hsd [Hc [Hq [Hy _]]]]]]]]].
  fold filtered in Hf.
  assert (Hfirst : In first filtered /\ hasKey k first = true).
  { apply filter_In. rewrite Hf. now left. }
  destruct Hfirst as [Hin1 Hk1].
  assert (Hext : filter (hasTriple d) filtered = filter (hasKey k) filtered).
  { apply filter_ext_in. intros r Hr. unfold hasTriple.
    rewrite Hm, Hsd, Hc.
    destruct (hasKey k r) eqn:Hkr.
    - unfold hasKey in Hkr, Hk1. apply str_eqb_eq in Hkr, Hk1.
      destruct (Hinj r first Hr Hin1) as [E1 [E2 E3]]; [congruence|].
      rewrite E1, E2, E3, !str_eqb_refl. reflexivity.
    - destruct (str_eqb (Page.m r) (Page.m first)) eqn:E1; [|reflexivity].
      destruct (str_eqb (Page.sd r) (Page.sd first)) eqn:E2; [|reflexivity].
      destruct (str_eqb (Page.c r) (Page.c first)) eqn:E3; [|reflexivity].
      apply str_eqb_eq in E1, E2, E3.
      rewrite (hasKey_triple k r first E1 E2 E3) in Hkr. congruence. }
  rewrite Hext, Hf. split; [exact Hq|]. rewrite Hy. split.
  - intros y. now rewrite sortBy_In, yearSet_In.
  - apply (Permutation_NoDup (l := yearSet (map Page.ey (first :: rest)))).
    + apply Permutation_sym, sortBy_perm.
    + apply yearSet_NoDup.
Qed.

(** C2. The entry of a triple should sum the records of that triple
    only. On the two records [collidingA] and [collidingB], whose
    triples differ but whose composite keys are equal, the aggregation
    returns a single entry under the triple of the first record, with
    the counts and the years of both; the records of that triple alone
    have count 1 and year 2021. *)
Theorem colliding_keys_are_merged :
  forall localeCompare : str -> str -> Z,
    let merged :=
      {| Page.module_name := lit "Cardio|||Anatomie";
         Page.sub_discipline := lit "Coeur";
         Page.cours_topic := lit "Valves";
         Page.question_count := 3;
         Page.years_appeared := 2;
         Page.exam_years_list := [2021; 2022] |} in
    Page.filteredData localeCompare [collidingA; collidingB] [] [] = [merged]
    /\ sumZ (map Page.cnt (filter (hasTriple merged) [collidingA; collidingB])) = 1
    /\ map Page.ey (filter (hasTriple merged) [collidingA; collidingB]) = [2021].
Proof.
  intros lc. repeat split; reflexivity.
Qed.

(** *** Lists: filters and splittings *)

Lemma filter_both {A : Type} (p q : A -> bool) (l : list A) :
  filter p (filter q l) = filter (fun x => q x && p x) l.
Proof.
  induction l as [|x r IH]; simpl; [reflexivity|].
  destruct (q x); simpl; [destruct (p x)|]; now rewrite IH.
Qed.

Lemma StronglySorted_filter {A : Type} (R : A -> A -> Prop) (p : A -> bool) (l : list A) :
  StronglySorted R l -> StronglySorted R (filter p l).
Proof.
  induction 1 as [|x r Hs IH Hx]; simpl; [constructor|].
  destruct (p x); [|exact IH]. constructor; [exact IH|].
  rewrite Forall_forall in *. intros y Hy. apply filter_In in Hy. now apply Hx.
Qed.

Lemma StronglySorted_map {A B : Type} (R : B -> B -> Prop) (f : A -> B) (l : list A) :
  StronglySorted (fun a b => R (f a) (f b)) l -> StronglySorted R (map f l).
Proof.
  induction 1 as [|x r Hs IH Hx]; simpl; constructor; [exact IH|].
  rewrite Forall_forall in *. intros y Hy.
  apply in_map_iff in Hy as [z [<- Hz]]. now apply Hx.
Qed.

Lemma StronglySorted_weaken {A : Type} (R S : A -> A -> Prop) (l : list A) :
  (forall a b, In a l -> In b l -> R a b -> S a b) ->
  StronglySorted R l -> StronglySorted S l.
Proof.
  intros HRS Hs. induction Hs as [|x r Hs IH Hx]; constructor.
  - apply IH. intros a b Ha Hb. apply HRS; now right.
  - rewrite Forall_forall in *. intros y Hy.
    apply HRS; [now left | now right | now apply Hx].
Qed.

Lemma StronglySorted_split {A : Type} (R : A -> A -> Prop) (l1 l2 l3 : list A) (a b : A) :
  StronglySorted R (l1 ++ a :: l2 ++ b :: l3) -> R a b.
Proof.
  induction l1 as [|x l1 IH]; simpl; intros Hs.
  - apply StronglySorted_inv in Hs as [_ Hall].
    rewrite Forall_forall in Hall. apply Hall.
    apply in_or_app. right. now left.
  - apply StronglySorted_inv in Hs as [Hs _]. now apply IH.
Qed.

Lemma filter_split_cons {A : Type} (p : A -> bool) (l : list A) (x : A) (v : list A) :
  filter p l = x :: v ->
  exists l1 l2, l = l1 ++ x :: l2 /\ filter p l1 = [] /\ filter p l2 = v /\ p x = true.
Proof.
  induction l as [|y r IH]; simpl; [discriminate|].
  destruct (p y) eqn:Py.
  - intros [= -> <-]. exists [], r. simpl. auto.
  - intros H. destruct (IH H) as [l1 [l2 [-> [H1 [H2 Hx]]]]].
    exists (y :: l1), l2. simpl. rewrite Py. auto.
Qed.

Lemma filter_split_app {A : Type} (p : A -> bool) (l u v : list A) :
  filter p l = u ++ v ->
  exists l1 l2, l = l1 ++ l2 /\ filter p l1 = u /\ filter p l2 = v.
Proof.
  revert l. induction u as [|x u IH]; simpl; intros l H.
  - exists [], l. auto.
  - apply filter_split_cons in H as [l1 [l2 [-> [H1 [H2 Hx]]]]].
    destruct (IH l2 H2) as [m1 [m2 [-> [Hm1 Hm2]]]].
    exists (l1 ++ x :: m1), m2. rewrite <- app_assoc. simpl.
    split; [reflexivity|]. split; [|exact Hm2].
    rewrite filter_app. simpl. now rewrite H1, Hx, Hm1.
Qed.

(** Two elements that follow each other in a filtered list follow each
    other in the list. *)
Lemma filter_split_two {A : Type} (p : A -> bool) (l f1 f2 f3 : list A) (a b : A) :
  filter p l = f1 ++ a :: f2 ++ b :: f3 ->
  exists l1 l2 l3, l = l1 ++ a :: l2 ++ b :: l3.
Proof.
  intros H.
  apply filter_split_app in H as [l1 [l2 [-> [_ H]]]].
  apply filter_split_cons in H as [m1 [m2 [-> [_ [H _]]]]].
  apply filter_split_app in H as [n1 [n2 [-> [_ H]]]].
  apply filter_split_cons in H as [o1 [o2 [-> _]]].
  exists (l1 ++ m1), (n1 ++ o1), o2. now rewrite <- !app_assoc.
Qed.

Lemma map_split_two {A B : Type} (f : A -> B) (l : list A) (m1 m2 m3 : list B) (a b : B) :
  map f l = m1 ++ a :: m2 ++ b :: m3 ->
  exists l1 x l2 y l3,
    l = l1 ++ x :: l2 ++ y :: l3 /\ f x = a /\ f y = b.
Proof.
  intros H.
  apply map_eq_app in H as [l1 [r1 [-> [_ H]]]].
  apply map_eq_cons in H as [x [r2 [-> [Hx H]]]].
  apply map_eq_app in H as [l2 [r3 [-> [_ H]]]].
  apply map_eq_cons in H as [y [l3 [-> [Hy _]]]].
  now exists l1, x, l2, y, l3.
Qed.

(** *** The order of first occurrences *)

Lemma firstOccs_prefix (ks : list str) :
  forall (K1 : list str) (ka : str) (R : list str),
    firstOccs ks = K1 ++ ka :: R ->
    exists P1 P2, ks = P1 ++ ka :: P2 /\ (forall k, In k P1 -> In k K1).
Proof.
  induction ks as [|k0 r IH]; intros K1 ka R H; simpl in H.
  - destruct K1; discriminate.
  - destruct K1 as [|k1 K1]; simpl in H.
    + injection H as -> _. exists [], r. simpl. tauto.
    + injection H as -> H.
      apply filter_split_app in H as [X1 [X2 [HX [HX1 H]]]].
      apply filter_split_cons in H as [Y1 [Y2 [-> [HY1 _]]]].
      rewrite app_assoc in HX.
      destruct (IH _ _ _ HX) as [P1 [P2 [-> HP]]].
      exists (k1 :: P1), P2. split; [reflexivity|].
      intros k [<- | Hk]; [now left|].
      destruct (str_eq_dec k k1) as [-> | Hne]; [now left|]. right.
      assert (Hf : In k (filter (fun k' => negb (str_eqb k' k1)) (X1 ++ Y1))).
      { apply filter_In. split; [now apply HP|].
        apply negb_true_iff, str_eqb_neq. exact Hne. }
      rewrite filter_app, HX1, HY1, app_nil_r in Hf. exact Hf.
Qed.

Lemma NoDup_split_two {A : Type} (l1 l2 l3 : list A) (a b : A) :
  NoDup (l1 ++ a :: l2 ++ b :: l3) -> a <> b /\ ~ In b l1.
Proof.
  induction l1 as [|x l1 IH]; simpl; intros H.
  - split; [|tauto]. inversion H as [|? ? Hnot _]; subst.
    intros ->. apply Hnot. apply in_or_app. right. now left.
  - inversion H as [|? ? Hnot Hnd]; subst.
    destruct (IH Hnd) as [Hab Hb]. split; [exact Hab|].
    intros [-> | Hin]; [|contradiction].
    apply Hnot. apply in_or_app. right. right. apply in_or_app. right. now left.
Qed.

(** *** The comparator of [filteredData] *)

Section CoursOrder.

Variable lc : str -> str -> Z.
Hypothesis lc_ok : Collation lc.
Hypothesis lc_strict : strictCollation lc.

Lemma lc_refl (a : str) : lc a a = 0.
Proof.
  destruct (Z.lt_trichotomy (lc a a) 0) as [H | [H | H]]; [|exact H|].
  - pose proof (proj1 (collation_sym lc lc_ok a a) H). lia.
  - pose proof (proj2 (collation_sym lc lc_ok a a) H). lia.
Qed.

Lemma lc_neq (a b : str) : a <> b -> lc a b <> 0.
Proof. intros H E. apply H. now apply lc_strict. Qed.

Lemma lc_lt_trans (a b c : str) : lc a b < 0 -> lc b c < 0 -> lc a c < 0.
Proof.
  intros H1 H2.
  pose proof (collation_trans lc lc_ok a b c ltac:(lia) ltac:(lia)) as Hle.
  destruct (Z.eq_dec (lc a c) 0) as [E | E]; [|lia].
  apply lc_strict in E. subst c.
  apply (collation_sym lc lc_ok) in H1. lia.
Qed.

Lemma cmpCours_le (a b : Page.CoursEntry) :
  Page.cmpCours lc a b <= 0 <-> coursLe lc a b.
Proof.
  unfold Page.cmpCours, coursLe.
  destruct (str_eqb (Page.module_name a) (Page.module_name b)) eqn:Em; simpl.
  - apply str_eqb_eq in Em.
    destruct (str_eqb (Page.sub_discipline a) (Page.sub_discipline b)) eqn:Es; simpl.
    + apply str_eqb_eq in Es. rewrite Em, Es, !lc_refl. split; [intros H | intros H].
      * right. split; [reflexivity|]. right. split; [reflexivity | lia].
      * destruct H as [H | [_ [H | [_ H]]]]; lia.
    + apply str_eqb_neq in Es. pose proof (lc_neq _ _ Es). rewrite Em, lc_refl.
      split; [intros H1; right; split; [reflexivity | left; lia]|].
      intros [H1 | [_ [H1 | [H1 _]]]]; [lia | lia | contradiction].
  - apply str_eqb_neq in Em. pose proof (lc_neq _ _ Em).
    split; [intros H1; left; lia|].
    intros [H1 | [H1 _]]; [lia | contradiction].
Qed.

Lemma coursLe_total (a b : Page.CoursEntry) : ~ coursLe lc a b -> coursLe lc b a.
Proof.
  unfold coursLe. intros H.
  destruct (str_eq_dec (Page.module_name a) (Page.module_name b)) as [Em | Em].
  - destruct (str_eq_dec (Page.sub_discipline a) (Page.sub_discipline b)) as [Es | Es].
    + right. split; [congruence|]. right. split; [congruence|].
      destruct (Z_le_gt_dec (Page.question_count b) (Page.question_count a)); [|lia].
      exfalso. apply H. right. split; [exact Em|]. right. now split.
    + right. split; [congruence|]. left.
      pose proof (lc_neq _ _ Es).
      destruct (Z_lt_le_dec (lc (Page.sub_discipline a) (Page.sub_discipline b)) 0).
      * exfalso. apply H. right. split; [exact Em | now left].
      * apply (collation_sym lc lc_ok). lia.
  - left. pose proof (lc_neq _ _ Em).
    destruct (Z_lt_le_dec (lc (Page.module_name a) (Page.module_name b)) 0).
    + exfalso. apply H. now left.
    + apply (collation_sym lc lc_ok). lia.
Qed.

Lemma coursLe_trans (a b c : Page.CoursEntry) :
  coursLe lc a b -> coursLe lc b c -> coursLe lc a c.
Proof.
  pose proof lc_lt_trans as T.
  unfold coursLe.
  intros [H1 | [E1 [H1 | [F1 H1]]]] [H2 | [E2 [H2 | [F2 H2]]]];
    try rewrite E1 in *; try rewrite <- E2 in *;
    try rewrite F1 in *; try rewrite <- F2 in *; eauto 6.
  - right. split; [reflexivity|]. right. split; [reflexivity | lia].
Qed.

Lemma cmpCours_total (a b : Page.CoursEntry) :
  0 < Page.cmpCours lc a b -> Page.cmpCours lc b a <= 0.
Proof.
  intros H. apply cmpCours_le. apply coursLe_total.
  rewrite <- cmpCours_le. lia.
Qed.

Lemma cmpCours_trans (a b c : Page.CoursEntry) :
  Page.cmpCours lc a b <= 0 -> Page.cmpCours lc b c <= 0 ->
  Page.cmpCours lc a c <= 0.
Proof. rewrite !cmpCours_le. apply coursLe_trans. Qed.

Lemma filteredData_sorted (raw : list Page.GranularEntry) (types : list str)
    (promos : list Z) :
  StronglySorted (coursLe lc) (Page.filteredData lc raw types promos).
Proof.
  unfold Page.filteredData. destruct (len raw =? 0); [constructor|].
  eapply StronglySorted_weaken;
    [|apply sortBy_sorted; [apply cmpCours_total | apply cmpCours_trans]].
  intros a b _ _. apply cmpCours_le.
Qed.

End CoursOrder.

(** Entries of one rank keep the sequence they have in the
    aggregation; this needs nothing of the collation, which is never
    asked about equal names. *)

Lemma cmpCours_sameRank (lc : str -> str -> Z) (a x y : Page.CoursEntry) :
  sameRank a x = true -> sameRank a y = true -> Page.cmpCours lc x y <= 0.
Proof.
  unfold sameRank, Page.cmpCours. rewrite !andb_true_iff, !Z.eqb_eq, !str_eqb_eq.
  intros [[-> ->] ->] [[-> ->] ->]. rewrite !str_eqb_refl. simpl. lia.
Qed.

Lemma filteredData_stable (lc : str -> str -> Z) (raw : list Page.GranularEntry)
    (types : list str) (promos : list Z) (p : Page.CoursEntry -> bool) :
  (forall x y, p x = true -> p y = true -> Page.cmpCours lc x y <= 0) ->
  filter p (Page.filteredData lc raw types promos)
  = filter p (Page.aggregated raw types promos).
Proof.
  intros Hp. unfold Page.filteredData. destruct raw as [|e r]; [reflexivity|].
  assert ((len (e :: r) =? 0) = false) as ->
    by (apply Z.eqb_neq; unfold len; simpl; lia).
  now apply sortBy_stable.
Qed.

(** *** Ties follow the first occurrences in the record stream *)

Lemma hasTriple_key (d : Page.CoursEntry) (r0 r : Page.GranularEntry) :
  Page.module_name d = Page.m r0 -> Page.sub_discipline d = Page.sd r0 ->
  Page.cours_topic d = Page.c r0 ->
  hasTriple d r = true -> Page.keyOf r = Page.keyOf r0.
Proof.
  unfold hasTriple, Page.keyOf. intros -> -> ->.
  rewrite !andb_true_iff, !str_eqb_eq. now intros [[-> ->] ->].
Qed.

Lemma hasTriple_first (d : Page.CoursEntry) (r0 : Page.GranularEntry) :
  Page.module_name d = Page.m r0 -> Page.sub_discipline d = Page.sd r0 ->
  Page.cours_topic d = Page.c r0 -> hasTriple d r0 = true.
Proof.
  unfold hasTriple. intros -> -> ->. now rewrite !str_eqb_refl.
Qed.

Lemma entry_names (k : str) (l : list Page.GranularEntry)
    (r0 : Page.GranularEntry) (rest : list Page.GranularEntry) :
  filter (hasKey k) l = r0 :: rest ->
  let d := Page.toCoursEntry (itemOf k l) in
  Page.module_name d = Page.m r0 /\ Page.sub_discipline d = Page.sd r0
  /\ Page.cours_topic d = Page.c r0 /\ Page.keyOf r0 = k /\ In r0 l.
Proof.
  intros Hf. simpl. unfold itemOf. rewrite Hf. simpl.
  assert (H : In r0 (filter (hasKey k) l)) by (rewrite Hf; now left).
  apply filter_In in H as [Hin Hk]. unfold hasKey in Hk. apply str_eqb_eq in Hk.
  auto.
Qed.

Theorem ties_follow_first_occurrence :
  forall (lc : str -> str -> Z) (raw : list Page.GranularEntry)
         (types : list str) (promos : list Z)
         (l1 l2 l3 : list Page.CoursEntry) (a b : Page.CoursEntry),
    let filtered := filter (Page.keeps types promos) raw in
    Page.filteredData lc raw types promos = l1 ++ a :: l2 ++ b :: l3 ->
    sameRank a b = true ->
    exists (P1 : list Page.GranularEntry) (r : Page.GranularEntry)
           (P2 : list Page.GranularEntry),
      filtered = P1 ++ r :: P2
      /\ hasTriple a r = true /\ hasTriple b r = false
      /\ (forall r', In r' P1 -> hasTriple a r' = false /\ hasTriple b r' = false)
      /\ (exists r', In r' P2 /\ hasTriple b r' = true).
Proof.
  intros lc raw types promos l1 l2 l3 a b filtered Hfd Hab.
  assert (Haa : sameRank a a = true).
  { unfold sameRank. now rewrite !str_eqb_refl, Z.eqb_refl. }
  pose proof (filteredData_stable lc raw types promos (sameRank a)
                (cmpCours_sameRank lc a)) as Hst.
  rewrite Hfd in Hst. rewrite !filter_app in Hst. simpl in Hst.
  rewrite filter_app in Hst. simpl in Hst. rewrite Haa, Hab in Hst.
  symmetry in Hst. apply filter_split_two in Hst as [M1 [M2 [M3 Hagg]]].
  rewrite aggregated_spec in Hagg. fold filtered in Hagg. simpl in Hagg.
  apply map_split_two in Hagg as [K1 [ka [K2 [kb [K3 [Hks [Ha Hb]]]]]]].
  pose proof (firstOccs_NoDup (map Page.keyOf filtered)) as Hnd.
  rewrite Hks in Hnd.
  destruct (NoDup_split_two _ _ _ _ _ Hnd) as [Hne HbK1].
  assert (HaK1 : ~ In ka K1).
  { apply NoDup_remove_2 in Hnd. intros H. apply Hnd. apply in_or_app. now left. }
  assert (Hka : In ka (map Page.keyOf filtered)).
  { apply firstOccs_In. rewrite Hks. apply in_or_app. right. now left. }
  assert (Hkb : In kb (map Page.keyOf filtered)).
  { apply firstOccs_In. rewrite Hks. apply in_or_app. right. right.
    apply in_or_app. right. now left. }
  destruct (firstOccs_prefix _ _ _ _ Hks) as [Q1 [Q2 [HQ HQ1]]].
  apply map_eq_app in HQ as [P1 [R [Hfl [HP1 HR]]]].
  apply map_eq_cons in HR as [r [P2 [-> [Hr _]]]].
  assert (HP1k : forall r', In r' P1 -> Page.keyOf r' <> ka /\ Page.keyOf r' <> kb).
  { intros r' Hr'. assert (In (Page.keyOf r') K1).
    { apply HQ1. rewrite <- HP1. now apply in_map. }
    split; intros E; rewrite E in *; contradiction. }
  assert (Hfa : filter (hasKey ka) filtered = r :: filter (hasKey ka) P2).
  { rewrite Hfl, filter_app. simpl. unfold hasKey at 2.
    rewrite Hr, str_eqb_refl.
    replace (filter (hasKey ka) P1) with (@nil Page.GranularEntry); [reflexivity|].
    symmetry. apply hasKey_filter_nil. intros H.
    apply in_map_iff in H as [r' [E Hr']]. destruct (HP1k r' Hr'). contradiction. }
  destruct (entry_names ka filtered r _ Hfa) as [Am [As [Ac _]]].
  rewrite Ha in Am, As, Ac.
  destruct (hasKey_filter_cons kb filtered Hkb) as [rb [restb Hfb]].
  destruct (entry_names kb filtered rb _ Hfb) as [Bm [Bs [Bc [Bk Bin]]]].
  rewrite Hb in Bm, Bs, Bc.
  exists P1, r, P2. split; [exact Hfl|]. split; [now apply hasTriple_first|].
  assert (Hnb : forall r', Page.keyOf r' <> kb -> hasTriple b r' = false).
  { intros r' Hk. destruct (hasTriple b r') eqn:E; [|reflexivity].
    exfalso. apply Hk. rewrite <- Bk. now apply (hasTriple_key b rb r'). }
  assert (Hna : forall r', Page.keyOf r' <> ka -> hasTriple a r' = false).
  { intros r' Hk. destruct (hasTriple a r') eqn:E; [|reflexivity].
    exfalso. apply Hk. rewrite <- Hr. now apply (hasTriple_key a r r'). }
  split; [apply Hnb; congruence|]. split.
  - intros r' Hr'. destruct (HP1k r' Hr'). split; [now apply Hna | now apply Hnb].
  - exists rb. split; [|now apply hasTriple_first].
    rewrite Hfl in Bin. apply in_app_or in Bin as [Hin | [E | Hin]].
    + exfalso. now apply (HP1k rb Hin).
    + subst rb. congruence.
    + exact Hin.
Qed.

(** *** Grouping by sub-discipline *)

Lemma groupAll_snoc (l : list Page.CoursEntry) (d : Page.CoursEntry)
    (g0 : smap (list Page.CoursEntry)) :
  Page.groupAll g0 (l ++ [d])
  = match Page.groupAll g0 l with
    | Some g => Page.groupPush g d
    | None => None
    end.
Proof.
  revert g0. induction l as [|x r IH]; intros g0; simpl.
  - now destruct (Page.groupPush g0 d).
  - destruct (Page.groupPush g0 x); [apply IH | reflexivity].
Qed.

Lemma hasSub_filter_nil (k : str) (l : list Page.CoursEntry) :
  ~ In k (map Page.sub_discipline l) -> filter (hasSub k) l = [].
Proof.
  induction l as [|e r IH]; simpl; [reflexivity|].
  intros H.
  assert (hasSub k e = false) as -> by (apply str_eqb_neq; tauto).
  apply IH. tauto.
Qed.

Lemma hasSub_filter_cons (k : str) (l : list Page.CoursEntry) :
  In k (map Page.sub_discipline l) -> filter (hasSub k) l <> [].
Proof.
  induction l as [|e r IH]; simpl; [tauto|].
  intros H. destruct (hasSub k e) eqn:E; [discriminate|].
  apply str_eqb_neq in E. apply IH. tauto.
Qed.

(** The groups are the sub-disciplines in order of first appearance,
    each with its entries in the order of the input. *)
Theorem groupAll_spec (l : list Page.CoursEntry) :
  forall g, Page.groupAll [] l = Some g ->
    g = map (fun k => (k, filter (hasSub k) l))
          (firstOccs (map Page.sub_discipline l)).
Proof.
  induction l as [|d l IH] using rev_ind; intros g H.
  - simpl in H. now injection H as <-.
  - rewrite groupAll_snoc in H.
    destruct (Page.groupAll [] l) as [g'|]; [|discriminate].
    specialize (IH g' eq_refl). subst g'.
    rewrite map_app. simpl. rewrite firstOccs_snoc.
    set (ks := firstOccs (map Page.sub_discipline l)) in *.
    unfold Page.groupPush in H.
    destruct (existsb (str_eqb (Page.sub_discipline d))
                (map Page.sub_discipline l)) eqn:Hin.
    + apply existsb_str_In in Hin.
      assert (Hks : In (Page.sub_discipline d) ks) by now apply firstOccs_In.
      rewrite (mapGet_tabulate_in _ _ _ Hks) in H. injection H as <-.
      rewrite mapSet_tabulate_in by (try apply firstOccs_NoDup; assumption).
      apply map_ext_in. intros k' _. f_equal. rewrite filter_app. simpl.
      assert (Hd : hasSub k' d = str_eqb k' (Page.sub_discipline d))
        by (unfold hasSub; apply str_eqb_sym).
      rewrite Hd. destruct (str_eqb k' (Page.sub_discipline d)) eqn:E.
      * apply str_eqb_eq in E. now subst k'.
      * now rewrite app_nil_r.
    + assert (Hnot : ~ In (Page.sub_discipline d) (map Page.sub_discipline l)).
      { intros Hc. apply existsb_str_In in Hc. congruence. }
      assert (Hks : ~ In (Page.sub_discipline d) ks)
        by (unfold ks; now rewrite firstOccs_In).
      rewrite (mapGet_tabulate_out _ _ _ Hks) in H.
      destruct (inherited (Page.sub_discipline d)); [discriminate|].
      injection H as <-. rewrite mapSet_tabulate_out by assumption.
      rewrite map_app. simpl. f_equal.
      * apply map_ext_in. intros k' Hk'. f_equal. rewrite filter_app. simpl.
        assert (hasSub k' d = false) as ->.
        { apply str_eqb_neq. intros E. rewrite E in *. contradiction. }
        now rewrite app_nil_r.
      * rewrite filter_app, (hasSub_filter_nil _ l Hnot). simpl.
        unfold hasSub. now rewrite str_eqb_refl.
Qed.

(** The grouping fails only on a name of [Object.prototype]. *)
Lemma groupAll_total (l : list Page.CoursEntry) :
  forall g0,
    Forall (fun d => inherited (Page.sub_discipline d) = false) l ->
    exists g, Page.groupAll g0 l = Some g.
Proof.
  induction l as [|d r IH]; intros g0 H; simpl; [eauto|].
  inversion H as [|? ? Hd Hr]; subst. unfold Page.groupPush. rewrite Hd.
  destruct (mapGet (Page.sub_discipline d) g0); now apply IH.
Qed.

Lemma filter_partition_perm {A : Type} (p : A -> bool) (l : list A) :
  Permutation (filter p l ++ filter (fun x => negb (p x)) l) l.
Proof.
  induction l as [|x r IH]; simpl; [constructor|].
  destruct (p x); simpl.
  - now constructor.
  - apply Permutation_sym. eapply Permutation_trans;
      [|apply Permutation_middle]. constructor. now apply Permutation_sym.
Qed.

Lemma objectEntries_perm {V : Type} (o : smap V) : Permutation (objectEntries o) o.
Proof.
  unfold objectEntries.
  eapply Permutation_trans; [|apply (filter_partition_perm isIndexKey)].
  apply Permutation_app_tail, sortBy_perm.
Qed.

Lemma sortGroups_perm (lc : str -> str -> Z) (g : smap (list Page.CoursEntry)) :
  Permutation (Page.sortGroups lc g) g.
Proof.
  unfold Page.sortGroups.
  eapply Permutation_trans; [apply sortBy_perm | apply objectEntries_perm].
Qed.

(** Each block holds the entries of its sub-discipline, in the order of
    the input, and at least one. *)
Lemma sortGroups_block (lc : str -> str -> Z) (l : list Page.CoursEntry)
    (g : smap (list Page.CoursEntry)) (k : str) (es : list Page.CoursEntry) :
  Page.groupAll [] l = Some g -> In (k, es) (Page.sortGroups lc g) ->
  es = filter (hasSub k) l /\ es <> [].
Proof.
  intros Hg Hin. apply groupAll_spec in Hg. subst g.
  apply (Permutation_in _ (sortGroups_perm lc _)) in Hin.
  apply in_map_iff in Hin as [k' [E Hk']]. injection E as -> <-.
  split; [reflexivity|]. apply hasSub_filter_cons. now apply firstOccs_In.
Qed.

Lemma sortGroups_keys_NoDup (lc : str -> str -> Z) (l : list Page.CoursEntry)
    (g : smap (list Page.CoursEntry)) :
  Page.groupAll [] l = Some g -> NoDup (map fst (Page.sortGroups lc g)).
Proof.
  intros Hg. apply groupAll_spec in Hg.
  apply (Permutation_NoDup (l := map fst g)).
  - apply Permutation_map, Permutation_sym, sortGroups_perm.
  - subst g. rewrite map_map. simpl. rewrite map_id. apply firstOccs_NoDup.
Qed.

(** *** The comparator of the sub-discipline blocks *)

Lemma indexOfFrom_spec (l : list str) :
  forall (i : Z) (x : str),
    let j := indexOfFrom str_eqb i l x in
    0 <= i ->
    (j = -1 /\ ~ In x l)
    \/ (i <= j /\ nth_error l (Z.to_nat (j - i)) = Some x).
Proof.
  induction l as [|y r IH]; intros i x j Hi; subst j; simpl.
  - left. tauto.
  - destruct (str_eqb x y) eqn:E.
    + apply str_eqb_eq in E. subst y. right. split; [lia|].
      now replace (i - i) with 0 by lia.
    + apply str_eqb_neq in E.
      destruct (IH (i + 1) x ltac:(lia)) as [[H1 H2] | [H1 H2]].
      * left. split; [exact H1|]. intros [Hc | Hc]; [congruence | contradiction].
      * right. split; [lia|].
        replace (Z.to_nat (indexOfFrom str_eqb (i + 1) r x - i))
          with (S (Z.to_nat (indexOfFrom str_eqb (i + 1) r x - (i + 1)))) by lia.
        exact H2.
Qed.

Lemma indexOf_listed (l : list str) (x : str) :
  indexOf str_eqb l x <> -1 <-> In x l.
Proof.
  unfold indexOf.
  destruct (indexOfFrom_spec l 0 x ltac:(lia)) as [[H1 H2] | [H1 H2]].
  - split; [congruence | tauto].
  - split; [|lia]. intros _. eapply nth_error_In. exact H2.
Qed.

Lemma indexOf_inj (l : list str) (x y : str) :
  indexOf str_eqb l x <> -1 -> indexOf str_eqb l x = indexOf str_eqb l y -> x = y.
Proof.
  unfold indexOf. intros Hx E.
  destruct (indexOfFrom_spec l 0 x ltac:(lia)) as [[H1 _] | [_ H1]]; [congruence|].
  destruct (indexOfFrom_spec l 0 y ltac:(lia)) as [[H2 _] | [_ H2]]; [congruence|].
  rewrite E in H1. congruence.
Qed.

Section SubDiscOrder.

Variable lc : str -> str -> Z.
Hypothesis lc_ok : Collation lc.

Lemma cmpSubDisc_total (a b : str) :
  0 < Page.cmpSubDisc lc a b -> Page.cmpSubDisc lc b a <= 0.
Proof.
  unfold Page.cmpSubDisc.
  destruct (Z.eqb_spec (indexOf str_eqb Page.order a) (-1)) as [Ea | Ea];
    destruct (Z.eqb_spec (indexOf str_eqb Page.order b) (-1)) as [Eb | Eb];
    simpl; try lia.
  intros H. apply (collation_sym lc lc_ok) in H. lia.
Qed.

Lemma cmpSubDisc_trans (a b c : str) :
  Page.cmpSubDisc lc a b <= 0 -> Page.cmpSubDisc lc b c <= 0 ->
  Page.cmpSubDisc lc a c <= 0.
Proof.
  unfold Page.cmpSubDisc.
  destruct (Z.eqb_spec (indexOf str_eqb Page.order a) (-1)) as [Ea | Ea];
    destruct (Z.eqb_spec (indexOf str_eqb Page.order b) (-1)) as [Eb | Eb];
    destruct (Z.eqb_spec (indexOf str_eqb Page.order c) (-1)) as [Ec | Ec];
    simpl; try lia.
  apply (collation_trans lc lc_ok).
Qed.

Lemma cmpSubDisc_before (a b : str) :
  Page.cmpSubDisc lc a b <= 0 -> a <> b -> subBefore lc a b.
Proof.
  unfold Page.cmpSubDisc, subBefore. cbv zeta.
  destruct (Z.eqb_spec (indexOf str_eqb Page.order a) (-1)) as [Ea | Ea];
    destruct (Z.eqb_spec (indexOf str_eqb Page.order b) (-1)) as [Eb | Eb];
    simpl; intros H Hne.
  - right. right. repeat split; assumption.
  - lia.
  - right. left. now split.
  - left. repeat split; try assumption.
    destruct (Z.eq_dec (indexOf str_eqb Page.order a) (indexOf str_eqb Page.order b))
      as [E | E]; [|lia].
    exfalso. apply Hne. now apply (indexOf_inj Page.order).
Qed.

Lemma StronglySorted_strict {A : Type} (R S : A -> A -> Prop) (l : list A) :
  (forall a b, R a b -> a <> b -> S a b) -> NoDup l ->
  StronglySorted R l -> StronglySorted S l.
Proof.
  intros HRS Hnd Hs. induction Hs as [|x r Hs IH Hx]; constructor.
  - apply IH. now inversion Hnd.
  - inversion Hnd as [|? ? Hnot _]; subst.
    rewrite Forall_forall in *. intros y Hy. apply HRS; [now apply Hx|].
    intros ->. contradiction.
Qed.

Lemma sortGroups_sorted (l : list Page.CoursEntry) (g : smap (list Page.CoursEntry)) :
  Page.groupAll [] l = Some g ->
  StronglySorted (subBefore lc) (map fst (Page.sortGroups lc g)).
Proof.
  intros Hg.
  apply (StronglySorted_strict (fun a b => Page.cmpSubDisc lc a b <= 0)).
  - apply cmpSubDisc_before.
  - now apply (sortGroups_keys_NoDup lc l).
  - apply StronglySorted_map. unfold Page.sortGroups.
    apply (sortBy_sorted (fun p q => Page.cmpSubDisc lc (fst p) (fst q))).
    + intros a b. apply cmpSubDisc_total.
    + intros a b c. apply cmpSubDisc_trans.
Qed.

End SubDiscOrder.

(** *** Code-unit comparison is a collation *)

Lemma ordinalCompare_eq (a b : str) : ordinalCompare a b = 0 -> a = b.
Proof.
  revert b. induction a as [|x a IH]; intros [|y b]; simpl; try lia; [reflexivity|].
  destruct (N.ltb_spec x y); [lia|]. destruct (N.ltb_spec y x); [lia|].
  intros Hr. f_equal; [lia | now apply IH].
Qed.

Lemma ordinalCompare_sym (a b : str) : ordinalCompare a b < 0 <-> 0 < ordinalCompare b a.
Proof.
  revert b. induction a as [|x a IH]; intros [|y b]; simpl; try lia.
  destruct (N.ltb_spec x y); destruct (N.ltb_spec y x); try lia. apply IH.
Qed.

Lemma ordinalCompare_trans (a b c : str) :
  ordinalCompare a b < 0 -> ordinalCompare b c < 0 -> ordinalCompare a c < 0.
Proof.
  revert b c. induction a as [|x a IH]; intros [|y b] [|z c]; simpl; try lia.
  destruct (N.ltb_spec x y); destruct (N.ltb_spec y x);
    destruct (N.ltb_spec y z); destruct (N.ltb_spec z y);
    destruct (N.ltb_spec x z); destruct (N.ltb_spec z x); try lia.
  apply IH.
Qed.

Lemma ordinalCompare_le_trans (a b c : str) :
  ordinalCompare a b <= 0 -> ordinalCompare b c <= 0 -> ordinalCompare a c <= 0.
Proof.
  intros H1 H2.
  destruct (Z.eq_dec (ordinalCompare a b) 0) as [E | E].
  - apply ordinalCompare_eq in E. now subst.
  - destruct (Z.eq_dec (ordinalCompare b c) 0) as [F | F].
    + apply ordinalCompare_eq in F. now subst.
    + pose proof (ordinalCompare_trans a b c). lia.
Qed.

Lemma ordinalCompare_collation : Collation ordinalCompare.
Proof.
  constructor; [apply ordinalCompare_sym | apply ordinalCompare_le_trans].
Qed.

Lemma ordinalCompare_strict : strictCollation ordinalCompare.
Proof. exact ordinalCompare_eq. Qed.

(** *** [esc] *)

Lemma replaceAll_app (c : N) (by_ s1 s2 : str) :
  replaceAll c by_ (s1 ++ s2) = replaceAll c by_ s1 ++ replaceAll c by_ s2.
Proof. apply flat_map_app. Qed.

Lemma esc_app (s1 s2 : str) :
  SvgExport.esc (s1 ++ s2) = SvgExport.esc s1 ++ SvgExport.esc s2.
Proof. unfold SvgExport.esc. now rewrite !replaceAll_app. Qed.

Lemma esc_single (u : N) : SvgExport.esc [u] = escChar u.
Proof.
  unfold escChar.
  destruct (N.eqb_spec u 38) as [-> | H1]; [reflexivity|].
  destruct (N.eqb_spec u 60) as [-> | H2]; [reflexivity|].
  destruct (N.eqb_spec u 62) as [-> | H3]; [reflexivity|].
  destruct (N.eqb_spec u 34) as [-> | H4]; [reflexivity|].
  destruct (N.eqb_spec u 39) as [-> | H5]; [reflexivity|].
  unfold SvgExport.esc, replaceAll. simpl.
  apply N.eqb_neq in H1, H2, H3, H4, H5.
  rewrite H1. simpl. rewrite H2. simpl. rewrite H3. simpl.
  rewrite H4. simpl. rewrite H5. reflexivity.
Qed.

Lemma esc_cons (u : N) (s : str) : SvgExport.esc (u :: s) = escChar u ++ SvgExport.esc s.
Proof. change (u :: s) with ([u] ++ s). now rewrite esc_app, esc_single. Qed.

(** Each character is replaced on its own, and once. *)
Lemma esc_chars (s : str) : SvgExport.esc s = flat_map escChar s.
Proof.
  induction s as [|u r IH]; [reflexivity|]. rewrite esc_cons, IH. reflexivity.
Qed.

Lemma decode_escChar (u : N) (rest : str) :
  decodeFrom 0 (escChar u ++ rest) = option_map (cons u) (decodeFrom 0 rest).
Proof.
  unfold escChar.
  destruct (N.eqb_spec u 38) as [-> | H1]; [reflexivity|].
  destruct (N.eqb_spec u 60) as [-> | H2]; [reflexivity|].
  destruct (N.eqb_spec u 62) as [-> | H3]; [reflexivity|].
  destruct (N.eqb_spec u 34) as [-> | H4]; [reflexivity|].
  destruct (N.eqb_spec u 39) as [-> | H5]; [reflexivity|].
  apply N.eqb_neq in H1, H2, H3, H4, H5.
  simpl. unfold reserved. now rewrite H1, H2, H3, H4, H5.
Qed.

(** The escaped text is well-formed document text, and it reads back
    as the original. *)
Lemma decode_esc (s : str) : decode (SvgExport.esc s) = Some s.
Proof.
  unfold decode. induction s as [|u r IH]; [reflexivity|].
  rewrite esc_cons, decode_escChar, IH. reflexivity.
Qed.

Lemma escChar_safe (u v : N) :
  In v (escChar u) -> v <> 60%N /\ v <> 62%N /\ v <> 34%N /\ v <> 39%N.
Proof.
  unfold escChar.
  destruct (N.eqb_spec u 38) as [-> | H1];
    [simpl; intuition (subst; discriminate)|].
  destruct (N.eqb_spec u 60) as [-> | H2];
    [simpl; intuition (subst; discriminate)|].
  destruct (N.eqb_spec u 62) as [-> | H3];
    [simpl; intuition (subst; discriminate)|].
  destruct (N.eqb_spec u 34) as [-> | H4];
    [simpl; intuition (subst; discriminate)|].
  destruct (N.eqb_spec u 39) as [-> | H5];
    [simpl; intuition (subst; discriminate)|].
  simpl. intros [<- | []]. auto.
Qed.

Lemma esc_safe (s : str) (v : N) :
  In v (SvgExport.esc s) -> v <> 60%N /\ v <> 62%N /\ v <> 34%N /\ v <> 39%N.
Proof.
  rewrite esc_chars, in_flat_map. intros [u [_ H]]. now apply (escChar_safe u).
Qed.

(** *** [truncateText] *)

Lemma slice_prefix {A : Type} (l : list A) (k : Z) :
  0 <= k <= len l -> slice l 0 k = firstn (Z.to_nat k) l.
Proof.
  intros Hk. unfold slice, sliceIndex.
  assert ((0 <? 0) = false) as -> by reflexivity.
  assert ((k <? 0) = false) as -> by (apply Z.ltb_ge; lia).
  replace (Z.min k (len l)) with k by lia.
  replace (Z.min 0 (len l)) with 0 by lia. simpl.
  f_equal. lia.
Qed.

Lemma slice_all {A : Type} (l : list A) (k : Z) :
  len l <= k -> slice l 0 k = l.
Proof.
  intros Hk. unfold slice, sliceIndex.
  assert ((0 <? 0) = false) as -> by reflexivity.
  assert (Hn : 0 <= len l) by (unfold len; lia).
  assert ((k <? 0) = false) as -> by (apply Z.ltb_ge; lia).
  replace (Z.min k (len l)) with (len l) by lia.
  replace (Z.min 0 (len l)) with 0 by lia. simpl.
  apply firstn_all2. unfold len. lia.
Qed.

Lemma truncateText_short (text : str) (maxChars : Z) :
  len text <= maxChars -> SvgExport.truncateText text maxChars = text.
Proof.
  intros H. unfold SvgExport.truncateText.
  now assert ((len text <=? maxChars) = true) as -> by now apply Z.leb_le.
Qed.

Lemma truncateText_long (text : str) (maxChars : Z) :
  1 <= maxChars -> maxChars < len text ->
  SvgExport.truncateText text maxChars
  = firstn (Z.to_nat (maxChars - 1)) text ++ [SvgExport.ellipsis]
  /\ len (SvgExport.truncateText text maxChars) = maxChars.
Proof.
  intros H1 H2. unfold SvgExport.truncateText.
  assert ((len text <=? maxChars) = false) as -> by (apply Z.leb_gt; lia).
  rewrite slice_prefix by lia. split; [reflexivity|].
  unfold len in *. rewrite length_app, firstn_length_le by lia. simpl. lia.
Qed.

(** Escaping comes after truncation. In the other order the cut could
    fall inside an entity, and the text would no longer read back. *)
Lemma escape_after_truncate_example :
  decode (SvgExport.esc (SvgExport.truncateText ampersandTopic 50))
  = Some (repeat 97%N 48 ++ lit "&" ++ [SvgExport.ellipsis])
  /\ decode (SvgExport.truncateText (SvgExport.esc ampersandTopic) 50) = None.
Proof. split; vm_compute; reflexivity. Qed.

Lemma truncateText_budget (text : str) (maxChars : Z) :
  1 <= maxChars -> len (SvgExport.truncateText text maxChars) <= maxChars.
Proof.
  intros H1. destruct (Z_le_gt_dec (len text) maxChars) as [H | H].
  - now rewrite truncateText_short.
  - destruct (truncateText_long text maxChars H1 ltac:(lia)) as [_ Hn]. lia.
Qed.

(** *** What the body of the card contains *)

Lemma escaped_app (p q : list SvgExport.chunk) : escaped (p ++ q) = escaped p ++ escaped q.
Proof. apply flat_map_app. Qed.

Lemma escaped_push (part : list SvgExport.chunk) (st : SvgExport.body) :
  escaped (List.concat (SvgExport.bodyParts (SvgExport.push part st)))
  = escaped (List.concat (SvgExport.bodyParts st)) ++ escaped part.
Proof.
  unfold SvgExport.push. simpl. rewrite concat_app, escaped_app. simpl.
  now rewrite app_nil_r.
Qed.

Lemma renderRow_effect (accent : str) (gi top : Z) (st : SvgExport.body)
    (entry : SvgExport.SvgCourseEntry) (idx : Z) :
  let st' := SvgExport.renderRow accent gi top st entry idx in
  SvgExport.y st' = SvgExport.y st + SvgExport.courseRowH
  /\ escaped (List.concat (SvgExport.bodyParts st'))
     = escaped (List.concat (SvgExport.bodyParts st)) ++ [rowLabel entry]
  /\ List.length (SvgExport.bodyParts st')
     = (List.length (SvgExport.bodyParts st) + 5)%nat.
Proof.
  unfold SvgExport.renderRow. cbv zeta. split; [reflexivity|]. split.
  - unfold SvgExport.advance. cbn [SvgExport.bodyParts].
    rewrite !escaped_push. cbn [escaped flat_map app].
    rewrite !app_nil_r. reflexivity.
  - unfold SvgExport.advance, SvgExport.push. cbn [SvgExport.bodyParts].
    rewrite !length_app. simpl. lia.
Qed.

Lemma rows_effect (accent : str) (gi top : Z) (shown : list SvgExport.SvgCourseEntry) :
  forall (i : Z) (st : SvgExport.body),
    let st' := SvgExport.forEachFrom (SvgExport.renderRow accent gi top) i shown st in
    SvgExport.y st' = SvgExport.y st + SvgExport.courseRowH * len shown
    /\ escaped (List.concat (SvgExport.bodyParts st'))
       = escaped (List.concat (SvgExport.bodyParts st)) ++ map rowLabel shown
    /\ List.length (SvgExport.bodyParts st')
       = (List.length (SvgExport.bodyParts st) + 5 * List.length shown)%nat.
Proof.
  induction shown as [|e r IH]; intros i st; cbn [SvgExport.forEachFrom].
  - cbv zeta. unfold len, SvgExport.courseRowH. simpl. rewrite app_nil_r.
    repeat split; lia.
  - destruct (renderRow_effect accent gi top st e i) as [Hy [He Hl]].
    destruct (IH (i + 1) (SvgExport.renderRow accent gi top st e i)) as [Hy' [He' Hl']].
    cbv zeta in *. rewrite Hy', He', Hl', Hy, He, Hl.
    unfold len, SvgExport.courseRowH. cbn [List.length map].
    rewrite <- app_assoc. simpl app. repeat split; lia.
Qed.

Lemma renderGroup_effect (cap n : Z) (st : SvgExport.body)
    (g : SvgExport.SvgSubDiscGroup) (gi : Z) :
  let st' := SvgExport.renderGroup cap n st g gi in
  SvgExport.y st'
  = SvgExport.y st + blockHeight cap g
    + (if gi <? n - 1 then SvgExport.groupGap else 0)
  /\ escaped (List.concat (SvgExport.bodyParts st'))
     = escaped (List.concat (SvgExport.bodyParts st)) ++ blockTexts cap g
  /\ List.length (SvgExport.bodyParts st')
     = (List.length (SvgExport.bodyParts st) + 1
        + 5 * List.length (SvgExport.displayEntries cap g))%nat.
Proof.
  unfold SvgExport.renderGroup, SvgExport.forEach. cbv zeta.
  match goal with
  | |- context [SvgExport.push ?p st] =>
      set (header := p);
      assert (Hh : escaped header = [SvgExport.sub_discipline g]) by reflexivity
  end.
  set (st1 := SvgExport.advance SvgExport.groupHeaderH (SvgExport.push header st)).
  assert (Hy1 : SvgExport.y st1 = SvgExport.y st + SvgExport.groupHeaderH)
    by reflexivity.
  assert (He1 : escaped (List.concat (SvgExport.bodyParts st1))
                = escaped (List.concat (SvgExport.bodyParts st))
                  ++ [SvgExport.sub_discipline g]).
  { unfold st1, SvgExport.advance. cbn [SvgExport.bodyParts].
    now rewrite escaped_push, Hh. }
  assert (Hl1 : List.length (SvgExport.bodyParts st1)
                = (List.length (SvgExport.bodyParts st) + 1)%nat).
  { unfold st1, SvgExport.advance, SvgExport.push. cbn [SvgExport.bodyParts].
    now rewrite length_app. }
  match goal with
  | |- context [SvgExport.forEachFrom (SvgExport.renderRow ?a gi ?t) 0 ?l st1] =>
      destruct (rows_effect a gi t l 0 st1) as [Hy [He Hl]];
      cbv zeta in Hy, He, Hl;
      set (st2 := SvgExport.forEachFrom (SvgExport.renderRow a gi t) 0 l st1) in *
  end.
  unfold blockHeight, blockTexts.
  destruct (gi <? n - 1); unfold SvgExport.advance;
    cbn [SvgExport.y SvgExport.bodyParts];
    rewrite Hy, He, Hl, Hy1, He1, Hl1, <- app_assoc;
    (split; [lia|]); (split; [reflexivity | lia]).
Qed.

(** The gap follows every block but the last. *)
Lemma groups_effect (cap n : Z) (groups : list SvgExport.SvgSubDiscGroup) :
  forall (i : Z) (st : SvgExport.body),
    i + len groups = n ->
    let st' := SvgExport.forEachFrom (SvgExport.renderGroup cap n) i groups st in
    SvgExport.y st'
    = SvgExport.y st + sumZ (map (blockHeight cap) groups)
      + SvgExport.groupGap * Z.max 0 (len groups - 1)
    /\ escaped (List.concat (SvgExport.bodyParts st'))
       = escaped (List.concat (SvgExport.bodyParts st))
         ++ flat_map (blockTexts cap) groups.
Proof.
  induction groups as [|g r IH]; intros i st Hn; cbn [SvgExport.forEachFrom].
  - cbv zeta. unfold len, SvgExport.groupGap. simpl. rewrite app_nil_r.
    split; [lia | reflexivity].
  - destruct (renderGroup_effect cap n st g i) as [Hy [He _]].
    assert (Hn' : i + 1 + len r = n) by (unfold len in *; cbn [List.length] in Hn; lia).
    destruct (IH (i + 1) (SvgExport.renderGroup cap n st g i) Hn') as [Hy' He'].
    cbv zeta in *. rewrite Hy', He', Hy, He. cbn [map flat_map sumZ fold_right].
    rewrite <- app_assoc. split; [|reflexivity].
    unfold SvgExport.groupGap, len, sumZ in *. cbn [List.length] in *.
    destruct (Z.ltb_spec i (n - 1)); lia.
Qed.

Theorem renderBody_effect (groups : list SvgExport.SvgSubDiscGroup) :
  let cap := SvgExport.effectiveMax groups in
  SvgExport.y (SvgExport.renderBody groups)
  = SvgExport.yBody + sumZ (map (blockHeight cap) groups)
    + SvgExport.groupGap * Z.max 0 (len groups - 1)
  /\ escaped (List.concat (SvgExport.bodyParts (SvgExport.renderBody groups)))
     = flat_map (blockTexts cap) groups.
Proof.
  unfold SvgExport.renderBody, SvgExport.forEach.
  apply (groups_effect _ _ groups 0 {| SvgExport.y := SvgExport.yBody;
                                       SvgExport.bodyParts := [] |}).
  unfold SvgExport.numGroups. lia.
Qed.

(** The escaped interpolations of the whole document, in order: the
    module name, the exam-year range, the texts of the blocks, and the
    range again in the footer. *)
Theorem svgChunks_escaped (opts : SvgExport.SvgExportOptions) :
  escaped (SvgExport.svgChunks opts)
  = SvgExport.moduleName opts :: SvgExport.examYearsRange opts
    :: flat_map (blockTexts (SvgExport.effectiveMax (SvgExport.subDiscGroups opts)))
         (SvgExport.subDiscGroups opts)
    ++ [SvgExport.examYearsRange opts].
Proof.
  unfold SvgExport.svgChunks. rewrite !escaped_app.
  destruct (renderBody_effect (SvgExport.subDiscGroups opts)) as [_ He].
  cbv zeta in He. rewrite He. reflexivity.
Qed.

(** *** The cap on the rows of a block *)

Lemma fold_left_sum {A : Type} (f : A -> Z) (l : list A) (a : Z) :
  fold_left (fun sum x => sum + f x) l a = a + sumZ (map f l).
Proof.
  revert a. induction l as [|x r IH]; intros a; simpl; [lia|].
  rewrite IH. lia.
Qed.

Lemma totalCourseSlots_sum (groups : list SvgExport.SvgSubDiscGroup) :
  SvgExport.totalCourseSlots groups
  = sumZ (map (fun g => Z.min (len (SvgExport.entries g)) SvgExport.MAX_COURSES) groups).
Proof. unfold SvgExport.totalCourseSlots. now rewrite fold_left_sum. Qed.

Lemma totalCourseSlots_pos (groups : list SvgExport.SvgSubDiscGroup) :
  0 < SvgExport.totalCourseSlots groups
  <-> exists g, In g groups /\ SvgExport.entries g <> [].
Proof.
  rewrite totalCourseSlots_sum. unfold SvgExport.MAX_COURSES.
  induction groups as [|g r IH]; simpl.
  - split; [lia | intros [g [[] _]]].
  - assert (Hr : 0 <= sumZ (map (fun g => Z.min (len (SvgExport.entries g)) 5) r)).
    { clear. induction r as [|x r IH]; simpl; [lia|]. unfold len in *. lia. }
    destruct (SvgExport.entries g) as [|e es] eqn:Eg.
    + change (Z.min (len (@nil SvgExport.SvgCourseEntry)) 5) with 0.
      rewrite Z.add_0_l, IH. split.
      * intros [g' [Hin Hne]]. exists g'. auto.
      * intros [g' [[<- | Hin] Hne]]; [congruence | eauto].
    + split; [|unfold len at 1; simpl List.length; lia].
      intros _. exists g. split; [now left | congruence].
Qed.

Lemma totalCourseSlots_nonneg (groups : list SvgExport.SvgSubDiscGroup) :
  0 <= SvgExport.totalCourseSlots groups.
Proof.
  rewrite totalCourseSlots_sum. unfold SvgExport.MAX_COURSES.
  induction groups as [|x r IH]; simpl; [lia|]. unfold len in *. lia.
Qed.

(** The floor of the two divisions in a row is the quotient by the
    product. *)
Lemma Qfloor_div_div (a b c : Z) :
  0 < b -> 0 < c -> Qfloor (inject_Z a / inject_Z b / inject_Z c) = a / (b * c).
Proof.
  intros Hb Hc. destruct b as [|p|p]; try lia. destruct c as [|q|q]; try lia.
  unfold Qdiv, Qmult, Qinv, inject_Z, Qfloor. simpl.
  rewrite !Z.mul_1_r. reflexivity.
Qed.

Lemma effectiveMax_bounds (groups : list SvgExport.SvgSubDiscGroup) :
  2 <= SvgExport.effectiveMax groups <= 5.
Proof.
  unfold SvgExport.effectiveMax, SvgExport.dynamicMaxCourses, SvgExport.MAX_COURSES.
  destruct (0 <? SvgExport.totalCourseSlots groups); lia.
Qed.

Lemma slice_firstn {A : Type} (l : list A) (k : Z) :
  0 <= k -> slice l 0 k = firstn (Z.to_nat k) l.
Proof.
  intros Hk. destruct (Z_le_gt_dec k (len l)).
  - apply slice_prefix. lia.
  - rewrite slice_all by lia. symmetry. apply firstn_all2. unfold len in *. lia.
Qed.

Lemma displayEntries_firstn (groups : list SvgExport.SvgSubDiscGroup)
    (g : SvgExport.SvgSubDiscGroup) :
  SvgExport.displayEntries (SvgExport.effectiveMax groups) g
  = firstn (Z.to_nat (SvgExport.effectiveMax groups)) (SvgExport.entries g).
Proof.
  unfold SvgExport.displayEntries. apply slice_firstn.
  pose proof (effectiveMax_bounds groups). lia.
Qed.

Lemma displayEntries_nonempty (groups : list SvgExport.SvgSubDiscGroup)
    (g : SvgExport.SvgSubDiscGroup) :
  SvgExport.entries g <> [] ->
  SvgExport.displayEntries (SvgExport.effectiveMax groups) g <> [].
Proof.
  intros Hne. rewrite displayEntries_firstn.
  pose proof (effectiveMax_bounds groups) as Hb.
  destruct (SvgExport.entries g) as [|e es]; [congruence|].
  destruct (Z.to_nat (SvgExport.effectiveMax groups)) eqn:E; [lia | discriminate].
Qed.

(** *** Blocks handed to the renderer *)

Lemma buildSvgData_groups (lc : str -> str -> Z) (data : list Page.CoursEntry)
    (modName : str) (allowed : option (list str)) (opts : SvgExport.SvgExportOptions) :
  Page.buildSvgDataForModule lc data modName allowed = Some opts ->
  exists (l : list Page.CoursEntry) (g : smap (list Page.CoursEntry)),
    Page.groupAll [] l = Some g
    /\ SvgExport.subDiscGroups opts
       = map (fun p =>
                {| SvgExport.sub_discipline := fst p;
                   SvgExport.entries :=
                     map (fun e =>
                            {| SvgExport.cours_topic := Page.cours_topic e;
                               SvgExport.question_count := Page.question_count e |})
                         (snd p) |})
           (Page.sortGroups lc g).
Proof.
  unfold Page.buildSvgDataForModule. cbv zeta.
  match goal with
  | |- context [Page.groupAll [] ?l] =>
      intros H; exists l; destruct (Page.groupAll [] l) as [g|] eqn:Hg;
      [|discriminate]
  end.
  exists g. split; [reflexivity|]. now injection H as <-.
Qed.

(** ** The layout of the card *)

(** C3, with [numBlocks] the count of the non-empty blocks: one block
    with entries followed by three without would get the cap 5; the
    code counts all four blocks and caps the rows at 4. *)
Lemma cap_counts_empty_blocks :
  SvgExport.effectiveMax [anatomie; emptyBlock; emptyBlock; emptyBlock] = 4
  /\ specCap [anatomie; emptyBlock; emptyBlock; emptyBlock] = 5
  /\ SvgExport.effectiveMax [anatomie; emptyBlock; emptyBlock; emptyBlock]
     <> specCap [anatomie; emptyBlock; emptyBlock; emptyBlock].
Proof. repeat split; vm_compute; congruence. Qed.

(** C3, as the code has it: [numBlocks] is the number of blocks passed
    in, empty or not, and [spaceForRows = availableHeight - numBlocks *
    32 - max(0, numBlocks - 1) * 20] with [availableHeight = 840]. When
    some block has an entry the cap is [floor(spaceForRows / 36 /
    numBlocks)] clamped to [2, 5], hence 2 when [spaceForRows <= 0];
    when no block has an entry, in particular when there is no block,
    the cap is 5 and nothing is divided. When every block has an entry
    this is the cap of the specification. Every block of the invocation
    shows its first [cap] entries, and without blocks the body is
    empty. *)
Theorem layout_cap :
  forall groups : list SvgExport.SvgSubDiscGroup,
    let numBlocks := len groups in
    let spaceForRows :=
      SvgExport.availableHeight - numBlocks * 32 - Z.max 0 (numBlocks - 1) * 20 in
    let cap := SvgExport.effectiveMax groups in
    SvgExport.availableHeight = 840
    /\ SvgExport.numGroups groups = numBlocks
    /\ SvgExport.spaceForCourses groups = spaceForRows
    /\ ((exists g, In g groups /\ SvgExport.entries g <> []) ->
        0 < numBlocks
        /\ cap = Z.max 2 (Z.min 5 (Qfloor (inject_Z spaceForRows / 36
                                           / inject_Z numBlocks)))
        /\ cap = Z.max 2 (Z.min 5 (spaceForRows / (36 * numBlocks)))
        /\ (spaceForRows <= 0 -> cap = 2))
    /\ ((forall g, In g groups -> SvgExport.entries g = []) -> cap = 5)
    /\ (groups <> [] -> (forall g, In g groups -> SvgExport.entries g <> []) ->
        specNumBlocks groups = numBlocks /\ cap = specCap groups)
    /\ (forall g, In g groups ->
          SvgExport.displayEntries cap g = firstn (Z.to_nat cap) (SvgExport.entries g))
    /\ escaped (List.concat (SvgExport.bodyParts (SvgExport.renderBody groups)))
       = flat_map (blockTexts cap) groups
    /\ SvgExport.bodyParts (SvgExport.renderBody []) = [].
Proof.
  intros groups numBlocks spaceForRows cap.
  split; [reflexivity|]. split; [reflexivity|]. split; [reflexivity|].
  assert (Hsome :
    (exists g, In g groups /\ SvgExport.entries g <> []) ->
    0 < numBlocks
    /\ cap = Z.max 2 (Z.min 5 (Qfloor (inject_Z spaceForRows / 36
                                       / inject_Z numBlocks)))
    /\ cap = Z.max 2 (Z.min 5 (spaceForRows / (36 * numBlocks)))
    /\ (spaceForRows <= 0 -> cap = 2)).
  { intros Hex.
    assert (Hn : 0 < numBlocks).
    { destruct Hex as [g [Hin _]]. unfold numBlocks, len.
      destruct groups; [contradiction | simpl; lia]. }
    apply totalCourseSlots_pos in Hex. apply Z.ltb_lt in Hex.
    assert (Hcap : cap = Z.max 2 (Z.min 5 (spaceForRows / (36 * numBlocks)))).
    { unfold cap, SvgExport.effectiveMax, SvgExport.dynamicMaxCourses.
      rewrite Hex. unfold SvgExport.courseRowH.
      rewrite Qfloor_div_div by (unfold SvgExport.numGroups; fold numBlocks; lia).
      unfold SvgExport.spaceForCourses, SvgExport.numGroups,
        SvgExport.groupHeaderH, SvgExport.groupGap, SvgExport.MAX_COURSES.
      fold numBlocks. fold spaceForRows. lia. }
    split; [exact Hn|]. split; [|split; [exact Hcap|]].
    + rewrite Hcap. change 36%Q with (inject_Z 36).
      now rewrite Qfloor_div_div by lia.
    + intros Hs. rewrite Hcap.
      assert (spaceForRows / (36 * numBlocks) <= 0)
        by (apply Z.div_le_upper_bound; lia).
      lia. }
  split; [exact Hsome|]. split; [|split; [|split; [|split]]].
  - intros Hall. unfold cap, SvgExport.effectiveMax, SvgExport.dynamicMaxCourses.
    assert (Hz : (0 <? SvgExport.totalCourseSlots groups) = false).
    { apply Z.ltb_ge. destruct (Z_le_gt_dec (SvgExport.totalCourseSlots groups) 0);
        [assumption|].
      assert (Hpos : 0 < SvgExport.totalCourseSlots groups) by lia.
      apply totalCourseSlots_pos in Hpos as [g0 [Hin Hne]].
      exfalso. apply Hne. now apply Hall. }
    rewrite Hz. reflexivity.
  - intros Hne Hall.
    assert (Hf : filter nonEmpty groups = groups).
    { clear - Hall. induction groups as [|g r IH]; [reflexivity|]. simpl.
      assert (nonEmpty g = true) as ->.
      { unfold nonEmpty. apply negb_true_iff, Z.eqb_neq. unfold len.
        specialize (Hall g (or_introl eq_refl)).
        destruct (SvgExport.entries g); [congruence | simpl; lia]. }
      f_equal. apply IH. intros g' Hg'. apply Hall. now right. }
    assert (Hnum : specNumBlocks groups = numBlocks)
      by (unfold specNumBlocks; now rewrite Hf).
    split; [exact Hnum|].
    destruct groups as [|g0 r]; [congruence|].
    destruct Hsome as [Hn [Hq [Hz Hlow]]].
    { exists g0. split; [now left | apply Hall; now left]. }
    unfold specCap, specSpaceForRows. rewrite Hnum.
    unfold SvgExport.groupHeaderH, SvgExport.groupGap, SvgExport.courseRowH.
    fold spaceForRows. destruct (Z.leb_spec spaceForRows 0) as [Hs | Hs].
    + now apply Hlow.
    + exact Hq.
  - intros g _. apply displayEntries_firstn.
  - apply renderBody_effect.
  - reflexivity.
Qed.

(** C3 at a card of seventeen blocks, for which no space is left for
    the rows. *)
Lemma layout_cap_witness :
  SvgExport.effectiveMax (repeat anatomie 17) = 2.
Proof.
  destruct (layout_cap (repeat anatomie 17)) as [_ [_ [_ [H _]]]].
  destruct H as [_ [_ [_ H]]].
  - exists anatomie. split; [now left | discriminate].
  - apply H. vm_compute. discriminate.
Defined.



(** ** Labels *)

(** C9. Truncation: the label of a topic [t] is [t] itself when [t] has
    at most 50 characters; otherwise it is a proper prefix of [t]
    followed by the ellipsis, 50 characters in all. The row embeds the
    label through [esc], and the embedded text reads back as the
    label. *)
Theorem truncation_of_labels :
  forall t : str,
    let label := SvgExport.truncateText t 50 in
    (len t <= 50 -> label = t)
    /\ (50 < len t ->
        exists prefix rest,
          t = prefix ++ rest /\ rest <> []
          /\ label = prefix ++ [SvgExport.ellipsis] /\ len label = 50)
    /\ len label <= 50
    /\ (forall accent gi top st idx e,
          SvgExport.cours_topic e = t ->
          escaped (List.concat
                     (SvgExport.bodyParts (SvgExport.renderRow accent gi top st e idx)))
          = escaped (List.concat (SvgExport.bodyParts st)) ++ [label])
    /\ decode (SvgExport.emit (SvgExport.E label)) = Some label.
Proof.
  intros t label. split; [|split; [|split; [|split]]].
  - intros H. now apply truncateText_short.
  - intros H. destruct (truncateText_long t 50 ltac:(lia) H) as [Hl Hn].
    exists (firstn (Z.to_nat (50 - 1)) t), (skipn (Z.to_nat (50 - 1)) t).
    split; [symmetry; apply firstn_skipn|]. split; [|split; assumption].
    intros Hnil. apply (f_equal (@List.length N)) in Hnil.
    rewrite length_skipn in Hnil. unfold len in H. simpl in Hnil. lia.
  - apply truncateText_budget. lia.
  - intros accent gi top st idx e <-.
    now destruct (renderRow_effect accent gi top st e idx) as [_ [He _]].
  - apply decode_esc.
Qed.

(** C9 at a topic of sixty letters: forty-nine of them are kept. *)
Lemma truncation_of_labels_witness :
  SvgExport.truncateText (repeat 97%N 60) 50 = repeat 97%N 49 ++ [SvgExport.ellipsis]
  /\ SvgExport.truncateText (lit "Heart") 50 = lit "Heart".
Proof.
  destruct (truncation_of_labels (repeat 97%N 60)) as [_ [Hlong _]].
  destruct (truncation_of_labels (lit "Heart")) as [Hshort _].
  split.
  - destruct Hlong as [prefix [rest [_ [_ [Hl _]]]]]; [vm_compute; reflexivity|].
    reflexivity.
  - apply Hshort. vm_compute. discriminate.
Defined.

(** ** Blocks without entries *)

(** C7, with empty blocks skipped: a block without entries would leave
    the body as if it were absent. The code renders its header, with no
    row, and moves the cursor down by the header height. *)
Lemma empty_block_is_rendered :
  SvgExport.y (SvgExport.renderBody [emptyBlock]) = SvgExport.yBody + 32
  /\ escaped (List.concat (SvgExport.bodyParts (SvgExport.renderBody [emptyBlock])))
     = [lit "Histologie"]
  /\ SvgExport.renderBody [emptyBlock]
     <> SvgExport.renderBody (filter nonEmpty [emptyBlock]).
Proof.
  split; [reflexivity|]. split; [reflexivity|].
  intros H. apply (f_equal SvgExport.y) in H. vm_compute in H. discriminate.
Qed.

(** C7, as the code has it: the renderer does not skip a block without
    entries; it emits the header of the block and no row, and moves the
    cursor by the header height, plus the gap when the block is not the
    last. The blocks built by [buildSvgDataForModule] and by
    [groupedBySubDisc] all have entries, so that on this path every
    rendered block shows at least one row. *)
Theorem empty_blocks :
  (forall cap n st g gi,
     SvgExport.entries g = [] ->
     let st' := SvgExport.renderGroup cap n st g gi in
     SvgExport.y st'
     = SvgExport.y st + 32 + (if gi <? n - 1 then 20 else 0)
     /\ List.length (SvgExport.bodyParts st')
        = (List.length (SvgExport.bodyParts st) + 1)%nat
     /\ escaped (List.concat (SvgExport.bodyParts st'))
        = escaped (List.concat (SvgExport.bodyParts st))
          ++ [SvgExport.sub_discipline g])
  /\ (forall lc data modName allowed opts,
        Page.buildSvgDataForModule lc data modName allowed = Some opts ->
        forall g, In g (SvgExport.subDiscGroups opts) ->
          SvgExport.entries g <> []
          /\ SvgExport.displayEntries
               (SvgExport.effectiveMax (SvgExport.subDiscGroups opts)) g <> [])
  /\ (forall lc data selectedModule blocks,
        Page.groupedBySubDisc lc data selectedModule = Some blocks ->
        forall k es, In (k, es) blocks -> es <> []).
Proof.
  split; [|split].
  - intros cap n st g gi Hg. cbv zeta.
    destruct (renderGroup_effect cap n st g gi) as [Hy [He Hl]]. cbv zeta in *.
    assert (Hd : SvgExport.displayEntries cap g = []).
    { unfold SvgExport.displayEntries, slice. rewrite Hg.
      now rewrite skipn_nil, firstn_nil. }
    unfold blockHeight, blockTexts in *. rewrite Hd in *.
    rewrite Hy, He, Hl. unfold len, SvgExport.groupHeaderH, SvgExport.groupGap.
    simpl. repeat split; lia.
  - intros lc data modName allowed opts Hb g Hg.
    destruct (buildSvgData_groups lc data modName allowed opts Hb)
      as [l [gr [Hgr Hgroups]]].
    assert (Hne : SvgExport.entries g <> []).
    { rewrite Hgroups in Hg. apply in_map_iff in Hg as [[k es] [<- Hin]].
      destruct (sortGroups_block lc l gr k es Hgr Hin) as [_ Hes].
      simpl. destruct es; [congruence | discriminate]. }
    split; [exact Hne | now apply displayEntries_nonempty].
  - intros lc data selectedModule blocks Hb k es Hin.
    unfold Page.groupedBySubDisc in Hb.
    destruct (Page.groupAll [] (Page.filteredByModule data selectedModule))
      as [gr|] eqn:Hgr; [|discriminate].
    injection Hb as <-.
    now destruct (sortGroups_block lc _ gr k es Hgr Hin).
Qed.

(** C7 at the sample records: the export of the module is
    built, each of its blocks has entries, and the block without
    entries takes the height of a header. *)
Lemma empty_blocks_witness :
  match Page.buildSvgDataForModule ordinalCompare
          (Page.filteredData ordinalCompare sampleRecords [] []) (lit "Cardio") None
  with
  | Some opts =>
      Forall (fun g => SvgExport.entries g <> []) (SvgExport.subDiscGroups opts)
  | None => False
  end
  /\ SvgExport.y
       (SvgExport.renderGroup 5 1
          {| SvgExport.y := SvgExport.yBody; SvgExport.bodyParts := [] |}
          emptyBlock 0)
     = SvgExport.yBody + 32 + 0.
Proof.
  destruct empty_blocks as [Hrender [Hbuild _]]. split.
  - destruct (Page.buildSvgDataForModule ordinalCompare
                (Page.filteredData ordinalCompare sampleRecords [] [])
                (lit "Cardio") None) as [opts|] eqn:Hb.
    + apply Forall_forall. intros g Hg.
      now destruct (Hbuild ordinalCompare _ _ _ opts Hb g Hg).
    + vm_compute in Hb. discriminate.
  - now destruct (Hrender 5 1 {| SvgExport.y := SvgExport.yBody;
                                 SvgExport.bodyParts := [] |}
                    emptyBlock 0 eq_refl) as [Hy _].
Defined.

(** ** Ranking and order of the blocks *)

Lemma filter_perm {A : Type} (p : A -> bool) (l l' : list A) :
  Permutation l l' -> Permutation (filter p l) (filter p l').
Proof.
  induction 1 as [|x l l' _ IH|x y l|l l' l'' _ IH1 _ IH2]; simpl.
  - constructor.
  - destruct (p x); [now constructor | exact IH].
  - destruct (p x), (p y); try apply Permutation_refl. apply perm_swap.
  - eapply Permutation_trans; eassumption.
Qed.

Lemma filteredData_perm (lc : str -> str -> Z) (raw : list Page.GranularEntry)
    (types : list str) (promos : list Z) :
  Permutation (Page.filteredData lc raw types promos)
    (Page.aggregated raw types promos).
Proof.
  unfold Page.filteredData. destruct raw as [|e r]; [apply Permutation_refl|].
  assert ((len (e :: r) =? 0) = false) as ->
    by (apply Z.eqb_neq; unfold len; simpl; lia).
  apply sortBy_perm.
Qed.

(** The entries a block is made of: those of the selected module and
    of the sub-discipline of the block. *)
Lemma block_entries (lc : str -> str -> Z) (data : list Page.CoursEntry)
    (selectedModule : str) (blocks : list (str * list Page.CoursEntry))
    (k : str) (es : list Page.CoursEntry) :
  Page.groupedBySubDisc lc data selectedModule = Some blocks ->
  In (k, es) blocks ->
  es = filter (fun d => str_eqb (Page.module_name d) selectedModule && hasSub k d) data.
Proof.
  intros Hb Hin. unfold Page.groupedBySubDisc in Hb.
  destruct (Page.groupAll [] (Page.filteredByModule data selectedModule))
    as [gr|] eqn:Hgr; [|discriminate].
  injection Hb as <-.
  destruct (sortGroups_block lc _ gr k es Hgr Hin) as [-> _].
  unfold Page.filteredByModule. apply filter_both.
Qed.



(** C6. Order of the blocks, for a [localeCompare] that is a collation:
    in the projection of a module, on the page and in the export alike,
    the blocks have different names; a sub-discipline of the priority
    list comes before every later one of the list and before every
    sub-discipline outside the list, and two sub-disciplines outside
    the list come in the order of [localeCompare]. A name is listed
    when it is one of Anatomie, Histologie, Physiologie, Biochimie,
    Biophysique, and its index is its place in that sequence. *)
Theorem subgroup_order :
  forall lc : str -> str -> Z,
    Collation lc ->
    (forall data selectedModule blocks,
       Page.groupedBySubDisc lc data selectedModule = Some blocks ->
       StronglySorted (subBefore lc) (map fst blocks)
       /\ NoDup (map fst blocks))
    /\ (forall data modName allowed opts,
          Page.buildSvgDataForModule lc data modName allowed = Some opts ->
          StronglySorted (subBefore lc)
            (map SvgExport.sub_discipline (SvgExport.subDiscGroups opts))
          /\ NoDup (map SvgExport.sub_discipline (SvgExport.subDiscGroups opts)))
    /\ Page.order
       = [lit "Anatomie"; lit "Histologie"; lit "Physiologie"; lit "Biochimie";
          lit "Biophysique"]
    /\ (forall k, indexOf str_eqb Page.order k <> -1 <-> In k Page.order)
    /\ (forall k i, indexOf str_eqb Page.order k = i -> i <> -1 ->
          nth_error Page.order (Z.to_nat i) = Some k).
Proof.
  intros lc Hlc. split; [|split; [|split; [reflexivity|split]]].
  - intros data selectedModule blocks Hb. unfold Page.groupedBySubDisc in Hb.
    destruct (Page.groupAll [] (Page.filteredByModule data selectedModule))
      as [gr|] eqn:Hgr; [|discriminate].
    injection Hb as <-. split;
      [exact (sortGroups_sorted lc Hlc _ gr Hgr)
      | exact (sortGroups_keys_NoDup lc _ gr Hgr)].
  - intros data modName allowed opts Hb.
    destruct (buildSvgData_groups lc data modName allowed opts Hb)
      as [l [gr [Hgr ->]]].
    rewrite map_map. simpl. split;
      [exact (sortGroups_sorted lc Hlc l gr Hgr)
      | exact (sortGroups_keys_NoDup lc l gr Hgr)].
  - intros k. apply indexOf_listed.
  - intros k i <- Hi. unfold indexOf in *.
    destruct (indexOfFrom_spec Page.order 0 k ltac:(lia)) as [[H _] | [_ H]];
      [contradiction|].
    now rewrite Z.sub_0_r in H.
Qed.

(** C6 at the sample records, under code-unit collation: Anatomie,
    Histologie, then Embryologie before Semiologie. *)
Lemma subgroup_order_witness :
  StronglySorted (subBefore ordinalCompare)
    [lit "Anatomie"; lit "Histologie"; lit "Embryologie"; lit "Semiologie"].
Proof.
  destruct (subgroup_order ordinalCompare ordinalCompare_collation) as [H _].
  refine (proj1
          (H (Page.filteredData ordinalCompare sampleRecords [] []) (lit "Cardio")
            [ (lit "Anatomie",
               [topic "Anatomie" "A" 10 2021; topic "Anatomie" "B" 10 2021;
                topic "Anatomie" "C" 5 2022]);
              (lit "Histologie", [topic "Histologie" "E" 7 2020]);
              (lit "Embryologie", [topic "Embryologie" "F" 1 2020]);
              (lit "Semiologie", [topic "Semiologie" "D" 3 2022]) ] _)).
  vm_compute. reflexivity.
Defined.



(** *** What the template fragments depend on *)

Lemma template_app (p q : list SvgExport.chunk) :
  template (p ++ q) = template p ++ template q.
Proof. apply flat_map_app. Qed.

Lemma template_push (part : list SvgExport.chunk) (st : SvgExport.body) :
  template (List.concat (SvgExport.bodyParts (SvgExport.push part st)))
  = template (List.concat (SvgExport.bodyParts st)) ++ template part.
Proof.
  unfold SvgExport.push. simpl. rewrite concat_app, template_app. simpl.
  now rewrite app_nil_r.
Qed.

Lemma sameTemplate_advance (d : Z) (st1 st2 : SvgExport.body) :
  sameTemplate st1 st2 ->
  sameTemplate (SvgExport.advance d st1) (SvgExport.advance d st2).
Proof.
  intros [Hy Ht]. split; simpl; [now rewrite Hy | exact Ht].
Qed.

Lemma renderRow_template (accent : str) (gi top : Z) (st1 st2 : SvgExport.body)
    (e1 e2 : SvgExport.SvgCourseEntry) (idx : Z) :
  sameTemplate st1 st2 ->
  SvgExport.question_count e1 = SvgExport.question_count e2 ->
  sameTemplate (SvgExport.renderRow accent gi top st1 e1 idx)
    (SvgExport.renderRow accent gi top st2 e2 idx).
Proof.
  intros [Hy Ht] Hq. unfold SvgExport.renderRow. cbv zeta.
  apply sameTemplate_advance. split.
  - unfold SvgExport.push. simpl. exact Hy.
  - rewrite !template_push. unfold SvgExport.push. cbn [SvgExport.y].
    unfold SvgExport.barW, SvgExport.barPct. rewrite Ht, Hy, Hq. reflexivity.
Qed.

Lemma rows_template (accent : str) (gi top : Z)
    (shown1 shown2 : list SvgExport.SvgCourseEntry) :
  Forall2 (fun e1 e2 => SvgExport.question_count e1 = SvgExport.question_count e2)
    shown1 shown2 ->
  forall (i : Z) (st1 st2 : SvgExport.body),
    sameTemplate st1 st2 ->
    sameTemplate
      (SvgExport.forEachFrom (SvgExport.renderRow accent gi top) i shown1 st1)
      (SvgExport.forEachFrom (SvgExport.renderRow accent gi top) i shown2 st2).
Proof.
  induction 1 as [|e1 e2 r1 r2 Hq _ IH]; intros i st1 st2 Hst; simpl.
  - exact Hst.
  - apply IH. now apply renderRow_template.
Qed.

Lemma map_eq_Forall2 {A B : Type} (f : A -> B) (l1 l2 : list A) :
  map f l1 = map f l2 -> Forall2 (fun a b => f a = f b) l1 l2.
Proof.
  revert l2. induction l1 as [|x r IH]; intros [|y r2]; simpl; try discriminate.
  - constructor.
  - intros [= Hx Hr]. constructor; [exact Hx | now apply IH].
Qed.

Lemma map_slice {A B : Type} (f : A -> B) (l : list A) (k : Z) :
  map f (slice l 0 k) = slice (map f l) 0 k.
Proof.
  unfold slice, len. now rewrite length_map, skipn_map, firstn_map.
Qed.

Lemma blockView_inv (g1 g2 : SvgExport.SvgSubDiscGroup) :
  blockView g1 = blockView g2 ->
  SvgExport.lookupOr SvgExport.SUB_DISC_ACCENT (SvgExport.sub_discipline g1)
    SvgExport.BRAND_COLOR
  = SvgExport.lookupOr SvgExport.SUB_DISC_ACCENT (SvgExport.sub_discipline g2)
      SvgExport.BRAND_COLOR
  /\ SvgExport.lookupOr SvgExport.SUB_DISC_ICONS (SvgExport.sub_discipline g1)
       [55357; 56534]%N
     = SvgExport.lookupOr SvgExport.SUB_DISC_ICONS (SvgExport.sub_discipline g2)
         [55357; 56534]%N
  /\ len (SvgExport.sub_discipline g1) = len (SvgExport.sub_discipline g2)
  /\ map SvgExport.question_count (SvgExport.entries g1)
     = map SvgExport.question_count (SvgExport.entries g2).
Proof. unfold blockView. intros [= H1 H2 H3 H4]. auto. Qed.

Lemma maxQ_counts (shown : list SvgExport.SvgCourseEntry) :
  SvgExport.maxQ shown
  = match map SvgExport.question_count shown with
    | [] => 1
    | q :: _ => if q =? 0 then 1 else q
    end.
Proof. now destruct shown. Qed.

Lemma renderGroup_template (cap n : Z) (st1 st2 : SvgExport.body)
    (g1 g2 : SvgExport.SvgSubDiscGroup) (gi : Z) :
  blockView g1 = blockView g2 ->
  sameTemplate st1 st2 ->
  sameTemplate (SvgExport.renderGroup cap n st1 g1 gi)
    (SvgExport.renderGroup cap n st2 g2 gi).
Proof.
  intros Hv [Hy Ht]. destruct (blockView_inv g1 g2 Hv) as [Ha [Hi [Hl Hq]]].
  assert (Hs : map SvgExport.question_count (SvgExport.displayEntries cap g1)
               = map SvgExport.question_count (SvgExport.displayEntries cap g2)).
  { unfold SvgExport.displayEntries. now rewrite !map_slice, Hq. }
  assert (Hn : len (SvgExport.displayEntries cap g1)
               = len (SvgExport.displayEntries cap g2)).
  { unfold len. f_equal. apply (f_equal (@List.length Z)) in Hs.
    now rewrite !length_map in Hs. }
  assert (Hm : SvgExport.maxQ (SvgExport.displayEntries cap g1)
               = SvgExport.maxQ (SvgExport.displayEntries cap g2))
    by now rewrite !maxQ_counts, Hs.
  unfold SvgExport.renderGroup, SvgExport.forEach. cbv zeta.
  rewrite Ha, Hi, Hl, Hn, Hm.
  assert (Hrows :
    forall h1 h2,
      template h1 = template h2 ->
      sameTemplate
        (SvgExport.forEachFrom
           (SvgExport.renderRow
              (SvgExport.lookupOr SvgExport.SUB_DISC_ACCENT
                 (SvgExport.sub_discipline g2) SvgExport.BRAND_COLOR)
              gi (SvgExport.maxQ (SvgExport.displayEntries cap g2)))
           0 (SvgExport.displayEntries cap g1)
           (SvgExport.advance SvgExport.groupHeaderH (SvgExport.push h1 st1)))
        (SvgExport.forEachFrom
           (SvgExport.renderRow
              (SvgExport.lookupOr SvgExport.SUB_DISC_ACCENT
                 (SvgExport.sub_discipline g2) SvgExport.BRAND_COLOR)
              gi (SvgExport.maxQ (SvgExport.displayEntries cap g2)))
           0 (SvgExport.displayEntries cap g2)
           (SvgExport.advance SvgExport.groupHeaderH (SvgExport.push h2 st2)))).
  { intros h1 h2 Hh. apply rows_template; [now apply map_eq_Forall2|].
    apply sameTemplate_advance. split.
    - unfold SvgExport.push. simpl. exact Hy.
    - now rewrite !template_push, Ht, Hh. }
  destruct (gi <? n - 1); [apply sameTemplate_advance|];
    apply Hrows; cbn [template flat_map app]; now rewrite Hy.
Qed.

Lemma groups_template (cap n : Z) (gs1 gs2 : list SvgExport.SvgSubDiscGroup) :
  Forall2 (fun g1 g2 => blockView g1 = blockView g2) gs1 gs2 ->
  forall (i : Z) (st1 st2 : SvgExport.body),
    sameTemplate st1 st2 ->
    sameTemplate (SvgExport.forEachFrom (SvgExport.renderGroup cap n) i gs1 st1)
      (SvgExport.forEachFrom (SvgExport.renderGroup cap n) i gs2 st2).
Proof.
  induction 1 as [|g1 g2 r1 r2 Hv _ IH]; intros i st1 st2 Hst; simpl.
  - exact Hst.
  - apply IH. now apply renderGroup_template.
Qed.

Lemma effectiveMax_view (gs1 gs2 : list SvgExport.SvgSubDiscGroup) :
  map blockView gs1 = map blockView gs2 ->
  SvgExport.numGroups gs1 = SvgExport.numGroups gs2
  /\ SvgExport.effectiveMax gs1 = SvgExport.effectiveMax gs2.
Proof.
  intros Hv.
  assert (Hn : SvgExport.numGroups gs1 = SvgExport.numGroups gs2).
  { unfold SvgExport.numGroups, len. f_equal.
    apply (f_equal (@List.length _)) in Hv. now rewrite !length_map in Hv. }
  assert (Hslots : SvgExport.totalCourseSlots gs1 = SvgExport.totalCourseSlots gs2).
  { rewrite !totalCourseSlots_sum. f_equal. clear Hn.
    apply map_eq_Forall2 in Hv. induction Hv as [|g1 g2 r1 r2 Hg _ IH]; simpl;
      [reflexivity|].
    f_equal; [|exact IH]. f_equal.
    destruct (blockView_inv g1 g2 Hg) as [_ [_ [_ Hq]]].
    unfold len. f_equal. apply (f_equal (@List.length Z)) in Hq.
    now rewrite !length_map in Hq. }
  split; [exact Hn|].
  unfold SvgExport.effectiveMax, SvgExport.dynamicMaxCourses,
    SvgExport.spaceForCourses.
  now rewrite Hn, Hslots.
Qed.

Lemma barGradients_view (gs1 gs2 : list SvgExport.SvgSubDiscGroup) :
  Forall2 (fun g1 g2 => blockView g1 = blockView g2) gs1 gs2 ->
  forall i,
    SvgExport.mapIdxFrom SvgExport.barGradient i gs1
    = SvgExport.mapIdxFrom SvgExport.barGradient i gs2.
Proof.
  induction 1 as [|g1 g2 r1 r2 Hv _ IH]; intros i; simpl; [reflexivity|].
  rewrite IH. f_equal. unfold SvgExport.barGradient. cbv zeta.
  destruct (blockView_inv g1 g2 Hv) as [Ha _]. now rewrite Ha.
Qed.

(** The template fragments of the document are determined by the two
    totals and by the views of the blocks: no other part of the module
    name, of the range, of a block name or of a topic reaches them. *)
Theorem template_view (o1 o2 : SvgExport.SvgExportOptions) :
  optionsView o1 = optionsView o2 ->
  template (SvgExport.svgChunks o1) = template (SvgExport.svgChunks o2).
Proof.
  unfold optionsView. intros [= Hq Hy Hv].
  pose proof (map_eq_Forall2 _ _ _ Hv) as Hf.
  destruct (effectiveMax_view _ _ Hv) as [Hn Hcap].
  assert (Hbody : sameTemplate (SvgExport.renderBody (SvgExport.subDiscGroups o1))
                    (SvgExport.renderBody (SvgExport.subDiscGroups o2))).
  { unfold SvgExport.renderBody, SvgExport.forEach. rewrite Hn, Hcap.
    apply groups_template; [exact Hf|]. split; reflexivity. }
  destruct Hbody as [_ Hbody].
  unfold SvgExport.svgChunks. rewrite !template_app, Hbody.
  unfold SvgExport.defs, SvgExport.headerParts, SvgExport.footer. cbv zeta.
  rewrite (barGradients_view _ _ Hf), Hq, Hy. reflexivity.
Qed.

(** The colour or icon found under a name holds no reserved
    character, whatever the name. *)
Lemma inheritedText_plain (k : str) :
  inherited k = true -> forallb (fun u => negb (reserved u)) (inheritedText k) = true.
Proof.
  unfold inherited, includes. intros H.
  apply existsb_exists in H as [n [Hn E]]. apply str_eqb_eq in E. subst n.
  unfold objectPrototypeNames in Hn. simpl in Hn.
  repeat (destruct Hn as [<- | Hn]; [vm_compute; reflexivity|]).
  contradiction.
Qed.

Lemma lookupOr_plain (table : smap str) (k fallback : str) :
  forallb (fun p => forallb (fun u => negb (reserved u)) (snd p)) table = true ->
  forallb (fun u => negb (reserved u)) fallback = true ->
  forallb (fun u => negb (reserved u)) (SvgExport.lookupOr table k fallback) = true.
Proof.
  intros Ht Hf. unfold SvgExport.lookupOr.
  destruct (mapGet k table) as [v|] eqn:E.
  - destruct (str_eqb v []); [exact Hf|].
    apply mapGet_In in E. rewrite forallb_forall in Ht. exact (Ht _ E).
  - destruct (inherited k) eqn:Hi; [now apply inheritedText_plain | exact Hf].
Qed.

(** ** Escaping *)



(** ** Further properties of the aggregation *)

Lemma NoDup_map_on {A B : Type} (f : A -> B) (l : list A) :
  (forall x y, In x l -> In y l -> f x = f y -> x = y) ->
  NoDup l -> NoDup (map f l).
Proof.
  intros Hinj Hnd. induction Hnd as [|x r Hnot Hnd IH]; simpl; constructor.
  - intros Hin. apply in_map_iff in Hin as [y [E Hy]].
    assert (y = x) by (apply Hinj; [now right | now left | exact E]).
    subst y. contradiction.
  - apply IH. intros a b Ha Hb. apply Hinj; now right.
Qed.

Lemma entryKey_of_key (k : str) (l : list Page.GranularEntry) :
  In k (map Page.keyOf l) -> entryKey (Page.toCoursEntry (itemOf k l)) = k.
Proof.
  intros Hk. destruct (hasKey_filter_cons k l Hk) as [r0 [rest Hf]].
  destruct (entry_names k l r0 rest Hf) as [Hm [Hs [Hc [Hkey _]]]].
  unfold entryKey. rewrite Hm, Hs, Hc. exact Hkey.
Qed.

Lemma tripleOf_entryKey (d1 d2 : Page.CoursEntry) :
  tripleOf d1 = tripleOf d2 -> entryKey d1 = entryKey d2.
Proof.
  destruct d1, d2. unfold tripleOf, entryKey. simpl.
  intros E. injection E as -> -> ->. reflexivity.
Qed.

(** X1. No two entries of the output carry the same (module,
    sub-discipline, course) triple, whatever the records. *)
Theorem aggregation_triples_distinct :
  forall (lc : str -> str -> Z) (raw : list Page.GranularEntry)
         (types : list str) (promos : list Z),
    NoDup (map tripleOf (Page.filteredData lc raw types promos)).
Proof.
  intros lc raw types promos.
  apply (Permutation_NoDup
           (l := map tripleOf (Page.aggregated raw types promos))).
  - apply Permutation_map, Permutation_sym, filteredData_perm.
  - rewrite aggregated_spec. cbv zeta.
    set (filtered := filter (Page.keeps types promos) raw).
    rewrite map_map. apply NoDup_map_on; [|apply firstOccs_NoDup].
    intros k1 k2 H1 H2 E. rewrite firstOccs_In in H1, H2.
    pose proof (entryKey_of_key k1 filtered H1) as E1.
    pose proof (entryKey_of_key k2 filtered H2) as E2.
    apply tripleOf_entryKey in E. congruence.
Qed.

(** X2. The output is empty exactly when the filter keeps no record,
    and every kept record is counted in an entry: the one of its
    composite key. *)
Theorem aggregation_covers_kept_records :
  forall (lc : str -> str -> Z) (raw : list Page.GranularEntry)
         (types : list str) (promos : list Z),
    let filtered := filter (Page.keeps types promos) raw in
    (Page.filteredData lc raw types promos = [] <-> filtered = [])
    /\ (forall r, In r filtered ->
          exists d, In d (Page.filteredData lc raw types promos)
                    /\ entryKey d = Page.keyOf r)
    /\ (forall d, In d (Page.filteredData lc raw types promos) ->
          exists r, In r filtered /\ entryKey d = Page.keyOf r
                    /\ hasTriple d r = true).
Proof.
  intros lc raw types promos filtered.
  assert (Hcover : forall r, In r filtered ->
            exists d, In d (Page.filteredData lc raw types promos)
                      /\ entryKey d = Page.keyOf r).
  { intros r Hr.
    assert (Hk : In (Page.keyOf r) (map Page.keyOf filtered)) by now apply in_map.
    exists (Page.toCoursEntry (itemOf (Page.keyOf r) filtered)). split.
    - apply filteredData_In. rewrite aggregated_spec. fold filtered. cbv zeta.
      apply in_map_iff. exists (Page.keyOf r). split; [reflexivity|].
      now apply firstOccs_In.
    - now apply entryKey_of_key. }
  split; [|split; [exact Hcover|]].
  - split.
    + intros Hout. destruct filtered as [|r rest] eqn:Hf; [reflexivity|].
      destruct (Hcover r (or_introl eq_refl)) as [d [Hd _]].
      rewrite Hout in Hd. contradiction.
    + intros Hf. destruct (Page.filteredData lc raw types promos) as [|d out] eqn:Hout;
        [reflexivity|].
      assert (Hd : In d (Page.filteredData lc raw types promos))
        by (rewrite Hout; now left).
      apply filteredData_In in Hd. rewrite aggregated_spec in Hd.
      fold filtered in Hd. rewrite Hf in Hd. contradiction.
  - intros d Hd.
    destruct (aggregation_per_key lc raw types promos d Hd)
      as [k [first [rest [Hf [Hm [Hs [Hc _]]]]]]].
    fold filtered in Hf.
    assert (Hin : In first (filter (hasKey k) filtered)) by (rewrite Hf; now left).
    apply filter_In in Hin as [Hin _].
    exists first. split; [exact Hin|]. split.
    + unfold entryKey, Page.keyOf. now rewrite Hm, Hs, Hc.
    + now apply hasTriple_first.
Qed.

(** X3. Selecting every exam type and every year of the records gives
    the same output as selecting nothing. *)
Theorem full_selection_is_no_selection :
  forall (lc : str -> str -> Z) (raw : list Page.GranularEntry)
         (types : list str) (promos : list Z),
    (forall r, In r raw -> In (Page.et r) types /\ In (Page.ey r) promos) ->
    Page.filteredData lc raw types promos = Page.filteredData lc raw [] [].
Proof.
  intros lc raw types promos Hall.
  assert (Hf : filter (Page.keeps types promos) raw = filter (Page.keeps [] []) raw).
  { apply filter_ext_in. intros r Hr. destruct (Hall r Hr) as [Ht Hp].
    transitivity true; [|reflexivity].
    apply keeps_iff. split; right; assumption. }
  unfold Page.filteredData, Page.aggregated. now rewrite Hf.
Qed.

Lemma full_selection_witness :
  Page.filteredData ordinalCompare sampleRecords [lit "EMD1"] [2020; 2021; 2022]
  = Page.filteredData ordinalCompare sampleRecords [] [].
Proof.
  apply full_selection_is_no_selection.
  intros r Hr. simpl in Hr.
  repeat (destruct Hr as [<- | Hr]; [split; simpl; tauto|]). contradiction.
Defined.

Lemma sortBy_length {A : Type} (cmp : A -> A -> Z) (l : list A) :
  List.length (sortBy cmp l) = List.length l.
Proof. apply Permutation_length, sortBy_perm. Qed.

Lemma sortBy_numeric_ascending (l : list Z) :
  NoDup l -> ascendingZ (sortBy (fun a b => a - b) l).
Proof.
  intros Hnd. unfold ascendingZ.
  apply (StronglySorted_weaken (fun a b => a - b <= 0 /\ a <> b)); [intros; lia|].
  assert (Hs : StronglySorted (fun a b => a - b <= 0) (sortBy (fun a b => a - b) l))
    by (apply sortBy_sorted; intros; lia).
  assert (Hn : NoDup (sortBy (fun a b => a - b) l))
    by (apply (Permutation_NoDup (l := l));
        [apply Permutation_sym, sortBy_perm | exact Hnd]).
  induction Hs as [|x r Hs IH Hx]; constructor.
  - apply IH. now inversion Hn.
  - inversion Hn as [|? ? Hnot _]; subst. rewrite Forall_forall in *.
    intros y Hy. split; [now apply Hx|]. intros ->. contradiction.
Qed.



(** ** The module list of the page *)

Lemma setAddStr_In (x y : str) (s : list str) :
  In y (PageState.setAddStr x s) <-> y = x \/ In y s.
Proof.
  unfold PageState.setAddStr. destruct (existsb (str_eqb x) s) eqn:E.
  - apply existsb_str_In in E. split; [tauto|]. intros [-> | H]; assumption.
  - rewrite in_app_iff. simpl. split; [intros [H | [H | []]]; auto | intros [H | H]; auto].
Qed.

Lemma setAddStr_NoDup (x : str) (s : list str) :
  NoDup s -> NoDup (PageState.setAddStr x s).
Proof.
  intros Hnd. unfold PageState.setAddStr.
  destruct (existsb (str_eqb x) s) eqn:E; [assumption|].
  apply NoDup_app; [assumption | repeat constructor; simpl; tauto|].
  intros y Hy [<- | []]. apply existsb_str_In in Hy. congruence.
Qed.

Lemma strSet_snoc (ys : list str) (y : str) :
  strSet (ys ++ [y]) = PageState.setAddStr y (strSet ys).
Proof. unfold strSet. now rewrite fold_left_app. Qed.

Lemma strSet_In (ys : list str) (y : str) : In y (strSet ys) <-> In y ys.
Proof.
  induction ys as [|x ys IH] using rev_ind; [simpl; tauto|].
  rewrite strSet_snoc, setAddStr_In, in_app_iff, IH. simpl. intuition.
Qed.

Lemma strSet_NoDup (ys : list str) : NoDup (strSet ys).
Proof.
  induction ys as [|x ys IH] using rev_ind; [constructor|].
  rewrite strSet_snoc. now apply setAddStr_NoDup.
Qed.

Lemma hasModule_filter_nil (k : str) (l : list Page.CoursEntry) :
  ~ In k (map Page.module_name l) -> filter (hasModule k) l = [].
Proof.
  induction l as [|e r IH]; simpl; [reflexivity|].
  intros H. unfold hasModule at 1.
  assert (str_eqb (Page.module_name e) k = false) as -> by (apply str_eqb_neq; tauto).
  apply IH. tauto.
Qed.

Lemma infoOf_snoc_other (k : str) (l : list Page.CoursEntry) (d : Page.CoursEntry) :
  Page.module_name d <> k -> infoOf k (l ++ [d]) = infoOf k l.
Proof.
  intros H. unfold infoOf. rewrite filter_app. simpl.
  assert (hasModule k d = false) as -> by (unfold hasModule; now apply str_eqb_neq).
  now rewrite app_nil_r.
Qed.

Lemma infoOf_snoc_same (l : list Page.CoursEntry) (d : Page.CoursEntry) :
  infoOf (Page.module_name d) (l ++ [d])
  = let entry := infoOf (Page.module_name d) l in
    {| PageState.Info.subs :=
         PageState.setAddStr (Page.sub_discipline d) (PageState.Info.subs entry);
       PageState.Info.totalQ := PageState.Info.totalQ entry + Page.question_count d |}.
Proof.
  unfold infoOf. rewrite filter_app. simpl.
  assert (hasModule (Page.module_name d) d = true) as ->
    by (unfold hasModule; apply str_eqb_refl).
  cbv zeta. rewrite !map_app. simpl. rewrite strSet_snoc, sumZ_app. simpl.
  f_equal. lia.
Qed.

Lemma infoOf_fresh (k : str) (l : list Page.CoursEntry) :
  ~ In k (map Page.module_name l) ->
  infoOf k l = {| PageState.Info.subs := []; PageState.Info.totalQ := 0 |}.
Proof. intros H. unfold infoOf. now rewrite hasModule_filter_nil. Qed.

Lemma moduleMap_spec (l : list Page.CoursEntry) :
  fold_left PageState.moduleStep l []
  = map (fun k => (k, infoOf k l)) (firstOccs (map Page.module_name l)).
Proof.
  induction l as [|d l IH] using rev_ind; [reflexivity|].
  rewrite fold_left_app. simpl. rewrite IH.
  rewrite map_app. simpl. rewrite firstOccs_snoc.
  set (ks := firstOccs (map Page.module_name l)).
  unfold PageState.moduleStep, mapHas.
  destruct (existsb (str_eqb (Page.module_name d)) (map Page.module_name l)) eqn:Hin.
  - apply existsb_str_In in Hin.
    assert (Hks : In (Page.module_name d) ks) by now apply firstOccs_In.
    rewrite (mapGet_tabulate_in _ _ _ Hks). simpl.
    rewrite (mapGet_tabulate_in _ _ _ Hks).
    rewrite mapSet_tabulate_in by (try apply firstOccs_NoDup; assumption).
    apply map_ext_in. intros k' _. f_equal.
    destruct (str_eqb k' (Page.module_name d)) eqn:E.
    + apply str_eqb_eq in E. subst k'. now rewrite infoOf_snoc_same.
    + symmetry. apply infoOf_snoc_other. apply str_eqb_neq in E. congruence.
  - assert (Hnot : ~ In (Page.module_name d) (map Page.module_name l)).
    { intros H. apply existsb_str_In in H. congruence. }
    assert (Hks : ~ In (Page.module_name d) ks) by (unfold ks; now rewrite firstOccs_In).
    rewrite (mapGet_tabulate_out _ _ _ Hks). simpl.
    rewrite mapSet_tabulate_out by assumption.
    assert (Hfst : ~ In (Page.module_name d)
                     (map fst (map (fun k' => (k', infoOf k' l)) ks))).
    { now rewrite map_map, map_id. }
    rewrite mapGet_snoc_same by assumption.
    rewrite mapSet_snoc_same by assumption.
    rewrite map_app. simpl. f_equal.
    + apply map_ext_in. intros k' Hk'. f_equal. symmetry.
      apply infoOf_snoc_other. intros E. subst k'. contradiction.
    + rewrite infoOf_snoc_same, (infoOf_fresh _ l Hnot). reflexivity.
Qed.

Lemma moduleInfos_spec (data : list Page.CoursEntry) :
  PageState.moduleInfos data
  = map (fun k =>
           {| PageState.module_name := k;
              PageState.sub_disciplines :=
                sortBy ordinalCompare
                  (strSet (map Page.sub_discipline (filter (hasModule k) data)));
              PageState.total_questions :=
                sumZ (map Page.question_count (filter (hasModule k) data)) |})
        (firstOccs (map Page.module_name data)).
Proof.
  unfold PageState.moduleInfos. rewrite moduleMap_spec, map_map. reflexivity.
Qed.

Lemma moduleStep_total (mp : smap PageState.Info.item) (d : Page.CoursEntry) :
  sumZ (map (fun p => PageState.Info.totalQ (snd p)) (PageState.moduleStep mp d))
  = sumZ (map (fun p => PageState.Info.totalQ (snd p)) mp) + Page.question_count d.
Proof.
  unfold PageState.moduleStep, mapHas.
  destruct (mapGet (Page.module_name d) mp) as [v|] eqn:E; simpl.
  - rewrite E. rewrite mapSet_weight, E. simpl. lia.
  - rewrite mapGet_mapSet_same. rewrite !mapSet_weight, mapGet_mapSet_same, E.
    simpl. lia.
Qed.

(** X5. The module list has one item per module name of the data, all
    names present; an item's total is the sum of the question counts of
    that module's entries, so the totals add up to the sum over all
    entries. *)
Theorem modules_totals :
  forall (data : list Page.CoursEntry),
    NoDup (map PageState.module_name (PageState.modules data))
    /\ (forall k, In k (map PageState.module_name (PageState.modules data))
                  <-> In k (map Page.module_name data))
    /\ (forall mi, In mi (PageState.modules data) ->
          PageState.total_questions mi
          = sumZ (map Page.question_count
                    (filter (hasModule (PageState.module_name mi)) data)))
    /\ sumZ (map PageState.total_questions (PageState.modules data))
       = sumZ (map Page.question_count data).
Proof.
  intros data.
  assert (Hperm : Permutation (PageState.modules data) (PageState.moduleInfos data))
    by apply sortBy_perm.
  assert (Hnames : map PageState.module_name (PageState.moduleInfos data)
                   = firstOccs (map Page.module_name data)).
  { rewrite moduleInfos_spec, map_map. simpl. apply map_id. }
  split; [|split; [|split]].
  - apply (Permutation_NoDup (l := map PageState.module_name (PageState.moduleInfos data))).
    + apply Permutation_map, Permutation_sym, Hperm.
    + rewrite Hnames. apply firstOccs_NoDup.
  - intros k. rewrite <- (firstOccs_In (map Page.module_name data)), <- Hnames. split; apply Permutation_in;
      apply Permutation_map; [exact Hperm | apply Permutation_sym, Hperm].
  - intros mi Hmi. apply (Permutation_in _ Hperm) in Hmi.
    rewrite moduleInfos_spec in Hmi. apply in_map_iff in Hmi as [k [<- _]].
    reflexivity.
  - rewrite (sumZ_perm _ _ (Permutation_map _ Hperm)).
    unfold PageState.moduleInfos. rewrite map_map. simpl.
    assert (Hfold : forall l mp,
              sumZ (map (fun p => PageState.Info.totalQ (snd p))
                      (fold_left PageState.moduleStep l mp))
              = sumZ (map (fun p => PageState.Info.totalQ (snd p)) mp)
                + sumZ (map Page.question_count l)).
    { induction l as [|d l IH]; intros mp; simpl; [lia|].
      rewrite IH, moduleStep_total. lia. }
    rewrite Hfold. reflexivity.
Qed.

(** X6. The module list is ordered by total, largest first; modules
    with the same total stay in the order in which their names first
    appear in the data. *)
Theorem modules_ranked :
  forall (data : list Page.CoursEntry),
    StronglySorted
      (fun a b => PageState.total_questions b <= PageState.total_questions a)
      (PageState.modules data)
    /\ (forall n,
          map PageState.module_name
            (filter (fun mi => PageState.total_questions mi =? n) (PageState.modules data))
          = filter (fun k =>
                      sumZ (map Page.question_count (filter (hasModule k) data)) =? n)
              (firstOccs (map Page.module_name data))).
Proof.
  intros data. split.
  - apply (StronglySorted_weaken
             (fun a b => PageState.total_questions b - PageState.total_questions a <= 0));
      [intros; lia|].
    unfold PageState.modules. apply sortBy_sorted; intros; lia.
  - intros n. unfold PageState.modules. rewrite sortBy_stable.
    + rewrite moduleInfos_spec.
      induction (firstOccs (map Page.module_name data)) as [|k ks IH]; [reflexivity|].
      simpl. destruct (_ =? n); simpl; now rewrite IH.
    + intros x y Hx Hy. apply Z.eqb_eq in Hx, Hy. lia.
Qed.

Lemma sortBy_ordinal_ascending (l : list str) :
  NoDup l -> ascendingStr (sortBy ordinalCompare l).
Proof.
  intros Hnd. unfold ascendingStr.
  apply (StronglySorted_strict (fun a b => ordinalCompare a b <= 0)).
  - intros a b Hle Hne.
    destruct (Z.eq_dec (ordinalCompare a b) 0) as [E | E]; [|lia].
    apply ordinalCompare_eq in E. contradiction.
  - apply (Permutation_NoDup (l := l));
      [apply Permutation_sym, sortBy_perm | exact Hnd].
  - apply sortBy_sorted.
    + intros a b H. apply ordinalCompare_sym in H. lia.
    + apply ordinalCompare_le_trans.
Qed.

(** X7. The sub-disciplines listed for a module are exactly those of
    the module's entries, each once, in strictly ascending code-unit
    order. *)
Theorem modules_sub_disciplines :
  forall (data : list Page.CoursEntry) (mi : PageState.ModuleInfo),
    In mi (PageState.modules data) ->
    ascendingStr (PageState.sub_disciplines mi)
    /\ (forall sd, In sd (PageState.sub_disciplines mi) <->
          exists d, In d data
                    /\ Page.module_name d = PageState.module_name mi
                    /\ Page.sub_discipline d = sd).
Proof.
  intros data mi Hmi. unfold PageState.modules in Hmi.
  apply sortBy_In in Hmi. rewrite moduleInfos_spec in Hmi.
  apply in_map_iff in Hmi as [k [<- _]]. simpl. split.
  - apply sortBy_ordinal_ascending, strSet_NoDup.
  - intros sd. rewrite sortBy_In, strSet_In, in_map_iff. split.
    + intros [d [E Hd]]. apply filter_In in Hd as [Hd Hk].
      exists d. split; [exact Hd|]. split; [|exact E].
      now apply str_eqb_eq.
    + intros [d [Hd [Hk E]]]. exists d. split; [exact E|].
      apply filter_In. split; [exact Hd|]. unfold hasModule.
      rewrite Hk. apply str_eqb_refl.
Qed.

Lemma modules_sub_disciplines_witness :
  let mi := {| PageState.module_name := lit "Cardio";
               PageState.sub_disciplines :=
                 [lit "Anatomie"; lit "Embryologie"; lit "Histologie"; lit "Semiologie"];
               PageState.total_questions := 36 |} in
  ascendingStr (PageState.sub_disciplines mi)
  /\ (forall sd, In sd (PageState.sub_disciplines mi) <->
        exists d, In d (Page.filteredData ordinalCompare sampleRecords [] [])
                  /\ Page.module_name d = PageState.module_name mi
                  /\ Page.sub_discipline d = sd).
Proof.
  intros mi.
  apply (modules_sub_disciplines
           (Page.filteredData ordinalCompare sampleRecords [] []) mi).
  vm_compute. tauto.
Defined.

(** ** Selections of the page *)

(** X8. After the effect has run, the selected module is a module of
    the list, or the empty string when the list is empty; a selection
    that was already so is kept, hence running the effect again changes
    nothing. *)
Theorem selected_module_is_listed :
  forall (modules : list PageState.ModuleInfo) (selectedModule : str),
    let selected := PageState.selectedModuleEffect modules selectedModule in
    (modules <> [] -> In selected (map PageState.module_name modules))
    /\ (modules = [] -> selected = [])
    /\ (In selectedModule (map PageState.module_name modules) ->
        selected = selectedModule)
    /\ PageState.selectedModuleEffect modules selected = selected.
Proof.
  intros modules selectedModule selected.
  assert (Hex : forall s,
            existsb (fun m => str_eqb (PageState.module_name m) s) modules = true
            <-> In s (map PageState.module_name modules)).
  { intros s. rewrite existsb_exists, in_map_iff. split.
    - intros [m [Hm E]]. apply str_eqb_eq in E. eauto.
    - intros [m [E Hm]]. exists m. split; [exact Hm|]. rewrite E. apply str_eqb_refl. }
  assert (Hlisted : forall s, In s (map PageState.module_name modules) ->
            PageState.selectedModuleEffect modules s = s).
  { intros s Hs. unfold PageState.selectedModuleEffect.
    apply Hex in Hs. rewrite Hs. simpl. rewrite andb_false_r.
    destruct modules as [|m ms]; [discriminate|].
    unfold len. cbn [List.length].
    destruct (Z.eqb_spec (Z.of_nat (S (List.length ms))) 0); [lia | reflexivity]. }
  assert (Hnonempty : modules <> [] -> In selected (map PageState.module_name modules)).
  { intros Hne. subst selected. unfold PageState.selectedModuleEffect.
    destruct modules as [|m ms]; [congruence|].
    destruct (existsb _ (m :: ms)) eqn:E.
    - rewrite andb_false_r. apply Hex in E.
      unfold len. cbn [List.length].
      destruct (Z.eqb_spec (Z.of_nat (S (List.length ms))) 0); [lia | exact E].
    - unfold len. cbn [List.length].
      destruct (Z.ltb_spec 0 (Z.of_nat (S (List.length ms)))); [|lia].
      simpl. now left. }
  assert (Hempty : modules = [] -> selected = []).
  { intros ->. subst selected. unfold PageState.selectedModuleEffect. simpl.
    destruct (str_eqb selectedModule []) eqn:E; simpl; [|reflexivity].
    now apply str_eqb_eq in E. }
  split; [exact Hnonempty|]. split; [exact Hempty|]. split; [apply Hlisted|].
  destruct modules as [|m ms].
  - rewrite (Hempty eq_refl). reflexivity.
  - apply Hlisted, Hnonempty. discriminate.
Qed.

Section Toggle.
Context {A : Type} (eqb : A -> A -> bool).
Hypothesis eqb_spec : forall a b, eqb a b = true <-> a = b.

Lemma includes_In (l : list A) (x : A) : includes eqb l x = true <-> In x l.
Proof.
  unfold includes. rewrite existsb_exists. split.
  - intros [y [Hy E]]. apply eqb_spec in E. now subst.
  - intros H. exists x. split; [exact H | now apply eqb_spec].
Qed.

Variable toggle : A -> list A -> list A.
Hypothesis toggle_eq : forall x prev,
  toggle x prev
  = if includes eqb prev x then filter (fun t => negb (eqb t x)) prev else prev ++ [x].

Lemma toggle_In (x t : A) (prev : list A) :
  In t (toggle x prev) <-> (t = x /\ ~ In x prev) \/ (t <> x /\ In t prev).
Proof.
  rewrite toggle_eq. destruct (includes eqb prev x) eqn:E.
  - apply includes_In in E. rewrite filter_In, negb_true_iff. split.
    + intros [Ht Hne]. right. split; [|exact Ht]. intros ->.
      assert (eqb x x = true) by now apply eqb_spec. congruence.
    + intros [[-> Hn] | [Hne Ht]]; [contradiction|]. split; [exact Ht|].
      destruct (eqb t x) eqn:Et; [|reflexivity]. apply eqb_spec in Et. contradiction.
  - assert (Hn : ~ In x prev) by (intros H; apply includes_In in H; congruence).
    rewrite in_app_iff. simpl. split.
    + intros [Ht | [<- | []]]; [|now left]. right. split; [|exact Ht].
      intros ->. contradiction.
    + intros [[-> _] | [_ Ht]]; auto.
Qed.

Lemma toggle_NoDup (x : A) (prev : list A) : NoDup prev -> NoDup (toggle x prev).
Proof.
  intros Hnd. rewrite toggle_eq. destruct (includes eqb prev x) eqn:E.
  - now apply NoDup_filter.
  - apply NoDup_app; [assumption | repeat constructor; simpl; tauto|].
    intros y Hy [<- | []]. apply includes_In in Hy. congruence.
Qed.

Lemma toggle_twice_absent (x : A) (prev : list A) :
  ~ In x prev -> toggle x (toggle x prev) = prev.
Proof.
  intros Hn. rewrite (toggle_eq x prev).
  assert (includes eqb prev x = false) as ->.
  { destruct (includes eqb prev x) eqn:E; [|reflexivity].
    apply includes_In in E. contradiction. }
  rewrite toggle_eq.
  assert (includes eqb (prev ++ [x]) x = true) as ->
    by (apply includes_In, in_app_iff; right; now left).
  rewrite filter_app. simpl.
  assert (eqb x x = true) as -> by now apply eqb_spec. simpl.
  rewrite app_nil_r. apply forallb_filter_id, forallb_forall.
  intros t Ht. apply negb_true_iff. destruct (eqb t x) eqn:E; [|reflexivity].
  apply eqb_spec in E. subst. contradiction.
Qed.

End Toggle.

Lemma removed_not_included {A : Type} (eqb : A -> A -> bool)
    (eqb_spec : forall a b, eqb a b = true <-> a = b) (x : A) (prev : list A) :
  includes eqb (filter (fun t => negb (eqb t x)) prev) x = false.
Proof.
  destruct (includes eqb _ x) eqn:E; [|reflexivity].
  apply (includes_In eqb eqb_spec) in E. apply filter_In in E as [_ E].
  assert (eqb x x = true) by now apply eqb_spec.
  rewrite H in E. discriminate.
Qed.

Lemma str_eqb_iff (a b : str) : str_eqb a b = true <-> a = b.
Proof. split; [apply str_eqb_eq | intros ->; apply str_eqb_refl]. Qed.

(** X9. A toggle flips the membership of its argument and of nothing
    else, for exam types, years and exported sub-disciplines alike. *)
Theorem toggles_flip_membership :
  (forall (x t : str) (prev : list str),
      In t (PageState.toggleType x prev)
      <-> (t = x /\ ~ In x prev) \/ (t <> x /\ In t prev))
  /\ (forall (x t : Z) (prev : list Z),
      In t (PageState.togglePromo x prev)
      <-> (t = x /\ ~ In x prev) \/ (t <> x /\ In t prev))
  /\ (forall (x t : str) (prev : list str),
      In t (PageState.toggleExportSubDisc x prev)
      <-> (t = x /\ ~ In x prev) \/ (t <> x /\ In t prev)).
Proof.
  split; [|split]; intros x t prev.
  - apply (toggle_In str_eqb str_eqb_iff PageState.toggleType). reflexivity.
  - apply (toggle_In Z.eqb Z.eqb_eq PageState.togglePromo). reflexivity.
  - apply (toggle_In str_eqb str_eqb_iff PageState.toggleExportSubDisc). reflexivity.
Qed.

(** X10. Toggling the same value twice restores a selection that did
    not hold it; one that held it comes back with the value moved to
    the end. *)
Theorem toggling_twice :
  (forall (x : str) (prev : list str),
      PageState.toggleType x (PageState.toggleType x prev)
      = if includes str_eqb prev x
        then filter (fun t => negb (str_eqb t x)) prev ++ [x] else prev)
  /\ (forall (x : Z) (prev : list Z),
      PageState.togglePromo x (PageState.togglePromo x prev)
      = if includes Z.eqb prev x
        then filter (fun t => negb (Z.eqb t x)) prev ++ [x] else prev).
Proof.
  split; intros x prev.
  - destruct (includes str_eqb prev x) eqn:E.
    + unfold PageState.toggleType at 2. rewrite E.
      unfold PageState.toggleType.
      now rewrite (removed_not_included str_eqb str_eqb_iff).
    + apply (toggle_twice_absent str_eqb str_eqb_iff PageState.toggleType);
        [reflexivity|].
      intros H. apply (includes_In str_eqb str_eqb_iff) in H. congruence.
  - destruct (includes Z.eqb prev x) eqn:E.
    + unfold PageState.togglePromo at 2. rewrite E.
      unfold PageState.togglePromo.
      now rewrite (removed_not_included Z.eqb Z.eqb_eq).
    + apply (toggle_twice_absent Z.eqb Z.eqb_eq PageState.togglePromo);
        [reflexivity|].
      intros H. apply (includes_In Z.eqb Z.eqb_eq) in H. congruence.
Qed.

(** X11. A selection with distinct members stays so under every toggle. *)
Theorem toggles_keep_selection_distinct :
  forall (x : str) (y : Z) (types : list str) (promos : list Z),
    NoDup types -> NoDup promos ->
    NoDup (PageState.toggleType x types)
    /\ NoDup (PageState.togglePromo y promos)
    /\ NoDup (PageState.toggleExportSubDisc x types).
Proof.
  intros x y types promos Ht Hp. split; [|split].
  - now apply (toggle_NoDup str_eqb str_eqb_iff PageState.toggleType).
  - now apply (toggle_NoDup Z.eqb Z.eqb_eq PageState.togglePromo).
  - now apply (toggle_NoDup str_eqb str_eqb_iff PageState.toggleExportSubDisc).
Qed.

Lemma toggles_keep_selection_distinct_witness :
  NoDup (PageState.toggleType (lit "EMD1") [lit "EMD1"; lit "Rattrapage"])
  /\ NoDup (PageState.togglePromo 2021 [2020])
  /\ NoDup (PageState.toggleExportSubDisc (lit "EMD1") [lit "EMD1"; lit "Rattrapage"]).
Proof.
  apply toggles_keep_selection_distinct.
  - repeat constructor; simpl; intuition discriminate.
  - repeat constructor; simpl; tauto.
Defined.

(** ** The exam years shown in the header *)

Lemma addYears_In (ys years : list Z) (y : Z) :
  In y (fold_left (fun s x => setAdd x s) ys years) <-> In y ys \/ In y years.
Proof.
  revert years. induction ys as [|x ys IH]; intros years; simpl; [tauto|].
  rewrite IH, setAdd_In. intuition.
Qed.

Lemma addYears_NoDup (ys years : list Z) :
  NoDup years -> NoDup (fold_left (fun s x => setAdd x s) ys years).
Proof.
  revert years. induction ys as [|x ys IH]; intros years H; simpl; [exact H|].
  now apply IH, setAdd_NoDup.
Qed.

Lemma allYears_from_In (data : list Page.CoursEntry) (years : list Z) (y : Z) :
  In y (fold_left
          (fun years d =>
             fold_left (fun ys y => setAdd y ys) (Page.exam_years_list d) years)
          data years)
  <-> (exists d, In d data /\ In y (Page.exam_years_list d)) \/ In y years.
Proof.
  revert years. induction data as [|d data IH]; intros years; simpl.
  - split; [tauto|]. intros [[d [[] _]] | H]. exact H.
  - rewrite IH, addYears_In. split.
    + intros [[d' [Hd Hy]] | [Hy | Hy]]; eauto.
    + intros [[d' [[<- | Hd] Hy]] | Hy]; eauto.
Qed.

Lemma allYears_In (data : list Page.CoursEntry) (y : Z) :
  In y (Page.allYears data)
  <-> exists d, In d data /\ In y (Page.exam_years_list d).
Proof.
  unfold Page.allYears. rewrite allYears_from_In. simpl. tauto.
Qed.

Lemma allYears_NoDup (data : list Page.CoursEntry) : NoDup (Page.allYears data).
Proof.
  unfold Page.allYears. generalize (NoDup_nil Z). generalize (@nil Z) as years.
  induction data as [|d data IH]; intros years H; simpl; [exact H|].
  now apply IH, addYears_NoDup.
Qed.

Lemma entry_years_of_kept (lc : str -> str -> Z) (raw : list Page.GranularEntry)
    (types : list str) (promos : list Z) (y : Z) :
  (exists d, In d (Page.filteredData lc raw types promos)
             /\ In y (Page.exam_years_list d))
  <-> (exists r, In r raw /\ Page.keeps types promos r = true /\ Page.ey r = y).
Proof.
  split.
  - intros [d [Hd Hy]].
    destruct (aggregation_per_key lc raw types promos d Hd)
      as [k [first [rest [Hf [_ [_ [_ [_ [Hys _]]]]]]]]].
    rewrite Hys, sortBy_In, yearSet_In, in_map_iff in Hy.
    destruct Hy as [r [E Hr]]. rewrite <- Hf in Hr.
    apply filter_In in Hr as [Hr _]. apply filter_In in Hr as [Hr Hk].
    eauto.
  - intros [r [Hr [Hk E]]].
    set (filtered := filter (Page.keeps types promos) raw).
    assert (Hin : In r filtered) by (apply filter_In; now split).
    assert (Hkey : In (Page.keyOf r) (map Page.keyOf filtered)) by now apply in_map.
    exists (Page.toCoursEntry (itemOf (Page.keyOf r) filtered)). split.
    + apply filteredData_In. rewrite aggregated_spec. fold filtered. cbv zeta.
      apply in_map_iff. exists (Page.keyOf r). split; [reflexivity|].
      now apply firstOccs_In.
    + simpl. rewrite sortBy_In. unfold itemOf.
      destruct (filter (hasKey (Page.keyOf r)) filtered) as [|first rest] eqn:Hf.
      * assert (H : In r (filter (hasKey (Page.keyOf r)) filtered))
          by (apply filter_In; split; [exact Hin | unfold hasKey; apply str_eqb_refl]).
        rewrite Hf in H. contradiction.
      * simpl. apply yearSet_In. rewrite <- E.
        change (In (Page.ey r) (map Page.ey (first :: rest))).
        apply in_map. rewrite <- Hf. apply filter_In.
        split; [exact Hin | unfold hasKey; apply str_eqb_refl].
Qed.

(** X12. [totalExamYears] is the number of distinct years in the
    entries' year lists; on the output of the aggregation these are
    exactly the years of the records the filter keeps. *)
Theorem total_exam_years_counts_distinct_years :
  forall (data : list Page.CoursEntry),
    exists years : list Z,
      NoDup years
      /\ (forall y, In y years <->
            exists d, In d data /\ In y (Page.exam_years_list d))
      /\ Page.totalExamYears data = len years
      /\ (forall lc raw types promos,
            data = Page.filteredData lc raw types promos ->
            forall y, In y years <->
              exists r, In r raw /\ Page.keeps types promos r = true
                        /\ Page.ey r = y).
Proof.
  intros data. exists (Page.allYears data).
  split; [apply allYears_NoDup|]. split; [apply allYears_In|].
  split; [reflexivity|].
  intros lc raw types promos -> y.
  rewrite allYears_In. apply entry_years_of_kept.
Qed.

Lemma last_default {A : Type} (l : list A) (z d d' : A) :
  last (z :: l) d = last (z :: l) d'.
Proof.
  revert z. induction l as [|w l IH]; intros z; [reflexivity|].
  change (last (z :: w :: l) d) with (last (w :: l) d).
  change (last (z :: w :: l) d') with (last (w :: l) d'). apply IH.
Qed.

Lemma ascending_bounds (x : Z) (l : list Z) :
  ascendingZ (x :: l) ->
  forall y, In y (x :: l) -> x <= y <= last (x :: l) x.
Proof.
  revert x. induction l as [|z l IH]; intros x Hs y Hy.
  - destruct Hy as [<- | []]. simpl. lia.
  - inversion Hs as [|? ? Hs' Hx]; subst.
    assert (Hxz : x < z) by (inversion Hx; assumption).
    assert (Hlast : last (x :: z :: l) x = last (z :: l) z).
    { change (last (x :: z :: l) x) with (last (z :: l) x). apply last_default. }
    rewrite Hlast.
    assert (Hz : z <= z <= last (z :: l) z) by (apply IH; [exact Hs' | now left]).
    destruct Hy as [<- | Hy]; [lia|].
    specialize (IH z Hs' y Hy). lia.
Qed.

(** X13. The range shown in the header is empty exactly when no entry
    has a year; otherwise it is the smallest and the largest year of the
    entries, joined by an en dash. *)
Theorem exam_years_range_spans_years :
  forall (data : list Page.CoursEntry),
    (Page.examYearsRange data = [] <->
       forall d, In d data -> Page.exam_years_list d = [])
    /\ (forall d y, In d data -> In y (Page.exam_years_list d) ->
          exists lo hi,
            Page.examYearsRange data = ofZ lo ++ [8211%N] ++ ofZ hi
            /\ In lo (Page.allYears data) /\ In hi (Page.allYears data)
            /\ (forall y', In y' (Page.allYears data) -> lo <= y' <= hi)).
Proof.
  intros data.
  assert (Hsorted : ascendingZ (sortBy (fun a b => a - b) (Page.allYears data)))
    by apply sortBy_numeric_ascending, allYears_NoDup.
  assert (Hmem : forall y, In y (sortBy (fun a b => a - b) (Page.allYears data))
                           <-> In y (Page.allYears data)) by (intros; apply sortBy_In).
  unfold Page.examYearsRange. cbv zeta.
  destruct (sortBy (fun a b => a - b) (Page.allYears data)) as [|first rest] eqn:Hs.
  - split.
    + split; [|reflexivity]. intros _ d Hd.
      destruct (Page.exam_years_list d) as [|y ys] eqn:Hy; [reflexivity|].
      assert (H : In y (Page.allYears data))
        by (apply allYears_In; exists d; rewrite Hy; split; [exact Hd | now left]).
      apply Hmem in H. contradiction.
    + intros d y Hd Hy.
      assert (H : In y (Page.allYears data)) by (apply allYears_In; eauto).
      apply Hmem in H. contradiction.
  - split.
    + split.
      * intros H. apply (f_equal (@List.length N)) in H.
        rewrite !length_app in H. simpl in H. lia.
      * intros Hnone.
        assert (H : In first (Page.allYears data)) by (apply Hmem; now left).
        apply allYears_In in H as [d [Hd Hy]]. rewrite (Hnone d Hd) in Hy.
        contradiction.
    + intros _ _ _ _. exists first, (last (first :: rest) first).
      split; [reflexivity|]. split; [apply Hmem; now left|]. split.
      * apply Hmem. destruct (exists_last (l := first :: rest)) as [l' [a E]];
          [discriminate|].
        rewrite E, last_last. apply in_app_iff. right. now left.
      * intros y' Hy'. apply Hmem in Hy'. now apply ascending_bounds.
Qed.


(** ** The quick selections and the filter *)



(** X15. When no available type starts with EMD, [selectEMDOnly]
    selects nothing, and the page shows the records of every type: the
    output is the one of an empty selection. The same holds for
    [selectRattrapageOnly] when Rattrapage is not available, and for
    [deselectAllPromos], which shows every year. *)
Theorem empty_selection_shows_everything :
  forall (lc : str -> str -> Z) (raw : list Page.GranularEntry)
         (availableExamTypes : list str) (types : list str) (promos : list Z),
    (forall t, In t availableExamTypes -> startsWith (lit "EMD") t = false) ->
    ~ In (lit "Rattrapage") availableExamTypes ->
    Page.filteredData lc raw (PageState.selectEMDOnly availableExamTypes) promos
    = Page.filteredData lc raw [] promos
    /\ Page.filteredData lc raw (PageState.selectRattrapageOnly availableExamTypes) promos
       = Page.filteredData lc raw [] promos
    /\ (forall e, Page.keeps types PageState.deselectAllPromos e = true
                  <-> types = [] \/ In (Page.et e) types).
Proof.
  intros lc raw av types promos Hnone Hnot. split; [|split].
  - 
    assert (PageState.selectEMDOnly av = []) as ->; [|reflexivity].
    unfold PageState.selectEMDOnly.
    destruct (filter (fun t => startsWith (lit "EMD") t) av) as [|t r] eqn:E;
      [reflexivity|].
    assert (H : In t (filter (fun t => startsWith (lit "EMD") t) av))
      by (rewrite E; now left).
    apply filter_In in H as [H Hs]. rewrite (Hnone t H) in Hs. discriminate.
  - assert (PageState.selectRattrapageOnly av = []) as ->; [|reflexivity].
    unfold PageState.selectRattrapageOnly.
    destruct (filter (fun t => str_eqb t (lit "Rattrapage")) av) as [|t r] eqn:E;
      [reflexivity|].
    assert (H : In t (filter (fun t => str_eqb t (lit "Rattrapage")) av))
      by (rewrite E; now left).
    apply filter_In in H as [H Hs]. apply str_eqb_eq in Hs. subst t. contradiction.
  - intros e. rewrite keeps_iff. unfold PageState.deselectAllPromos. tauto.
Qed.

Lemma empty_selection_witness :
  let availableExamTypes := [lit "Synthese"] in
  Page.filteredData ordinalCompare sampleRecords
    (PageState.selectEMDOnly availableExamTypes) [2021]
  = Page.filteredData ordinalCompare sampleRecords [] [2021]
  /\ Page.filteredData ordinalCompare sampleRecords
       (PageState.selectRattrapageOnly availableExamTypes) [2021]
     = Page.filteredData ordinalCompare sampleRecords [] [2021]
  /\ (forall e, Page.keeps [lit "EMD1"] PageState.deselectAllPromos e = true
                <-> [lit "EMD1"] = [] \/ In (Page.et e) [lit "EMD1"]).
Proof.
  intros availableExamTypes.
  apply (empty_selection_shows_everything ordinalCompare sampleRecords
           availableExamTypes [lit "EMD1"] [2021]).
  - intros t [<- | []]. reflexivity.
  - intros [H | []]. discriminate.
Defined.

(** ** Further properties of the card *)

Lemma displayEntries_length (groups : list SvgExport.SvgSubDiscGroup)
    (g : SvgExport.SvgSubDiscGroup) :
  len (SvgExport.displayEntries (SvgExport.effectiveMax groups) g)
  = Z.min (SvgExport.effectiveMax groups) (len (SvgExport.entries g)).
Proof.
  pose proof (effectiveMax_bounds groups) as Hb.
  rewrite displayEntries_firstn. unfold len. rewrite length_firstn. lia.
Qed.

Lemma sumZ_le_each {A : Type} (f : A -> Z) (b : Z) (l : list A) :
  (forall x, In x l -> f x <= b) -> sumZ (map f l) <= b * len l.
Proof.
  unfold len. induction l as [|x l IH]; intros Hb; [simpl; lia|].
  cbn [map sumZ fold_right List.length].
  assert (f x <= b) by (apply Hb; now left).
  assert (sumZ (map f l) <= b * Z.of_nat (List.length l))
    by (apply IH; intros; apply Hb; now right).
  unfold sumZ in *. lia.
Qed.

Lemma sumZ_ge_each {A : Type} (f : A -> Z) (b : Z) (l : list A) :
  (forall x, In x l -> b <= f x) -> b * len l <= sumZ (map f l).
Proof.
  unfold len. induction l as [|x l IH]; intros Hb; [simpl; lia|].
  cbn [map sumZ fold_right List.length].
  assert (b <= f x) by (apply Hb; now left).
  assert (b * Z.of_nat (List.length l) <= sumZ (map f l))
    by (apply IH; intros; apply Hb; now right).
  unfold sumZ in *. lia.
Qed.

Lemma rows_within_space (groups : list SvgExport.SvgSubDiscGroup) :
  0 < len groups <= 6 ->
  0 < SvgExport.totalCourseSlots groups ->
  SvgExport.courseRowH * len groups * SvgExport.effectiveMax groups
  <= SvgExport.spaceForCourses groups.
Proof.
  intros Hn Hslots.
  unfold SvgExport.effectiveMax, SvgExport.dynamicMaxCourses.
  destruct (Z.ltb_spec 0 (SvgExport.totalCourseSlots groups)); [|lia].
  rewrite Qfloor_div_div by (unfold SvgExport.courseRowH, SvgExport.numGroups; lia).
  unfold SvgExport.spaceForCourses, SvgExport.numGroups, SvgExport.availableHeight,
    SvgExport.H, SvgExport.yBody, SvgExport.yDivider, SvgExport.yHeader, SvgExport.PAD,
    SvgExport.footerReserve, SvgExport.groupHeaderH, SvgExport.groupGap,
    SvgExport.courseRowH, SvgExport.MAX_COURSES.
  set (n := len groups) in *.
  set (space := 1080 - (48 + 44 + 60 + 28) - 60 - n * 32 - Z.max 0 (n - 1) * 20).
  assert (Hspace : 72 * n <= space) by (unfold space; lia).
  assert (Hq : 2 <= space / (36 * n)).
  { apply Z.div_le_lower_bound; lia. }
  assert (Hd : 36 * n * (space / (36 * n)) <= space)
    by (apply Z.mul_div_le; lia).
  assert (Hm : Z.min 5 (Z.max 2 (space / (36 * n))) <= space / (36 * n)) by lia.
  nia.
Qed.

(** X16. With at most six blocks the body ends above the footer: the
    cursor never passes [H - footerReserve]. *)
Theorem body_fits_up_to_six_blocks :
  forall groups : list SvgExport.SvgSubDiscGroup,
    len groups <= 6 ->
    SvgExport.y (SvgExport.renderBody groups)
    <= SvgExport.H - SvgExport.footerReserve.
Proof.
  intros groups Hn.
  destruct (renderBody_effect groups) as [Hy _]. cbv zeta in Hy. rewrite Hy.
  set (cap := SvgExport.effectiveMax groups).
  assert (Hlen : 0 <= len groups) by (unfold len; lia).
  destruct (Z.ltb_spec 0 (SvgExport.totalCourseSlots groups)) as [Hslots | Hslots].
  - assert (Hpos : 0 < len groups).
    { destruct groups; [|unfold len; simpl; lia]. vm_compute in Hslots. discriminate. }
    pose proof (rows_within_space groups (conj Hpos Hn) Hslots) as Hrows.
    fold cap in Hrows.
    assert (Hsum : sumZ (map (blockHeight cap) groups)
                   <= (SvgExport.groupHeaderH + SvgExport.courseRowH * cap) * len groups).
    { apply sumZ_le_each. intros g _. unfold blockHeight, cap.
      rewrite displayEntries_length. unfold SvgExport.courseRowH. lia. }
    unfold SvgExport.spaceForCourses, SvgExport.numGroups, SvgExport.availableHeight in Hrows.
    unfold SvgExport.H, SvgExport.yBody, SvgExport.yDivider, SvgExport.yHeader,
      SvgExport.PAD, SvgExport.footerReserve, SvgExport.groupHeaderH,
      SvgExport.groupGap, SvgExport.courseRowH in *.
    nia.
  - assert (Hnone : forall g, In g groups -> SvgExport.entries g = []).
    { intros g Hg. destruct (SvgExport.entries g) eqn:E; [reflexivity|].
      assert (0 < SvgExport.totalCourseSlots groups); [|lia].
      apply totalCourseSlots_pos. exists g. split; [exact Hg|]. congruence. }
    assert (Hsum : sumZ (map (blockHeight cap) groups)
                   <= SvgExport.groupHeaderH * len groups).
    { apply sumZ_le_each. intros g Hg. unfold blockHeight, cap.
      rewrite displayEntries_length, (Hnone g Hg).
      pose proof (effectiveMax_bounds groups).
      change (len (@nil SvgExport.SvgCourseEntry)) with 0.
      unfold SvgExport.courseRowH, SvgExport.groupHeaderH. lia. }
    unfold SvgExport.H, SvgExport.yBody, SvgExport.yDivider, SvgExport.yHeader,
      SvgExport.PAD, SvgExport.footerReserve, SvgExport.groupHeaderH,
      SvgExport.groupGap in *.
    lia.
Qed.

Lemma body_fits_witness :
  SvgExport.y (SvgExport.renderBody [anatomie; emptyBlock])
  <= SvgExport.H - SvgExport.footerReserve.
Proof.
  apply body_fits_up_to_six_blocks. vm_compute. discriminate.
Defined.

(** X17. With seven blocks or more, each of at least two entries, the
    body runs into the footer: the cap cannot go below two rows. *)
Theorem body_overflows_from_seven_blocks :
  forall groups : list SvgExport.SvgSubDiscGroup,
    7 <= len groups ->
    (forall g, In g groups -> 2 <= len (SvgExport.entries g)) ->
    SvgExport.H - SvgExport.footerReserve
    < SvgExport.y (SvgExport.renderBody groups).
Proof.
  intros groups Hn Hall.
  destruct (renderBody_effect groups) as [Hy _]. cbv zeta in Hy. rewrite Hy.
  set (cap := SvgExport.effectiveMax groups).
  assert (Hsum : (SvgExport.groupHeaderH + SvgExport.courseRowH * 2) * len groups
                 <= sumZ (map (blockHeight cap) groups)).
  { apply sumZ_ge_each. intros g Hg. unfold blockHeight, cap.
    rewrite displayEntries_length.
    pose proof (effectiveMax_bounds groups). specialize (Hall g Hg).
    unfold SvgExport.courseRowH. lia. }
  unfold SvgExport.H, SvgExport.yBody, SvgExport.yDivider, SvgExport.yHeader,
    SvgExport.PAD, SvgExport.footerReserve, SvgExport.groupHeaderH,
    SvgExport.groupGap, SvgExport.courseRowH in *.
  lia.
Qed.

Lemma body_overflows_witness :
  SvgExport.H - SvgExport.footerReserve
  < SvgExport.y (SvgExport.renderBody (repeat anatomie 7)).
Proof.
  apply body_overflows_from_seven_blocks.
  - vm_compute. discriminate.
  - intros g Hg. apply repeat_spec in Hg. subst g. vm_compute. discriminate.
Defined.

(** *** The bars *)

Lemma round_lower (x : Q) (lo : Z) : (inject_Z lo <= x)%Q -> lo <= SvgExport.round x.
Proof.
  intros Hlo. unfold SvgExport.round.
  rewrite <- (Qfloor_Z lo). apply Qfloor_resp_le.
  apply (Qle_trans _ x); [exact Hlo|].
  rewrite <- (Qplus_0_r x) at 1. apply Qplus_le_r. discriminate.
Qed.

Lemma round_upper (x : Q) (hi : Z) : (x <= inject_Z hi)%Q -> SvgExport.round x <= hi.
Proof.
  intros Hhi. unfold SvgExport.round.
  assert (Hh : Qfloor (inject_Z hi + (1 # 2))%Q = hi).
  { unfold Qfloor, Qplus, inject_Z. simpl.
    symmetry. apply (Z.div_unique _ _ _ 1); lia. }
  rewrite <- Hh. apply Qfloor_resp_le. now apply Qplus_le_l.
Qed.

Lemma barW_scale (top : Z) (e : SvgExport.SvgCourseEntry) :
  (inject_Z (SvgExport.contentW - 80) * (SvgExport.barPct top e / 100)
   == SvgExport.barPct top e * (904 # 100))%Q.
Proof.
  change (SvgExport.contentW - 80) with 904. unfold Qdiv.
  change (/ 100)%Q with (1 # 100)%Q. change (inject_Z 904) with (904 # 1)%Q.
  generalize (SvgExport.barPct top e). intros [n d].
  unfold Qeq, Qmult. cbn [Qnum Qden]. rewrite !Pos2Z.inj_mul. ring.
Qed.

Lemma barW_lower (top : Z) (e : SvgExport.SvgCourseEntry) :
  72 <= SvgExport.barW top e.
Proof.
  unfold SvgExport.barW. apply round_lower. rewrite barW_scale.
  apply (Qle_trans _ (8 * (904 # 100))%Q); [discriminate|].
  apply Qmult_le_compat_r; [|discriminate].
  unfold SvgExport.barPct. apply Q.le_max_l.
Qed.

Lemma barW_upper (top : Z) (e : SvgExport.SvgCourseEntry) :
  0 < top -> SvgExport.question_count e <= top -> SvgExport.barW top e <= 904.
Proof.
  intros Htop Hq. unfold SvgExport.barW. apply round_upper. rewrite barW_scale.
  apply (Qle_trans _ (100 * (904 # 100))%Q); [|discriminate].
  apply Qmult_le_compat_r; [|discriminate].
  unfold SvgExport.barPct. apply Q.max_lub; [discriminate|].
  apply (Qle_trans _ (1 * 100)%Q); [|discriminate].
  apply Qmult_le_compat_r; [|discriminate].
  apply Qle_shift_div_r; [unfold Qlt; simpl; lia|].
  rewrite Qmult_1_l. unfold Qle. simpl. lia.
Qed.

Lemma barW_full (top : Z) (e : SvgExport.SvgCourseEntry) :
  0 < top -> SvgExport.question_count e = top -> SvgExport.barW top e = 904.
Proof.
  intros Htop Hq. apply Z.le_antisymm; [apply barW_upper; lia|].
  unfold SvgExport.barW. apply round_lower. rewrite barW_scale.
  apply (Qle_trans _ (100 * (904 # 100))%Q); [discriminate|].
  apply Qmult_le_compat_r; [|discriminate].
  unfold SvgExport.barPct.
  apply (Qle_trans _ (inject_Z (SvgExport.question_count e) / inject_Z top * 100)%Q);
    [|apply Q.le_max_r].
  apply (Qle_trans _ (1 * 100)%Q); [discriminate|].
  apply Qmult_le_compat_r; [|discriminate].
  apply Qle_shift_div_l; [unfold Qlt; simpl; lia|].
  rewrite Qmult_1_l, Hq. apply Qle_refl.
Qed.

(** X18. Every bar is at least 72 wide. In a block whose rows are
    ranked by count, the first count not negative, no bar is wider than
    the bar area of 904, and the first row fills it when its count is
    positive. *)
Theorem bar_width_bounds :
  forall (shown : list SvgExport.SvgCourseEntry)
         (first : SvgExport.SvgCourseEntry) (rest : list SvgExport.SvgCourseEntry),
    shown = first :: rest ->
    StronglySorted
      (fun a b => SvgExport.question_count b <= SvgExport.question_count a) shown ->
    0 <= SvgExport.question_count first ->
    (forall top e, 72 <= SvgExport.barW top e)
    /\ (forall e, In e shown -> SvgExport.barW (SvgExport.maxQ shown) e <= 904)
    /\ (0 < SvgExport.question_count first ->
        SvgExport.barW (SvgExport.maxQ shown) first = 904).
Proof.
  intros shown first rest -> Hs Hfirst.
  apply StronglySorted_inv in Hs as [_ Hall]. rewrite Forall_forall in Hall.
  assert (Htop : 0 < SvgExport.maxQ (first :: rest)
                 /\ SvgExport.question_count first <= SvgExport.maxQ (first :: rest)).
  { unfold SvgExport.maxQ.
    destruct (Z.eqb_spec (SvgExport.question_count first) 0); lia. }
  split; [apply barW_lower|]. split.
  - intros e He. apply barW_upper; [tauto|].
    destruct He as [<- | He]; [tauto|]. specialize (Hall e He). lia.
  - intros Hpos. apply barW_full; [tauto|]. unfold SvgExport.maxQ.
    destruct (Z.eqb_spec (SvgExport.question_count first) 0); [lia | reflexivity].
Qed.

Lemma bar_width_bounds_witness :
  (forall top e, 72 <= SvgExport.barW top e)
  /\ (forall e, In e [heart; lung] ->
        SvgExport.barW (SvgExport.maxQ [heart; lung]) e <= 904)
  /\ (0 < SvgExport.question_count heart ->
      SvgExport.barW (SvgExport.maxQ [heart; lung]) heart = 904).
Proof.
  apply (bar_width_bounds [heart; lung] heart [lung] eq_refl).
  - repeat constructor. simpl. lia.
  - simpl. lia.
Defined.

(** *** Truncation and escaping in general *)

(** X19. For a budget of at least one character, truncating a
    truncated text changes nothing. *)
Theorem truncation_is_idempotent :
  forall (text : str) (maxChars : Z),
    1 <= maxChars ->
    SvgExport.truncateText (SvgExport.truncateText text maxChars) maxChars
    = SvgExport.truncateText text maxChars.
Proof.
  intros text maxChars Hn. apply truncateText_short. now apply truncateText_budget.
Qed.

Lemma truncation_is_idempotent_witness :
  SvgExport.truncateText (SvgExport.truncateText ampersandTopic 50) 50
  = SvgExport.truncateText ampersandTopic 50.
Proof. apply truncation_is_idempotent. lia. Defined.

Lemma slice_negative_stop {A : Type} (l : list A) (k : Z) :
  k < 0 -> slice l 0 k = firstn (Z.to_nat (len l + k)) l.
Proof.
  intros Hk. unfold slice, sliceIndex. cbv zeta.
  assert (Hlen : 0 <= len l) by (unfold len; lia).
  destruct (Z.ltb_spec 0 0); [lia|].
  destruct (Z.ltb_spec k 0); [|lia].
  replace (Z.min 0 (len l)) with 0 by lia. simpl skipn.
  f_equal. lia.
Qed.

(** X20. A budget below one character is not kept: a text longer than
    the budget loses its last [1 - maxChars] characters, as far as it
    has them, and gains the ellipsis, so the result is longer than the
    budget. *)
Theorem truncation_without_budget :
  forall (text : str) (maxChars : Z),
    maxChars <= 0 -> maxChars < len text ->
    SvgExport.truncateText text maxChars
    = firstn (Z.to_nat (len text + maxChars - 1)) text ++ [SvgExport.ellipsis]
    /\ len (SvgExport.truncateText text maxChars)
       = Z.max 0 (len text + maxChars - 1) + 1
    /\ maxChars < len (SvgExport.truncateText text maxChars).
Proof.
  intros text maxChars Hn Hlen.
  assert (E : SvgExport.truncateText text maxChars
              = firstn (Z.to_nat (len text + maxChars - 1)) text ++ [SvgExport.ellipsis]).
  { unfold SvgExport.truncateText.
    destruct (Z.leb_spec (len text) maxChars); [lia|].
    rewrite slice_negative_stop by lia. do 3 f_equal. lia. }
  split; [exact E|]. rewrite E. unfold len in *.
  rewrite length_app, length_firstn. simpl. lia.
Qed.

Lemma truncation_without_budget_witness :
  SvgExport.truncateText (lit "Heart") (-1)
  = firstn (Z.to_nat (len (lit "Heart") + -1 - 1)) (lit "Heart") ++ [SvgExport.ellipsis]
  /\ len (SvgExport.truncateText (lit "Heart") (-1))
     = Z.max 0 (len (lit "Heart") + -1 - 1) + 1
  /\ -1 < len (SvgExport.truncateText (lit "Heart") (-1)).
Proof.
  apply truncation_without_budget; [lia | vm_compute; reflexivity].
Defined.

Lemma escChar_plain (u : N) : reserved u = false -> escChar u = [u].
Proof.
  unfold reserved, escChar. intros H.
  repeat (apply orb_false_iff in H as [H ?]).
  now rewrite H, H3, H2, H1, H0.
Qed.

Lemma escChar_reserved (u : N) :
  reserved u = true -> (2 <= List.length (escChar u))%nat /\ In 38%N (escChar u).
Proof.
  unfold reserved, escChar. intros H.
  destruct (N.eqb u 38); [simpl; split; [lia | tauto]|].
  destruct (N.eqb u 60); [simpl; split; [lia | tauto]|].
  destruct (N.eqb u 62); [simpl; split; [lia | tauto]|].
  destruct (N.eqb u 34); [simpl; split; [lia | tauto]|].
  destruct (N.eqb u 39); [simpl; split; [lia | tauto]|].
  discriminate.
Qed.

Lemma esc_length (s : str) : (List.length s <= List.length (SvgExport.esc s))%nat.
Proof.
  rewrite esc_chars. induction s as [|u s IH]; simpl; [lia|].
  rewrite length_app. destruct (reserved u) eqn:E.
  - destruct (escChar_reserved u E). lia.
  - rewrite (escChar_plain u E). simpl. lia.
Qed.

Lemma esc_plain (s : str) :
  forallb (fun u => negb (reserved u)) s = true <-> SvgExport.esc s = s.
Proof.
  rewrite esc_chars. induction s as [|u s IH]; simpl; [tauto|].
  rewrite andb_true_iff, negb_true_iff, IH. split.
  - intros [Hu Hs]. now rewrite (escChar_plain u Hu), Hs.
  - intros E. destruct (reserved u) eqn:Hu.
    + destruct (escChar_reserved u Hu) as [Hlen _].
      apply (f_equal (@List.length N)) in E. rewrite length_app in E. simpl in E.
      pose proof (esc_length s) as Hs. rewrite esc_chars in Hs. lia.
    + rewrite (escChar_plain u Hu) in E. simpl in E. injection E as E.
      now split.
Qed.

(** X21. Escaping leaves a text unchanged exactly when it has none of
    the five reserved characters; it never shortens a text, distinct
    texts have distinct escapings, and escaping twice differs from
    escaping once as soon as a reserved character is present. *)
Theorem escaping_fixed_points :
  forall s : str,
    (SvgExport.esc s = s <-> forallb (fun u => negb (reserved u)) s = true)
    /\ len s <= len (SvgExport.esc s)
    /\ (forall s', SvgExport.esc s = SvgExport.esc s' -> s = s')
    /\ (SvgExport.esc (SvgExport.esc s) = SvgExport.esc s <-> SvgExport.esc s = s).
Proof.
  intros s.
  assert (Hinj : forall a b, SvgExport.esc a = SvgExport.esc b -> a = b).
  { intros a b E. pose proof (decode_esc a) as Ha. rewrite E, decode_esc in Ha.
    congruence. }
  split; [symmetry; apply esc_plain|]. split.
  - unfold len. pose proof (esc_length s). lia.
  - split; [apply Hinj|]. split; [apply Hinj | intros E; now rewrite !E].
Qed.

(** ** Grouping: failure, partition, and the export's selection *)

Lemma groupPush_keys (g : smap (list Page.CoursEntry)) (d : Page.CoursEntry)
    (g' : smap (list Page.CoursEntry)) :
  (forall k, In k (map fst g) -> inherited k = false) ->
  Page.groupPush g d = Some g' ->
  inherited (Page.sub_discipline d) = false
  /\ (forall k, In k (map fst g') -> inherited k = false).
Proof.
  intros Hg. unfold Page.groupPush. cbv zeta.
  destruct (mapGet (Page.sub_discipline d) g) as [arr|] eqn:E.
  - intros H. injection H as <-.
    assert (Hk : In (Page.sub_discipline d) (map fst g)).
    { apply mapGet_In in E. apply in_map_iff. now exists (Page.sub_discipline d, arr). }
    split; [now apply Hg|].
    intros k. rewrite mapSet_keys. unfold mapHas. rewrite E. apply Hg.
  - destruct (inherited (Page.sub_discipline d)) eqn:Hin; [discriminate|].
    intros H. injection H as <-. split; [reflexivity|].
    intros k. rewrite mapSet_keys. unfold mapHas. rewrite E.
    rewrite in_app_iff. intros [Hk | [<- | []]]; [now apply Hg | exact Hin].
Qed.

Lemma groupPush_fails (g : smap (list Page.CoursEntry)) (d : Page.CoursEntry) :
  (forall k, In k (map fst g) -> inherited k = false) ->
  Page.groupPush g d = None -> inherited (Page.sub_discipline d) = true.
Proof.
  intros Hg. unfold Page.groupPush. cbv zeta.
  destruct (mapGet (Page.sub_discipline d) g) as [arr|]; [discriminate|].
  now destruct (inherited (Page.sub_discipline d)).
Qed.

Lemma groupAll_fails (l : list Page.CoursEntry) :
  forall g0,
    (forall k, In k (map fst g0) -> inherited k = false) ->
    (Page.groupAll g0 l = None
     <-> exists d, In d l /\ inherited (Page.sub_discipline d) = true).
Proof.
  induction l as [|d l IH]; intros g0 Hg; simpl.
  - split; [discriminate | intros [d [[] _]]].
  - destruct (Page.groupPush g0 d) as [g'|] eqn:E.
    + destruct (groupPush_keys g0 d g' Hg E) as [Hd Hg'].
      rewrite (IH g' Hg'). split.
      * intros [d' [Hd' Hin]]. eauto.
      * intros [d' [[<- | Hd'] Hin]]; [congruence | eauto].
    + split; [|reflexivity]. intros _. exists d. split; [now left|].
      now apply (groupPush_fails g0).
Qed.

Lemma modEntries_In (data : list Page.CoursEntry) (modName : str)
    (allowed : option (list str)) (d : Page.CoursEntry) :
  In d (filter (fun d => permits allowed (Page.sub_discipline d))
          (filter (fun d => str_eqb (Page.module_name d) modName) data))
  <-> In d data /\ Page.module_name d = modName
      /\ permits allowed (Page.sub_discipline d) = true.
Proof.
  rewrite !filter_In. split.
  - intros [[Hd Hm] Hp]. apply str_eqb_eq in Hm. tauto.
  - intros [Hd [Hm Hp]]. rewrite Hm, str_eqb_refl. tauto.
Qed.

Lemma buildSvgData_entries (lc : str -> str -> Z) (data : list Page.CoursEntry)
    (modName : str) (allowed : option (list str)) :
  Page.buildSvgDataForModule lc data modName allowed
  = let modEntries :=
      filter (fun d => permits allowed (Page.sub_discipline d))
        (filter (fun d => str_eqb (Page.module_name d) modName) data) in
    match Page.groupAll [] modEntries with
    | Some groups =>
        Some {| SvgExport.moduleName := modName;
                SvgExport.totalQuestions := totalSubQ modEntries;
                SvgExport.examYearsRange := Page.examYearsRange data;
                SvgExport.totalExamYears := Page.totalExamYears data;
                SvgExport.subDiscGroups := map toSvgGroup (Page.sortGroups lc groups) |}
    | None => None
    end.
Proof.
  assert (Hall : forall l : list Page.CoursEntry, filter (fun _ => true) l = l).
  { intros l. apply forallb_filter_id, forallb_forall. reflexivity. }
  unfold Page.buildSvgDataForModule, permits. cbv zeta.
  destruct allowed as [allowed|]; [destruct (0 <? len allowed)|];
    rewrite ?Hall; reflexivity.
Qed.

(** X22. Grouping throws exactly when an entry it is given has a
    sub-discipline named like a member of [Object.prototype]: the page
    then has no blocks for the module, the export builds no data, and
    [handleExportFinal] logs the error instead of downloading. *)
Theorem grouping_throws_on_inherited_names :
  forall (lc : str -> str -> Z) (toLowerCase : str -> str)
         (data : list Page.CoursEntry) (modName : str),
    (Page.groupedBySubDisc lc data modName = None
     <-> exists d, In d data /\ Page.module_name d = modName
                   /\ inherited (Page.sub_discipline d) = true)
    /\ (forall allowed,
          Page.buildSvgDataForModule lc data modName allowed = None
          <-> exists d, In d data /\ Page.module_name d = modName
                        /\ permits allowed (Page.sub_discipline d) = true
                        /\ inherited (Page.sub_discipline d) = true)
    /\ (forall exporting subDiscs,
          PageState.handleExportFinal lc toLowerCase data exporting modName subDiscs
          = PageState.Failed
          <-> exporting = false /\ modName <> [] /\ subDiscs <> []
              /\ exists d, In d data /\ Page.module_name d = modName
                           /\ In (Page.sub_discipline d) subDiscs
                           /\ inherited (Page.sub_discipline d) = true).
Proof.
  intros lc toLowerCase data modName.
  assert (Hbuild : forall allowed,
            Page.buildSvgDataForModule lc data modName allowed = None
            <-> exists d, In d data /\ Page.module_name d = modName
                          /\ permits allowed (Page.sub_discipline d) = true
                          /\ inherited (Page.sub_discipline d) = true).
  { intros allowed. rewrite buildSvgData_entries. cbv zeta.
    destruct (Page.groupAll [] _) as [g|] eqn:E.
    - split; [discriminate|]. intros [d [Hd [Hm [Hp Hin]]]].
      assert (Hnone : Page.groupAll [] (filter (fun d => permits allowed (Page.sub_discipline d))
                        (filter (fun d => str_eqb (Page.module_name d) modName) data)) = None).
      { apply groupAll_fails; [intros k []|]. exists d. split; [|exact Hin].
        apply modEntries_In. tauto. }
      congruence.
    - split; [|reflexivity]. intros _.
      apply groupAll_fails in E as [d [Hd Hin]]; [|intros k []].
      apply modEntries_In in Hd. exists d. tauto. }
  split; [|split; [exact Hbuild|]].
  - unfold Page.groupedBySubDisc, Page.filteredByModule.
    destruct (Page.groupAll [] _) as [g|] eqn:E.
    + split; [discriminate|]. intros [d [Hd [Hm Hin]]].
      assert (Hnone : Page.groupAll []
                (filter (fun d => str_eqb (Page.module_name d) modName) data) = None).
      { apply groupAll_fails; [intros k []|]. exists d. split; [|exact Hin].
        apply filter_In. split; [exact Hd|]. rewrite Hm. apply str_eqb_refl. }
      congruence.
    + split; [|reflexivity]. intros _.
      apply groupAll_fails in E as [d [Hd Hin]]; [|intros k []].
      apply filter_In in Hd as [Hd Hm]. apply str_eqb_eq in Hm. eauto.
  - intros exporting subDiscs. unfold PageState.handleExportFinal.
    assert (Hlen : len subDiscs = 0 <-> subDiscs = []).
    { unfold len. destruct subDiscs; simpl; split;
        try reflexivity; try discriminate; lia. }
    assert (Hpermits : forall k, subDiscs <> [] ->
              permits (Some subDiscs) k = true <-> In k subDiscs).
    { intros k Hne. unfold permits.
      destruct (Z.ltb_spec 0 (len subDiscs)) as [_ | Hz].
      - unfold includes. apply existsb_str_In.
      - destruct subDiscs; [congruence|]. unfold len in Hz. simpl in Hz. lia. }
    destruct exporting; simpl.
    { split; [discriminate | intros [H _]; discriminate]. }
    destruct (str_eqb modName []) eqn:Em; simpl.
    { apply str_eqb_eq in Em. split; [discriminate | tauto]. }
    apply str_eqb_neq in Em.
    destruct (Z.eqb_spec (len subDiscs) 0) as [El | El].
    { apply Hlen in El. split; [discriminate | tauto]. }
    assert (Hne : subDiscs <> []) by (intros H; apply Hlen in H; contradiction).
    destruct (Page.buildSvgDataForModule lc data modName (Some subDiscs)) as [opts|] eqn:Eb.
    + split; [discriminate|]. intros [_ [_ [_ [d [Hd [Hm [Hs Hin]]]]]]].
      assert (Hnone : Page.buildSvgDataForModule lc data modName (Some subDiscs) = None).
      { apply Hbuild. exists d. rewrite Hpermits by exact Hne. tauto. }
      congruence.
    + split; [|reflexivity]. intros _.
      apply Hbuild in Eb as [d [Hd [Hm [Hp Hin]]]].
      rewrite Hpermits in Hp by exact Hne.
      repeat split; try assumption. eauto.
Qed.

Lemma totalSubQ_sum (entries : list Page.CoursEntry) :
  totalSubQ entries = sumZ (map Page.question_count entries).
Proof. unfold totalSubQ. rewrite fold_left_sum. lia. Qed.

Lemma blocks_total (blocks : list (str * list Page.CoursEntry)) :
  sumZ (map (fun b => totalSubQ (snd b)) blocks)
  = sumZ (map Page.question_count (flat_map snd blocks)).
Proof.
  induction blocks as [|b blocks IH]; [reflexivity|]. simpl.
  rewrite map_app, sumZ_app, totalSubQ_sum, IH. reflexivity.
Qed.

Lemma flat_map_filter_other (ks : list str) (d : Page.CoursEntry)
    (r : list Page.CoursEntry) :
  ~ In (Page.sub_discipline d) ks ->
  flat_map (fun k => filter (hasSub k) (d :: r)) ks
  = flat_map (fun k => filter (hasSub k) r) ks.
Proof.
  induction ks as [|k ks IH]; intros Hnot; [reflexivity|]. simpl in *.
  assert (hasSub k d = false) as ->
    by (unfold hasSub; apply str_eqb_neq; intros E; apply Hnot; now left).
  rewrite IH by tauto. reflexivity.
Qed.

Lemma flat_map_filter_cons (ks : list str) (d : Page.CoursEntry)
    (r : list Page.CoursEntry) :
  NoDup ks -> In (Page.sub_discipline d) ks ->
  Permutation (flat_map (fun k => filter (hasSub k) (d :: r)) ks)
    (d :: flat_map (fun k => filter (hasSub k) r) ks).
Proof.
  induction ks as [|k ks IH]; intros Hnd Hin; [contradiction|].
  inversion Hnd as [|? ? Hnot Hnd']; subst.
  change (flat_map (fun k0 => filter (hasSub k0) (d :: r)) (k :: ks))
    with (filter (hasSub k) (d :: r)
          ++ flat_map (fun k0 => filter (hasSub k0) (d :: r)) ks).
  change (flat_map (fun k0 => filter (hasSub k0) r) (k :: ks))
    with (filter (hasSub k) r ++ flat_map (fun k0 => filter (hasSub k0) r) ks).
  change (filter (hasSub k) (d :: r))
    with (if hasSub k d then d :: filter (hasSub k) r else filter (hasSub k) r).
  destruct (hasSub k d) eqn:E; unfold hasSub in E.
  - apply str_eqb_eq in E. subst k.
    rewrite flat_map_filter_other by exact Hnot. reflexivity.
  - apply str_eqb_neq in E. destruct Hin as [Hin | Hin]; [congruence|].
    rewrite (IH Hnd' Hin). symmetry. apply Permutation_middle.
Qed.

Lemma groups_partition (l : list Page.CoursEntry) :
  forall ks, NoDup ks -> (forall d, In d l -> In (Page.sub_discipline d) ks) ->
    Permutation (flat_map (fun k => filter (hasSub k) l) ks) l.
Proof.
  induction l as [|d r IH]; intros ks Hnd Hall.
  - induction ks as [|k ks IHk]; [constructor | simpl; apply IHk; now inversion Hnd].
  - rewrite flat_map_filter_cons; [|exact Hnd | apply Hall; now left].
    constructor. apply IH; [exact Hnd|]. intros; apply Hall; now right.
Qed.

Lemma sortGroups_partition (lc : str -> str -> Z) (l : list Page.CoursEntry)
    (g : smap (list Page.CoursEntry)) :
  Page.groupAll [] l = Some g ->
  Permutation (flat_map snd (Page.sortGroups lc g)) l
  /\ (forall k, In k (map fst (Page.sortGroups lc g))
                <-> In k (map Page.sub_discipline l)).
Proof.
  intros Hg. pose proof (groupAll_spec l g Hg) as Hspec.
  pose proof (sortGroups_perm lc g) as Hperm. split.
  - rewrite (Permutation_flat_map snd Hperm), Hspec, flat_map_concat_map, map_map.
    simpl. rewrite <- flat_map_concat_map.
    apply groups_partition; [apply firstOccs_NoDup|].
    intros d Hd. apply firstOccs_In. now apply in_map.
  - intros k. rewrite <- (firstOccs_In (map Page.sub_discipline l)).
    assert (Hkeys : map fst g = firstOccs (map Page.sub_discipline l)).
    { rewrite Hspec at 1. rewrite map_map. simpl. apply map_id. }
    rewrite <- Hkeys. split; apply Permutation_in; apply Permutation_map;
      [exact Hperm | apply Permutation_sym, Hperm].
Qed.

Lemma modules_In_spec (data : list Page.CoursEntry) (mi : PageState.ModuleInfo) :
  In mi (PageState.modules data) ->
  In (PageState.module_name mi) (map Page.module_name data)
  /\ PageState.sub_disciplines mi
     = sortBy ordinalCompare
         (strSet (map Page.sub_discipline
                    (filter (hasModule (PageState.module_name mi)) data)))
  /\ PageState.total_questions mi
     = sumZ (map Page.question_count
               (filter (hasModule (PageState.module_name mi)) data)).
Proof.
  intros Hmi. unfold PageState.modules in Hmi. apply sortBy_In in Hmi.
  rewrite moduleInfos_spec in Hmi. apply in_map_iff in Hmi as [k [<- Hk]].
  rewrite firstOccs_In in Hk. simpl. split; [exact Hk|]. split; reflexivity.
Qed.

(** X23. The blocks of the page partition the entries of the selected
    module: every entry is in the block of its sub-discipline, so the
    totals of the block headers add up to the module's
    [total_questions], and the blocks are named by the module's
    [sub_disciplines]. *)
Theorem blocks_partition_module :
  forall (lc : str -> str -> Z) (data : list Page.CoursEntry)
         (selectedModule : str) (blocks : list (str * list Page.CoursEntry)),
    Page.groupedBySubDisc lc data selectedModule = Some blocks ->
    Permutation (flat_map snd blocks) (Page.filteredByModule data selectedModule)
    /\ (forall k es d, In (k, es) blocks -> In d es -> Page.sub_discipline d = k)
    /\ sumZ (map (fun b => totalSubQ (snd b)) blocks)
       = sumZ (map Page.question_count (Page.filteredByModule data selectedModule))
    /\ (forall mi, In mi (PageState.modules data) ->
          PageState.module_name mi = selectedModule ->
          PageState.total_questions mi
          = sumZ (map (fun b => totalSubQ (snd b)) blocks)
          /\ (forall k, In k (PageState.sub_disciplines mi) <-> In k (map fst blocks))).
Proof.
  intros lc data sel blocks Hb.
  pose proof (block_entries lc data sel blocks) as Hentries.
  unfold Page.groupedBySubDisc in Hb.
  destruct (Page.groupAll [] (Page.filteredByModule data sel)) as [g|] eqn:Hg;
    [|discriminate].
  injection Hb as <-.
  destruct (sortGroups_partition lc _ g Hg) as [Hperm Hkeys].
  assert (Hsum : sumZ (map (fun b => totalSubQ (snd b)) (Page.sortGroups lc g))
                 = sumZ (map Page.question_count (Page.filteredByModule data sel))).
  { rewrite blocks_total. apply sumZ_perm, Permutation_map, Hperm. }
  split; [exact Hperm|]. split; [|split; [exact Hsum|]].
  - intros k es d Hin Hd.
    assert (Hes : es = filter (fun d => str_eqb (Page.module_name d) sel && hasSub k d) data).
    { apply Hentries; [|exact Hin]. unfold Page.groupedBySubDisc. now rewrite Hg. }
    rewrite Hes in Hd. apply filter_In in Hd as [_ Hd].
    apply andb_true_iff in Hd as [_ Hd]. now apply str_eqb_eq.
  - intros mi Hmi Hname.
    destruct (modules_In_spec data mi Hmi) as [_ [Hsubs Htotal]].
    rewrite Hname in Hsubs, Htotal. split.
    + rewrite Htotal, Hsum. reflexivity.
    + intros k. rewrite Hsubs, sortBy_In, strSet_In, Hkeys. reflexivity.
Qed.

Lemma blocks_partition_witness :
  let data := Page.filteredData ordinalCompare sampleRecords [] [] in
  let blocks :=
    [ (lit "Anatomie",
       [topic "Anatomie" "A" 10 2021; topic "Anatomie" "B" 10 2021;
        topic "Anatomie" "C" 5 2022]);
      (lit "Histologie", [topic "Histologie" "E" 7 2020]);
      (lit "Embryologie", [topic "Embryologie" "F" 1 2020]);
      (lit "Semiologie", [topic "Semiologie" "D" 3 2022]) ] in
  Permutation (flat_map snd blocks) (Page.filteredByModule data (lit "Cardio"))
  /\ sumZ (map (fun b => totalSubQ (snd b)) blocks)
     = sumZ (map Page.question_count (Page.filteredByModule data (lit "Cardio"))).
Proof.
  intros data blocks.
  assert (Hb : Page.groupedBySubDisc ordinalCompare data (lit "Cardio") = Some blocks)
    by (vm_compute; reflexivity).
  destruct (blocks_partition_module ordinalCompare data (lit "Cardio") blocks Hb)
    as [Hperm [_ [Hsum _]]].
  split; assumption.
Defined.

(** *** Sorting commutes with filtering *)

Section SortFilter.
Context {A : Type} (cmp : A -> A -> Z).
Hypothesis cmp_total : forall a b, 0 < cmp a b -> cmp b a <= 0.
Hypothesis cmp_trans : forall a b c, cmp a b <= 0 -> cmp b c <= 0 -> cmp a c <= 0.

Lemma insertBy_least (x : A) (s : list A) :
  (forall z, In z s -> cmp x z <= 0) -> insertBy cmp x s = x :: s.
Proof.
  destruct s as [|y s]; [reflexivity|]. intros H. simpl.
  destruct (Z.leb_spec (cmp x y) 0); [reflexivity|].
  specialize (H y (or_introl eq_refl)). lia.
Qed.

Lemma filter_insertBy (p : A -> bool) (x : A) (s : list A) :
  StronglySorted (fun a b => cmp a b <= 0) s ->
  filter p (insertBy cmp x s)
  = if p x then insertBy cmp x (filter p s) else filter p s.
Proof.
  induction 1 as [|y s Hs IH Hy]; simpl.
  - destruct (p x); reflexivity.
  - rewrite Forall_forall in Hy.
    destruct (Z.leb_spec (cmp x y) 0) as [Hxy | Hxy]; simpl.
    + destruct (p x) eqn:Px; [|reflexivity].
      destruct (p y) eqn:Py.
      * simpl. destruct (Z.leb_spec (cmp x y) 0); [reflexivity | lia].
      * symmetry. apply insertBy_least. intros z Hz.
        apply filter_In in Hz as [Hz _]. apply (cmp_trans x y z Hxy). now apply Hy.
    + rewrite IH. destruct (p y) eqn:Py; [|reflexivity].
      destruct (p x); [|reflexivity]. simpl.
      destruct (Z.leb_spec (cmp x y) 0); [lia | reflexivity].
Qed.

Lemma filter_sortBy (p : A -> bool) (l : list A) :
  filter p (sortBy cmp l) = sortBy cmp (filter p l).
Proof.
  induction l as [|x l IH]; [reflexivity|].
  change (sortBy cmp (x :: l)) with (insertBy cmp x (sortBy cmp l)).
  rewrite filter_insertBy by now apply sortBy_sorted.
  simpl. destruct (p x); [|exact IH].
  change (sortBy cmp (x :: filter p l)) with (insertBy cmp x (sortBy cmp (filter p l))).
  now rewrite IH.
Qed.

End SortFilter.

Lemma insertBy_ext_in {A : Type} (cmp1 cmp2 : A -> A -> Z) (x : A) (s : list A) :
  (forall y, In y s -> cmp1 x y = cmp2 x y) ->
  insertBy cmp1 x s = insertBy cmp2 x s.
Proof.
  induction s as [|y s IH]; intros H; [reflexivity|]. simpl.
  rewrite (H y (or_introl eq_refl)), IH; [reflexivity|].
  intros; apply H; now right.
Qed.

Lemma sortBy_ext_in {A : Type} (cmp1 cmp2 : A -> A -> Z) (l : list A) :
  (forall x y, In x l -> In y l -> cmp1 x y = cmp2 x y) ->
  sortBy cmp1 l = sortBy cmp2 l.
Proof.
  induction l as [|x l IH]; intros H; [reflexivity|].
  change (sortBy cmp1 (x :: l)) with (insertBy cmp1 x (sortBy cmp1 l)).
  change (sortBy cmp2 (x :: l)) with (insertBy cmp2 x (sortBy cmp2 l)).
  rewrite IH by (intros; apply H; now right).
  apply insertBy_ext_in. intros y Hy. apply sortBy_In in Hy.
  apply H; [now left | now right].
Qed.

Lemma filter_comm {A : Type} (p q : A -> bool) (l : list A) :
  filter p (filter q l) = filter q (filter p l).
Proof.
  rewrite !filter_both. apply filter_ext. intros x. apply andb_comm.
Qed.

Lemma objectEntries_filter {V : Type} (p : str * V -> bool) (o : smap V) :
  filter p (objectEntries o) = objectEntries (filter p o).
Proof.
  set (idx := fun q : str * V =>
                match arrayIndex (fst q) with Some i => Z.of_N i | None => 0 end).
  assert (Hcmp : forall l : smap V,
            sortBy indexCmp (filter isIndexKey l)
            = sortBy (fun a b => idx a - idx b) (filter isIndexKey l)).
  { intros l. apply sortBy_ext_in. intros x y Hx Hy.
    apply filter_In in Hx as [_ Hx]. apply filter_In in Hy as [_ Hy].
    unfold indexCmp, idx, isIndexKey in *.
    destruct (arrayIndex (fst x)); [|discriminate].
    destruct (arrayIndex (fst y)); [reflexivity | discriminate]. }
  unfold objectEntries. rewrite filter_app, !Hcmp.
  rewrite filter_sortBy by (intros; lia).
  now rewrite (filter_comm p isIndexKey), (filter_comm p (fun q => negb (isIndexKey q))).
Qed.

Lemma sortGroups_filter (lc : str -> str -> Z) (lc_ok : Collation lc)
    (p : str * list Page.CoursEntry -> bool) (g : smap (list Page.CoursEntry)) :
  filter p (Page.sortGroups lc g) = Page.sortGroups lc (filter p g).
Proof.
  unfold Page.sortGroups. rewrite filter_sortBy.
  - now rewrite objectEntries_filter.
  - intros a b. apply (cmpSubDisc_total lc lc_ok).
  - intros a b c. apply (cmpSubDisc_trans lc lc_ok).
Qed.

Lemma firstOccs_filter (p : str -> bool) (ks : list str) :
  firstOccs (filter p ks) = filter p (firstOccs ks).
Proof.
  induction ks as [|k ks IH]; [reflexivity|]. simpl.
  destruct (p k) eqn:Pk; simpl.
  - rewrite IH. f_equal. apply filter_comm.
  - rewrite IH, filter_both. apply filter_ext_in. intros k' _.
    destruct (str_eqb k' k) eqn:E; simpl; [|reflexivity].
    apply str_eqb_eq in E. subst k'. now rewrite Pk.
Qed.

Lemma filter_map_comm {A B : Type} (f : A -> B) (p : B -> bool) (l : list A) :
  filter p (map f l) = map f (filter (fun x => p (f x)) l).
Proof.
  induction l as [|x l IH]; [reflexivity|]. simpl.
  destruct (p (f x)); simpl; now rewrite IH.
Qed.

Lemma groups_of_selection (p : str -> bool) (l : list Page.CoursEntry)
    (g g' : smap (list Page.CoursEntry)) :
  Page.groupAll [] l = Some g ->
  Page.groupAll [] (filter (fun d => p (Page.sub_discipline d)) l) = Some g' ->
  g' = filter (fun b => p (fst b)) g.
Proof.
  intros Hg Hg'. rewrite (groupAll_spec _ _ Hg), (groupAll_spec _ _ Hg').
  rewrite filter_map_comm. simpl.
  rewrite <- filter_map_comm, firstOccs_filter.
  apply map_ext_in. intros k Hk. apply filter_In in Hk as [_ Pk]. f_equal.
  rewrite filter_both. apply filter_ext. intros d. unfold hasSub.
  destruct (str_eqb (Page.sub_discipline d) k) eqn:E; [|apply andb_false_r].
  apply str_eqb_eq in E. rewrite E, Pk. reflexivity.
Qed.

(** X24. What the export passes to the card are the blocks of the page
    whose sub-discipline the selection lets through, in the page's
    order and each with all its entries; [totalQuestions] is the sum of
    the counts of these blocks. *)
Theorem export_blocks_are_page_blocks :
  forall (lc : str -> str -> Z),
    Collation lc ->
    forall (data : list Page.CoursEntry) (modName : str)
           (allowed : option (list str)) (opts : SvgExport.SvgExportOptions)
           (blocks : list (str * list Page.CoursEntry)),
      Page.groupedBySubDisc lc data modName = Some blocks ->
      Page.buildSvgDataForModule lc data modName allowed = Some opts ->
      SvgExport.subDiscGroups opts
      = map toSvgGroup (filter (fun b => permits allowed (fst b)) blocks)
      /\ SvgExport.totalQuestions opts
         = sumZ (map (fun b => totalSubQ (snd b))
                   (filter (fun b => permits allowed (fst b)) blocks)).
Proof.
  intros lc lc_ok data modName allowed opts blocks Hb Ho.
  rewrite buildSvgData_entries in Ho. cbv zeta in Ho.
  unfold Page.groupedBySubDisc, Page.filteredByModule in Hb.
  destruct (Page.groupAll [] (filter (fun d => str_eqb (Page.module_name d) modName) data))
    as [g|] eqn:Hg; [|discriminate].
  injection Hb as <-.
  destruct (Page.groupAll [] (filter _ (filter _ data))) as [g'|] eqn:Hg';
    [|discriminate].
  injection Ho as <-. cbn [SvgExport.subDiscGroups SvgExport.totalQuestions].
  pose proof (groups_of_selection (permits allowed) _ g g' Hg Hg') as E.
  rewrite (sortGroups_filter lc lc_ok), <- E. split; [reflexivity|].
  rewrite blocks_total, totalSubQ_sum.
  destruct (sortGroups_partition lc _ g' Hg') as [Hperm _].
  symmetry. apply sumZ_perm, Permutation_map, Hperm.
Qed.

Lemma export_blocks_witness :
  let data := Page.filteredData ordinalCompare sampleRecords [] [] in
  match Page.buildSvgDataForModule ordinalCompare data (lit "Cardio")
          (Some [lit "Semiologie"; lit "Anatomie"])
  with
  | Some opts =>
      SvgExport.subDiscGroups opts
      = map toSvgGroup
          [ (lit "Anatomie",
             [topic "Anatomie" "A" 10 2021; topic "Anatomie" "B" 10 2021;
              topic "Anatomie" "C" 5 2022]);
            (lit "Semiologie", [topic "Semiologie" "D" 3 2022]) ]
      /\ SvgExport.totalQuestions opts = 28
  | None => False
  end.
Proof.
  intros data.
  destruct (Page.buildSvgDataForModule ordinalCompare data (lit "Cardio")
              (Some [lit "Semiologie"; lit "Anatomie"])) as [opts|] eqn:Ho.
  - refine (export_blocks_are_page_blocks ordinalCompare ordinalCompare_collation
              data (lit "Cardio") (Some [lit "Semiologie"; lit "Anatomie"]) opts
              [ (lit "Anatomie",
                 [topic "Anatomie" "A" 10 2021; topic "Anatomie" "B" 10 2021;
                  topic "Anatomie" "C" 5 2022]);
                (lit "Histologie", [topic "Histologie" "E" 7 2020]);
                (lit "Embryologie", [topic "Embryologie" "F" 1 2020]);
                (lit "Semiologie", [topic "Semiologie" "D" 3 2022]) ] _ Ho).
    vm_compute. reflexivity.
  - vm_compute in Ho. discriminate.
Defined.

(** *** The export dialog *)

Lemma modules_names_In (data : list Page.CoursEntry) (k : str) :
  In k (map PageState.module_name (PageState.modules data))
  <-> In k (map Page.module_name data).
Proof.
  rewrite <- (firstOccs_In (map Page.module_name data)).
  assert (Hnames : map PageState.module_name (PageState.moduleInfos data)
                   = firstOccs (map Page.module_name data)).
  { rewrite moduleInfos_spec, map_map. simpl. apply map_id. }
  rewrite <- Hnames. unfold PageState.modules.
  split; apply Permutation_in; apply Permutation_map;
    [apply sortBy_perm | apply Permutation_sym, sortBy_perm].
Qed.

Lemma subDiscsOf_In (data : list Page.CoursEntry) (modName sd : str) :
  In sd (PageState.subDiscsOf (PageState.modules data) modName)
  <-> exists d, In d data /\ Page.module_name d = modName
                /\ Page.sub_discipline d = sd.
Proof.
  unfold PageState.subDiscsOf.
  destruct (find _ (PageState.modules data)) as [mi|] eqn:E.
  - apply find_some in E as [Hmi Hname]. apply str_eqb_eq in Hname.
    destruct (modules_In_spec data mi Hmi) as [_ [Hsubs _]].
    rewrite Hsubs, sortBy_In, strSet_In, in_map_iff, Hname. split.
    + intros [d [Hs Hd]]. apply filter_In in Hd as [Hd Hm].
      apply str_eqb_eq in Hm. eauto.
    + intros [d [Hd [Hm Hs]]]. exists d. split; [exact Hs|].
      apply filter_In. split; [exact Hd|]. unfold hasModule. rewrite Hm.
      apply str_eqb_refl.
  - split; [contradiction|]. intros [d [Hd [Hm _]]].
    assert (Hin : In modName (map PageState.module_name (PageState.modules data))).
    { apply modules_names_In. rewrite <- Hm. now apply in_map. }
    apply in_map_iff in Hin as [mi [Hname Hmi]].
    pose proof (find_none _ _ E mi Hmi) as Hf. cbv beta in Hf.
    rewrite Hname, str_eqb_refl in Hf. discriminate.
Qed.

(** X25. Choosing a module in the export dialog preselects all its
    sub-disciplines, none of them when the module has no entry; the
    export with this selection is the export without a selection. *)
Theorem default_export_selection :
  forall (lc : str -> str -> Z) (data : list Page.CoursEntry) (modName : str),
    let subDiscs :=
      snd (PageState.handleSelectExportModule (PageState.modules data) modName) in
    (forall sd, In sd subDiscs <->
       exists d, In d data /\ Page.module_name d = modName
                 /\ Page.sub_discipline d = sd)
    /\ (subDiscs = [] <-> ~ In modName (map Page.module_name data))
    /\ Page.buildSvgDataForModule lc data modName (Some subDiscs)
       = Page.buildSvgDataForModule lc data modName None.
Proof.
  intros lc data modName subDiscs.
  assert (Hin : forall sd, In sd subDiscs <->
            exists d, In d data /\ Page.module_name d = modName
                      /\ Page.sub_discipline d = sd) by apply subDiscsOf_In.
  split; [exact Hin|]. split.
  - split.
    + intros Hnil Hm. apply in_map_iff in Hm as [d [Hm Hd]].
      assert (H : In (Page.sub_discipline d) subDiscs) by (apply Hin; eauto).
      rewrite Hnil in H. contradiction.
    + intros Hnot. destruct subDiscs as [|sd r] eqn:E; [reflexivity|].
      assert (H : In sd (sd :: r)) by now left.
      apply Hin in H as [d [Hd [Hm _]]]. exfalso. apply Hnot.
      rewrite <- Hm. now apply in_map.
  - rewrite !buildSvgData_entries. cbv zeta.
    assert (Hf : filter (fun d => permits (Some subDiscs) (Page.sub_discipline d))
                   (filter (fun d => str_eqb (Page.module_name d) modName) data)
                 = filter (fun d => permits None (Page.sub_discipline d))
                     (filter (fun d => str_eqb (Page.module_name d) modName) data)).
    { apply filter_ext_in. intros d Hd. apply filter_In in Hd as [Hd Hm].
      apply str_eqb_eq in Hm. unfold permits.
      destruct (0 <? len subDiscs); [|reflexivity].
      unfold includes. apply existsb_str_In, Hin. eauto. }
    now rewrite Hf.
Qed.

Lemma replaceSpaceRuns_plain (by_ : str) (inRun : bool) (s : str) :
  (forall u, In u s -> PageState.isWhiteSpace u = false) ->
  PageState.replaceSpaceRuns by_ inRun s = s.
Proof.
  revert inRun. induction s as [|u s IH]; intros inRun H; [reflexivity|]. simpl.
  rewrite (H u (or_introl eq_refl)), IH; [reflexivity|].
  intros; apply H; now right.
Qed.

Lemma replaceSpaceRuns_run (by_ : str) (w b : str) :
  (forall u, In u w -> PageState.isWhiteSpace u = true) ->
  (forall u r, b = u :: r -> PageState.isWhiteSpace u = false) ->
  PageState.replaceSpaceRuns by_ true (w ++ b)
  = PageState.replaceSpaceRuns by_ false b.
Proof.
  intros Hw Hb. induction w as [|u w IH]; simpl.
  - destruct b as [|u r]; [reflexivity|]. simpl.
    now rewrite (Hb u r eq_refl).
  - rewrite (Hw u (or_introl eq_refl)). simpl. apply IH.
    intros; apply Hw; now right.
Qed.

Lemma replaceSpaceRuns_safe (inRun : bool) (s : str) (u : N) :
  In u (PageState.replaceSpaceRuns (lit "-") inRun s) ->
  PageState.isWhiteSpace u = false.
Proof.
  revert inRun. induction s as [|v s IH]; intros inRun; simpl; [tauto|].
  destruct (PageState.isWhiteSpace v) eqn:E.
  - rewrite in_app_iff. intros [H | H]; [|now apply (IH true)].
    destruct inRun; [contradiction|]. destruct H as [<- | []]. reflexivity.
  - intros [<- | H]; [exact E | now apply (IH false)].
Qed.



(** *** The bars of the page *)

Lemma safeBase_maxQ (groups : list SvgExport.SvgSubDiscGroup)
    (g : SvgExport.SvgSubDiscGroup) (entries : list Page.CoursEntry) :
  SvgExport.entries g = map toSvgEntry entries ->
  SvgExport.maxQ (SvgExport.displayEntries (SvgExport.effectiveMax groups) g)
  = PageState.safeBase entries.
Proof.
  intros Hg. rewrite displayEntries_firstn, Hg.
  pose proof (effectiveMax_bounds groups) as Hb.
  destruct (Z.to_nat (SvgExport.effectiveMax groups)) as [|n] eqn:E; [lia|].
  destruct entries as [|e r]; reflexivity.
Qed.

(** X27. A row of the card has the relative width of the same row on
    the page: the export computes the percentage of an entry from the
    first entry of the block, as the page does. *)
Theorem page_bar_is_export_bar :
  forall (groups : list SvgExport.SvgSubDiscGroup) (g : SvgExport.SvgSubDiscGroup)
         (entries : list Page.CoursEntry) (e : Page.CoursEntry),
    SvgExport.entries g = map toSvgEntry entries ->
    SvgExport.barPct
      (SvgExport.maxQ (SvgExport.displayEntries (SvgExport.effectiveMax groups) g))
      (toSvgEntry e)
    = PageState.barWidth entries e.
Proof.
  intros groups g entries e Hg. now rewrite (safeBase_maxQ groups g entries Hg).
Qed.

Lemma page_bar_witness :
  SvgExport.barPct
    (SvgExport.maxQ
       (SvgExport.displayEntries (SvgExport.effectiveMax [anatomie]) anatomie))
    (toSvgEntry (topic "Anatomie" "Lung" 2 2021))
  = PageState.barWidth
      [topic "Anatomie" "Heart" 5 2021; topic "Anatomie" "Lung" 2 2021]
      (topic "Anatomie" "Lung" 2 2021).
Proof. apply page_bar_is_export_bar. reflexivity. Defined.

(** X28. On the page, the bars of a block ranked by count, the first
    count not negative, are between 8 and 100 percent wide, and the
    first is 100 percent wide when its count is positive. *)
Theorem page_bar_bounds :
  forall (entries : list Page.CoursEntry) (first : Page.CoursEntry)
         (rest : list Page.CoursEntry),
    entries = first :: rest ->
    StronglySorted
      (fun a b => Page.question_count b <= Page.question_count a) entries ->
    0 <= Page.question_count first ->
    (forall e, In e entries ->
       (8 <= PageState.barWidth entries e)%Q /\ (PageState.barWidth entries e <= 100)%Q)
    /\ (0 < Page.question_count first -> (PageState.barWidth entries first == 100)%Q).
Proof.
  intros entries first rest -> Hs Hfirst.
  apply StronglySorted_inv in Hs as [_ Hall]. rewrite Forall_forall in Hall.
  assert (Htop : 0 < PageState.safeBase (first :: rest)
                 /\ Page.question_count first <= PageState.safeBase (first :: rest)).
  { unfold PageState.safeBase.
    destruct (Z.eqb_spec (Page.question_count first) 0); lia. }
  destruct Htop as [Hpos Hle].
  assert (Hbase : 0 < Page.question_count first ->
            PageState.safeBase (first :: rest) = Page.question_count first).
  { unfold PageState.safeBase.
    destruct (Z.eqb_spec (Page.question_count first) 0); [lia | reflexivity]. }
  unfold PageState.barWidth.
  generalize dependent (PageState.safeBase (first :: rest)). intros top Hpos Hle Hbase.
  assert (Hratio : forall e, Page.question_count e <= top ->
            (inject_Z (Page.question_count e) / inject_Z top * 100 <= 100)%Q).
  { intros e He. apply (Qle_trans _ (1 * 100)%Q); [|discriminate].
    apply Qmult_le_compat_r; [|discriminate].
    apply Qle_shift_div_r; [unfold Qlt; simpl; lia|].
    rewrite Qmult_1_l. unfold Qle. simpl. lia. }
  split.
  - intros e He. split; [apply Q.le_max_l|].
    apply Q.max_lub; [discriminate|]. apply Hratio.
    destruct He as [<- | He]; [exact Hle|]. specialize (Hall e He). lia.
  - intros Hp. rewrite (Hbase Hp) in *.
    assert (Hfull : (inject_Z (Page.question_count first)
                     / inject_Z (Page.question_count first) * 100 == 100)%Q).
    { unfold Qdiv. rewrite Qmult_inv_r; [reflexivity|]. unfold Qeq. simpl. lia. }
    rewrite Hfull. apply Q.max_r. discriminate.
Qed.

Lemma page_bar_bounds_witness :
  let entries := [topic "Anatomie" "A" 10 2021; topic "Anatomie" "C" 5 2022] in
  (forall e, In e entries ->
     (8 <= PageState.barWidth entries e)%Q /\ (PageState.barWidth entries e <= 100)%Q)
  /\ (0 < Page.question_count (topic "Anatomie" "A" 10 2021) ->
      (PageState.barWidth entries (topic "Anatomie" "A" 10 2021) == 100)%Q).
Proof.
  intros entries.
  apply (page_bar_bounds entries (topic "Anatomie" "A" 10 2021)
           [topic "Anatomie" "C" 5 2022] eq_refl).
  - repeat constructor. simpl. lia.
  - simpl. lia.
Defined.

(** *** The export, end to end *)

Lemma buildSvgData_succeeds (lc : str -> str -> Z) (data : list Page.CoursEntry)
    (modName : str) (allowed : option (list str))
    (blocks : list (str * list Page.CoursEntry)) :
  Page.groupedBySubDisc lc data modName = Some blocks ->
  exists opts, Page.buildSvgDataForModule lc data modName allowed = Some opts.
Proof.
  intros Hb. rewrite buildSvgData_entries. cbv zeta.
  destruct (Page.groupAll [] (filter _ (filter _ data))) as [g'|] eqn:Hg'; [eauto|].
  apply groupAll_fails in Hg' as [d [Hd Hin]]; [|intros k []].
  apply modEntries_In in Hd as [Hd [Hm _]].
  unfold Page.groupedBySubDisc, Page.filteredByModule in Hb.
  destruct (Page.groupAll [] (filter (fun d => str_eqb (Page.module_name d) modName) data))
    as [g|] eqn:Hg; [|discriminate].
  assert (Hnone : Page.groupAll []
            (filter (fun d => str_eqb (Page.module_name d) modName) data) = None).
  { apply groupAll_fails; [intros k []|]. exists d. split; [|exact Hin].
    apply filter_In. split; [exact Hd|]. rewrite Hm. apply str_eqb_refl. }
  congruence.
Qed.

(** X29. When the page shows blocks for the module, an export that is
    not ignored downloads a card: its texts are the module name, the
    range of years, and for each block of the page with a selected
    sub-discipline, in the page's order, the block's name and the labels
    of its first rows up to the cap. *)
Theorem export_downloads_selected_blocks :
  forall (lc : str -> str -> Z) (toLowerCase : str -> str),
    Collation lc ->
    forall (data : list Page.CoursEntry) (modName : str) (subDiscs : list str)
           (blocks : list (str * list Page.CoursEntry)),
      Page.groupedBySubDisc lc data modName = Some blocks ->
      modName <> [] -> subDiscs <> [] ->
      exists opts,
        PageState.handleExportFinal lc toLowerCase data false modName subDiscs
        = PageState.Downloaded (SvgExport.generateTendanceSVG opts)
            (PageState.exportFilename toLowerCase modName)
        /\ SvgExport.subDiscGroups opts
           = map toSvgGroup
               (filter (fun b => includes str_eqb subDiscs (fst b)) blocks)
        /\ escaped (SvgExport.svgChunks opts)
           = modName :: Page.examYearsRange data
             :: flat_map
                  (blockTexts (SvgExport.effectiveMax (SvgExport.subDiscGroups opts)))
                  (SvgExport.subDiscGroups opts)
             ++ [Page.examYearsRange data].
Proof.
  intros lc toLowerCase lc_ok data modName subDiscs blocks Hb Hm Hs.
  destruct (buildSvgData_succeeds lc data modName (Some subDiscs) blocks Hb)
    as [opts Ho].
  exists opts. split; [|split].
  - unfold PageState.handleExportFinal. simpl.
    assert (str_eqb modName [] = false) as -> by now apply str_eqb_neq.
    assert ((len subDiscs =? 0) = false) as ->.
    { apply Z.eqb_neq. unfold len. destruct subDiscs; [congruence | simpl; lia]. }
    simpl. now rewrite Ho.
  - assert (Hgroups : SvgExport.subDiscGroups opts
                      = map toSvgGroup
                          (filter (fun b => permits (Some subDiscs) (fst b)) blocks)).
    { rewrite buildSvgData_entries in Ho. cbv zeta in Ho.
      unfold Page.groupedBySubDisc, Page.filteredByModule in Hb.
      destruct (Page.groupAll []
                  (filter (fun d => str_eqb (Page.module_name d) modName) data))
        as [g|] eqn:Hg; [|discriminate].
      injection Hb as <-.
      destruct (Page.groupAll [] (filter _ (filter _ data))) as [g'|] eqn:Hg';
        [|discriminate].
      injection Ho as <-. cbn [SvgExport.subDiscGroups].
      rewrite (sortGroups_filter lc lc_ok).
      now rewrite <- (groups_of_selection (permits (Some subDiscs)) _ g g' Hg Hg'). }
    rewrite Hgroups. f_equal. apply filter_ext. intros b. unfold permits.
    destruct (Z.ltb_spec 0 (len subDiscs)) as [_ | Hz]; [reflexivity|].
    unfold len in Hz. destruct subDiscs; [congruence | simpl in Hz; lia].
  - rewrite svgChunks_escaped.
    rewrite buildSvgData_entries in Ho. cbv zeta in Ho.
    destruct (Page.groupAll [] (filter _ (filter _ data))) as [g'|]; [|discriminate].
    injection Ho as <-. reflexivity.
Qed.

Lemma export_downloads_witness :
  let data := Page.filteredData ordinalCompare sampleRecords [] [] in
  exists opts,
    PageState.handleExportFinal ordinalCompare (fun s => s) data false
      (lit "Cardio") [lit "Anatomie"]
    = PageState.Downloaded (SvgExport.generateTendanceSVG opts)
        (PageState.exportFilename (fun s => s) (lit "Cardio"))
    /\ SvgExport.subDiscGroups opts
       = map toSvgGroup
           [ (lit "Anatomie",
              [topic "Anatomie" "A" 10 2021; topic "Anatomie" "B" 10 2021;
               topic "Anatomie" "C" 5 2022]) ].
Proof.
  intros data.
  destruct (export_downloads_selected_blocks ordinalCompare (fun s => s)
              ordinalCompare_collation data (lit "Cardio") [lit "Anatomie"]
              [ (lit "Anatomie",
                 [topic "Anatomie" "A" 10 2021; topic "Anatomie" "B" 10 2021;
                  topic "Anatomie" "C" 5 2022]);
                (lit "Histologie", [topic "Histologie" "E" 7 2020]);
                (lit "Embryologie", [topic "Embryologie" "F" 1 2020]);
                (lit "Semiologie", [topic "Semiologie" "D" 3 2022]) ])
    as [opts [Hd [Hg _]]].
  - vm_compute. reflexivity.
  - discriminate.
  - discriminate.
  - exists opts. split; [exact Hd | exact Hg].
Defined.


